(** * Sastre: the vManage base API models ([cisco_sdwan.base.models_base])

    A shallow embedding of [models_base.py] and the properties of its
    item model: API paths, configuration items and their local store,
    identifier rewriting, name sanitising and the rename templates.

    Python values are modelled as follows.
    - A [str] is a list of characters; a character is a code point below
      256 ([ascii]).  Code points above 255 are outside the model.
    - A JSON payload is a [json] tree.  A [dict] keeps its insertion order
      and is an association list with distinct keys; numbers are integers
      (floating point leaves are outside the model).
    - A call either returns, raises one of the exceptions of [exn], or
      leaves the model ([Unmodelled]: behaviour of the Python library on
      inputs the embedding does not cover).
    - The libraries the module calls ([re], [json], [str.format],
      [pathlib], the file system) are modelled next to the code. *)

From Stdlib Require Import Ascii String ZArith List Lia.
From Stdlib Require Import DecimalString DecimalZ DecimalPos DecimalFacts.
From stdpp Require Import gmap strings list sorting.

Set Default Proof Using "Type".

(** ** Strings *)

Abbreviation str := (list ascii).

Definition chars (s : string) : str := list_ascii_of_string s.
Coercion chars : string >-> list.

Definition code (c : ascii) : nat := nat_of_ascii c.

Definition TAB : ascii := "009"%char.
Definition LF : ascii := "010"%char.
Definition CR : ascii := "013"%char.
Definition BS : ascii := "008"%char.
Definition FF : ascii := "012"%char.
Definition QUOTE : ascii := "034"%char.
Definition BACKSLASH : ascii := "\"%char.

Definition in_range (lo hi : nat) (c : ascii) : bool :=
  (lo <=? code c) && (code c <=? hi).

Definition is_digit (c : ascii) : bool := in_range 48 57 c.
Definition is_lower (c : ascii) : bool := in_range 97 122 c.
Definition is_upper (c : ascii) : bool := in_range 65 90 c.

(** [str.isalnum] on the code points below 256 (letters, digits and the
    numeric characters of Latin-1). *)
Definition is_alnum (c : ascii) : bool :=
  is_digit c || is_lower c || is_upper c
  || (code c =? 170) || (code c =? 181) || (code c =? 186)
  || in_range 178 179 c || (code c =? 185) || in_range 188 190 c
  || in_range 192 214 c || in_range 216 246 c || in_range 248 255 c.

(** The class [\w] of a [str] pattern. *)
Definition is_word (c : ascii) : bool := is_alnum c || (code c =? 95).

(** The class [\s] of a [str] pattern ([str.isspace]). *)
Definition is_space (c : ascii) : bool :=
  in_range 9 13 c || in_range 28 32 c || (code c =? 133) || (code c =? 160).

Fixpoint join (sep : str) (parts : list str) : str :=
  match parts with
  | [] => []
  | [p] => p
  | p :: ps => p ++ sep ++ join sep ps
  end.

(** ** Outcomes of a call *)

Inductive exn : Set :=
| KeyError | TypeError | ValueError | IndexError | AttributeError
| ReError | JSONDecodeError.

Inductive result (A : Type) : Type :=
| Ret (a : A)
| Raise (e : exn)
| Unmodelled.
Arguments Ret {A} a.
Arguments Raise {A} e.
Arguments Unmodelled {A}.

#[global] Instance result_ret : MRet result := @Ret.
#[global] Instance result_bind : MBind result := fun A B f m =>
  match m with
  | Ret a => f a
  | Raise e => Raise e
  | Unmodelled => Unmodelled
  end.

#[global] Instance exn_eq_dec : EqDecision exn.
Proof. solve_decision. Defined.

(** ** JSON values *)

Unset Elimination Schemes.
Inductive json : Type :=
| JNull
| JBool (b : bool)
| JInt (z : Z)
| JStr (s : str)
| JArr (items : list json)
| JObj (members : list (str * json)).
Set Elimination Schemes.

Section json_induction.
Variable P : json -> Prop.
Hypothesis Hnull : P JNull.
Hypothesis Hbool : forall b, P (JBool b).
Hypothesis Hint : forall z, P (JInt z).
Hypothesis Hstr : forall s, P (JStr s).
Hypothesis Harr : forall l, Forall P l -> P (JArr l).
Hypothesis Hobj : forall kvs, Forall (fun kv => P (snd kv)) kvs -> P (JObj kvs).

Fixpoint json_nested_ind (j : json) : P j :=
  match j with
  | JNull => Hnull
  | JBool b => Hbool b
  | JInt z => Hint z
  | JStr s => Hstr s
  | JArr l =>
      Harr l ((fix go (l : list json) : Forall P l :=
                 match l with
                 | [] => List.Forall_nil _
                 | x :: l' => @List.Forall_cons _ P x l' (json_nested_ind x) (go l')
                 end) l)
  | JObj kvs =>
      Hobj kvs ((fix go (l : list (str * json)) : Forall (fun kv => P (snd kv)) l :=
                   match l with
                   | [] => List.Forall_nil _
                   | kv :: l' =>
                       @List.Forall_cons _ (fun kv => P (snd kv)) kv l'
                         (json_nested_ind (snd kv)) (go l')
                   end) kvs)
  end.
End json_induction.

(** A [dict] has distinct keys, at every depth. *)
Fixpoint wf_json (j : json) : Prop :=
  match j with
  | JArr l => (fix go (l : list json) : Prop :=
                 match l with [] => True | x :: l' => wf_json x /\ go l' end) l
  | JObj kvs =>
      NoDup (map fst kvs) /\
      (fix go (l : list (str * json)) : Prop :=
         match l with [] => True | (_, v) :: l' => wf_json v /\ go l' end) kvs
  | _ => True
  end.

(** *** [dict] operations on association lists *)

Fixpoint dict_get {V} (k : str) (d : list (str * V)) : option V :=
  match d with
  | [] => None
  | (k', v) :: d' => if decide (k' = k) then Some v else dict_get k d'
  end.

(** [d[k] = v]: an existing key keeps its place, a new one goes last. *)
Fixpoint dict_set {V} (k : str) (v : V) (d : list (str * V)) : list (str * V) :=
  match d with
  | [] => [(k, v)]
  | (k', v') :: d' =>
      if decide (k' = k) then (k', v) :: d' else (k', v') :: dict_set k v d'
  end.

(** [dict(pairs)] *)
Definition dict_of_pairs {V} (pairs : list (str * V)) : list (str * V) :=
  fold_left (fun d kv => dict_set (fst kv) (snd kv) d) pairs [].

(** [obj[key]] for a string key. *)
Definition getitem (obj : json) (key : option str) : result json :=
  match obj with
  | JObj kvs =>
      match key with
      | Some k => match dict_get k kvs with Some v => Ret v | None => Raise KeyError end
      | None => Raise KeyError
      end
  | _ => Raise TypeError
  end.

(** [len(obj)] *)
Definition py_len (obj : json) : result nat :=
  match obj with
  | JStr s => Ret (length s)
  | JArr l => Ret (length l)
  | JObj kvs => Ret (length kvs)
  | _ => Raise TypeError
  end.

(** The truth value of an object in a condition. *)
Definition truthy (v : json) : bool :=
  match v with
  | JNull => false
  | JBool b => b
  | JInt z => negb (z =? 0)%Z
  | JStr s => match s with [] => false | _ => true end
  | JArr l => match l with [] => false | _ => true end
  | JObj d => match d with [] => false | _ => true end
  end.

(** [x in s] for two strings: [x] occurs in [s]. *)
Fixpoint is_substring (x s : str) : bool :=
  bool_decide (x `prefix_of` s)
  || match s with
     | [] => false
     | _ :: s' => is_substring x s'
     end.

(** [x in obj] for a string [x]: a key of a [dict], an element of a
    [list], a part of a [str]. *)
Definition py_contains (x : str) (obj : json) : result bool :=
  match obj with
  | JObj d => Ret (bool_decide (is_Some (dict_get x d)))
  | JArr l => Ret (existsb (fun v => match v with
                                     | JStr s => bool_decide (s = x)
                                     | _ => false
                                     end) l)
  | JStr s => Ret (is_substring x s)
  | _ => Raise TypeError
  end.

(** The items [iter(obj)] gives: the elements of a [list], the keys of
    a [dict], the characters of a [str]. *)
Definition py_iter (obj : json) : result (list json) :=
  match obj with
  | JArr l => Ret l
  | JObj d => Ret (map (fun kv => JStr (fst kv)) d)
  | JStr s => Ret (map (fun c => JStr [c]) s)
  | _ => Raise TypeError
  end.

(** A comprehension or a generator run to its end: the items in order,
    or the first exception. *)
Fixpoint result_mapM {A B : Type} (f : A -> result B) (l : list A) : result (list B) :=
  match l with
  | [] => Ret []
  | x :: l' => y ← f x; ys ← result_mapM f l'; Ret (y :: ys)
  end.

(** ** [json.dumps]

    [json.dumps(obj)] with the default options: [ensure_ascii] escapes,
    separators [", "] and [": "]. *)

Fixpoint uint_chars (d : Decimal.uint) : str :=
  match d with
  | Decimal.Nil => []
  | Decimal.D0 d => "0"%char :: uint_chars d
  | Decimal.D1 d => "1"%char :: uint_chars d
  | Decimal.D2 d => "2"%char :: uint_chars d
  | Decimal.D3 d => "3"%char :: uint_chars d
  | Decimal.D4 d => "4"%char :: uint_chars d
  | Decimal.D5 d => "5"%char :: uint_chars d
  | Decimal.D6 d => "6"%char :: uint_chars d
  | Decimal.D7 d => "7"%char :: uint_chars d
  | Decimal.D8 d => "8"%char :: uint_chars d
  | Decimal.D9 d => "9"%char :: uint_chars d
  end.

(** [str(z)] of an [int]. *)
Definition int_repr (z : Z) : str :=
  match Z.to_int z with
  | Decimal.Pos d => uint_chars d
  | Decimal.Neg d => "-"%char :: uint_chars d
  end.

Definition hex_digit (n : nat) : ascii := nth n (chars "0123456789abcdef") "0"%char.

(** The replacement of one character by [ESCAPE_ASCII]. *)
Definition escape_char (c : ascii) : str :=
  if decide (c = QUOTE) then [BACKSLASH; QUOTE]
  else if decide (c = BACKSLASH) then [BACKSLASH; BACKSLASH]
  else if decide (c = LF) then [BACKSLASH; "n"%char]
  else if decide (c = CR) then [BACKSLASH; "r"%char]
  else if decide (c = TAB) then [BACKSLASH; "t"%char]
  else if decide (c = BS) then [BACKSLASH; "b"%char]
  else if decide (c = FF) then [BACKSLASH; "f"%char]
  else if in_range 32 126 c then [c]
  else [BACKSLASH; "u"%char; "0"%char; "0"%char;
        hex_digit (code c / 16); hex_digit (code c mod 16)].

Definition encode_str (s : str) : str :=
  QUOTE :: flat_map escape_char s ++ [QUOTE].

Fixpoint dumps (j : json) : str :=
  match j with
  | JNull => chars "null"
  | JBool true => chars "true"
  | JBool false => chars "false"
  | JInt z => int_repr z
  | JStr s => encode_str s
  | JArr l => "["%char :: join (chars ", ") (map dumps l) ++ ["]"%char]
  | JObj kvs =>
      "{"%char ::
      join (chars ", ")
        (map (fun kv => let '(k, v) := kv in encode_str k ++ chars ": " ++ dumps v) kvs)
      ++ ["}"%char]
  end.

(** [json.dumps(obj, indent=2)], the text [json.dump] writes to a file:
    one item per line, nested by two spaces; empty containers stay on
    one line. *)
Definition newline_indent (level : nat) : str := LF :: repeat " "%char (2 * level).

Fixpoint dumps_indent (level : nat) (j : json) : str :=
  match j with
  | JArr [] => chars "[]"
  | JArr l =>
      "["%char :: newline_indent (S level)
      ++ join (","%char :: newline_indent (S level)) (map (dumps_indent (S level)) l)
      ++ newline_indent level ++ ["]"%char]
  | JObj [] => chars "{}"
  | JObj kvs =>
      "{"%char :: newline_indent (S level)
      ++ join (","%char :: newline_indent (S level))
           (map (fun kv => let '(k, v) := kv in
                           encode_str k ++ chars ": " ++ dumps_indent (S level) v) kvs)
      ++ newline_indent level ++ ["}"%char]
  | _ => dumps j
  end.

(** ** The [re] module: patterns and the backtracking matcher

    The constructs the module's patterns use: literals, [.], character
    sets and classes, [^] and [$], groups (capturing, named,
    non-capturing), alternation, greedy and lazy repetition, bounded
    repetition and lookahead.  Matching is the backtracking search of
    [sre]: alternatives in order, greedy before lazy, first success. *)

Module re.

Inductive cset_item : Set :=
| CChar (c : ascii)
| CRange (lo hi : ascii)
| CSpace (neg : bool)
| CWord (neg : bool)
| CDigit (neg : bool).

Definition item_matches (it : cset_item) (c : ascii) : bool :=
  match it with
  | CChar x => bool_decide (c = x)
  | CRange lo hi => in_range (code lo) (code hi) c
  | CSpace neg => xorb neg (is_space c)
  | CWord neg => xorb neg (is_word c)
  | CDigit neg => xorb neg (is_digit c)
  end.

Inductive regex : Set :=
| RChar (c : ascii)
| RAny
| RSet (neg : bool) (items : list cset_item)
| RBol
| REol
| REps
| RSeq (r1 r2 : regex)
| RAlt (r1 r2 : regex)
| RRep (greedy : bool) (lo : nat) (hi : option nat) (r : regex)
| RGroup (idx : nat) (r : regex)
| RLook (positive : bool) (r : regex).

(** The matcher's state: the position in the subject, the text from
    there on, and the spans of the groups matched so far (latest
    first). *)
Record mstate : Set := MState {
  m_pos : nat;
  m_rest : str;
  m_caps : list (nat * (nat * nat))
}.

Definition cont : Set := mstate -> option mstate.

Definition step (p : ascii -> bool) (k : cont) (s : mstate) : option mstate :=
  match m_rest s with
  | c :: rest => if p c then k (MState (S (m_pos s)) rest (m_caps s)) else None
  | [] => None
  end.

Definition set_matches (neg : bool) (items : list cset_item) (c : ascii) : bool :=
  xorb neg (existsb (fun it => item_matches it c) items).

(** Repetition: [lo] mandatory rounds, then optional rounds up to
    [hi]; a round that consumed nothing ends the repetition. *)
Fixpoint rep_loop (body : cont -> cont) (greedy : bool) (lo : nat) (hi : option nat)
    (fuel : nat) (k : cont) (s : mstate) : option mstate :=
  match fuel with
  | 0 => None
  | S fuel' =>
      match lo with
      | S lo' => body (rep_loop body greedy lo' (pred <$> hi) fuel' k) s
      | 0 =>
          match hi with
          | Some 0 => k s
          | _ =>
              let again : cont := fun s' =>
                if m_pos s' =? m_pos s then k s'
                else rep_loop body greedy 0 (pred <$> hi) fuel' k s' in
              if greedy then
                match body again s with
                | Some r => Some r
                | None => k s
                end
              else
                match k s with
                | Some r => Some r
                | None => body again s
                end
          end
      end
  end.

Fixpoint rmatch (r : regex) (k : cont) (s : mstate) : option mstate :=
  match r with
  | RChar c => step (fun x => bool_decide (x = c)) k s
  | RAny => step (fun x => negb (bool_decide (x = LF))) k s
  | RSet neg items => step (set_matches neg items) k s
  | RBol => if m_pos s =? 0 then k s else None
  | REol =>
      match m_rest s with
      | [] => k s
      | [c] => if bool_decide (c = LF) then k s else None
      | _ => None
      end
  | REps => k s
  | RSeq r1 r2 => rmatch r1 (rmatch r2 k) s
  | RAlt r1 r2 =>
      match rmatch r1 k s with
      | Some x => Some x
      | None => rmatch r2 k s
      end
  | RRep g lo hi r' => rep_loop (rmatch r') g lo hi (lo + S (length (m_rest s))) k s
  | RGroup i r' =>
      rmatch r' (fun s' => k (MState (m_pos s') (m_rest s')
                                ((i, (m_pos s, m_pos s')) :: m_caps s'))) s
  | RLook positive r' =>
      match rmatch r' Some s with
      | Some s' => if positive then k (MState (m_pos s) (m_rest s) (m_caps s')) else None
      | None => if positive then None else k s
      end
  end.

(** A compiled pattern: [groups] and [groupindex] as in [re.Pattern]. *)
Record pattern : Set := Pattern {
  p_re : regex;
  groups : nat;
  groupindex : list (str * nat)
}.

(** A match object. *)
Record match_obj : Set := Match {
  mo_string : str;
  mo_start : nat;
  mo_end : nat;
  mo_caps : list (nat * (nat * nat))
}.

Definition slice (b e : nat) (s : str) : str := take (e - b) (drop b s).

Fixpoint span_of (i : nat) (caps : list (nat * (nat * nat))) : option (nat * nat) :=
  match caps with
  | [] => None
  | (j, sp) :: caps' => if i =? j then Some sp else span_of i caps'
  end.

(** [m.group(i)]: [None] when the group took no part in the match. *)
Definition group (m : match_obj) (i : nat) : option str :=
  match i with
  | 0 => Some (slice (mo_start m) (mo_end m) (mo_string m))
  | _ => match span_of i (mo_caps m) with
         | Some (b, e) => Some (slice b e (mo_string m))
         | None => None
         end
  end.

(** The leftmost match at or after position [pos], where [rest] is the
    subject from [pos] on.  Gives the text skipped before the match,
    the start and the final state.  With [adv] an empty match at [pos]
    itself is refused ([must_advance]). *)
Fixpoint search_from (r : regex) (pos : nat) (rest : str) (adv : bool)
    : option (str * nat * mstate) :=
  match rmatch r (fun s' => if adv && (m_pos s' =? pos) then None else Some s')
          (MState pos rest []) with
  | Some s' => Some ([], pos, s')
  | None =>
      match rest with
      | [] => None
      | c :: rest' =>
          match search_from r (S pos) rest' false with
          | Some (skipped, b, s') => Some (c :: skipped, b, s')
          | None => None
          end
      end
  end.

(** [p.search(s)] *)
Definition search (p : pattern) (s : str) : option match_obj :=
  match search_from (p_re p) 0 s false with
  | Some (_, b, s') => Some (Match s b (m_pos s') (m_caps s'))
  | None => None
  end.

(** [p.subn(repl, s)] for a callable [repl], which may raise and which
    here threads a state [St] (what the callback mutates).  Gives the
    new string and the number of substitutions. *)
Fixpoint subn_loop {St : Type} (fuel : nat) (r : regex)
    (repl : St -> match_obj -> result (St * str)) (subject : str)
    (pos : nat) (rest : str) (adv : bool) (st : St) (out : str) (n : nat)
    : result (St * str * nat) :=
  match fuel with
  | 0 => Unmodelled
  | S fuel' =>
      match search_from r pos rest adv with
      | None => Ret (st, out ++ rest, n)
      | Some (skipped, b, s') =>
          '(st', text) ← repl st (Match subject b (m_pos s') (m_caps s'));
          subn_loop fuel' r repl subject (m_pos s') (m_rest s')
            (m_pos s' =? b) st' (out ++ skipped ++ text) (S n)
      end
  end.

Definition subn_with {St : Type} (p : pattern)
    (repl : St -> match_obj -> result (St * str)) (st : St) (s : str)
    : result (St * str * nat) :=
  subn_loop (2 * length s + 2) (p_re p) repl s 0 s false st [] 0.

(** A replacement template, parsed: literal text and group references. *)
Inductive repl_item : Set :=
| Lit (s : str)
| GroupRef (i : nat).

(** [m.expand(template)]: a group that took no part gives the empty string. *)
Definition expand (tpl : list repl_item) (m : match_obj) : str :=
  flat_map (fun it => match it with
                      | Lit s => s
                      | GroupRef i => default [] (group m i)
                      end) tpl.

(** [p.subn(repl, s)] for a template [repl]. *)
Definition subn (p : pattern) (tpl : list repl_item) (s : str) : result (str * nat) :=
  '(_, out, n) ← subn_with p (fun (_ : unit) m => Ret (tt, expand tpl m)) tt s;
  Ret (out, n).

(** [p.sub(repl, s)] *)
Definition sub (p : pattern) (tpl : list repl_item) (s : str) : result str :=
  '(out, _) ← subn p tpl s; Ret out.

(** [p.sub(repl, s)] for a function [repl] of the matched text. *)
Definition sub_fun (p : pattern) (repl : match_obj -> str) (s : str) : result str :=
  '(_, out, _) ← subn_with p (fun (_ : unit) m => Ret (tt, repl m)) tt s;
  Ret out.

(** [p.findall(s)] for a pattern without groups: the matched texts. *)
Fixpoint findall_loop (fuel : nat) (r : regex) (subject : str)
    (pos : nat) (rest : str) (adv : bool) : list str :=
  match fuel with
  | 0 => []
  | S fuel' =>
      match search_from r pos rest adv with
      | None => []
      | Some (_, b, s') =>
          slice b (m_pos s') subject ::
          findall_loop fuel' r subject (m_pos s') (m_rest s') (m_pos s' =? b)
      end
  end.

Definition findall (p : pattern) (s : str) : list str :=
  findall_loop (2 * length s + 2) (p_re p) s 0 s false.

(** *** [re.compile]: the pattern syntax

    Syntax outside the constructs above (back-references, word
    boundaries, flags, look-behind, possessive repetition, numeric
    escapes) is [Unmodelled]; a malformed pattern raises [re.error]. *)

Inductive ikind : Set := KPlain | KRepeat | KAnchor | KLook.

(** The items of a branch, latest first, as one sequence. *)
Definition seq_of (items : list (ikind * regex)) : regex :=
  match items with
  | [] => REps
  | (_, r) :: earlier => fold_left (fun acc it => RSeq (snd it) acc) earlier r
  end.

(** The branches of an alternation, latest first, before [last]. *)
Definition alt_of (alts : list regex) (last : regex) : regex :=
  fold_left (fun acc b => RAlt b acc) alts last.

Definition class_escape (c : ascii) : option cset_item :=
  if decide (c = "s"%char) then Some (CSpace false)
  else if decide (c = "S"%char) then Some (CSpace true)
  else if decide (c = "w"%char) then Some (CWord false)
  else if decide (c = "W"%char) then Some (CWord true)
  else if decide (c = "d"%char) then Some (CDigit false)
  else if decide (c = "D"%char) then Some (CDigit true)
  else None.

(** The character an escape [\c] stands for. *)
Definition char_escape (in_set : bool) (c : ascii) : result ascii :=
  if decide (c = "n"%char) then Ret LF
  else if decide (c = "t"%char) then Ret TAB
  else if decide (c = "r"%char) then Ret CR
  else if decide (c = "f"%char) then Ret FF
  else if decide (c = "v"%char) then Ret "011"%char
  else if decide (c = "a"%char) then Ret "007"%char
  else if decide (c = "b"%char) then (if in_set then Ret BS else Unmodelled)
  else if is_digit c then Unmodelled
  else if bool_decide (c ∈ chars "ABZxuUN") then Unmodelled
  else if is_lower c || is_upper c then Raise ReError
  else Ret c.

(** One member of a set: a class or a character. *)
Definition set_atom (s : str) : result (cset_item * str) :=
  match s with
  | [] => Raise ReError
  | c :: rest =>
      if decide (c = BACKSLASH) then
        match rest with
        | [] => Raise ReError
        | e :: rest' =>
            match class_escape e with
            | Some cls => Ret (cls, rest')
            | None => x ← char_escape true e; Ret (CChar x, rest')
            end
        end
      else Ret (CChar c, rest)
  end.

Fixpoint parse_set (fuel : nat) (first : bool) (acc : list cset_item) (s : str)
    : result (list cset_item * str) :=
  match fuel with
  | 0 => Unmodelled
  | S fuel' =>
      match s with
      | [] => Raise ReError
      | c :: rest =>
          if bool_decide (c = "]"%char) && negb first then Ret (rev acc, rest)
          else
            '(lo, rest1) ← set_atom s;
            match rest1 with
            | d :: rest2 =>
                if decide (d = "-"%char) then
                  match rest2 with
                  | [] => Raise ReError
                  | e :: rest3 =>
                      if decide (e = "]"%char)
                      then Ret (rev (CChar "-"%char :: lo :: acc), rest3)
                      else
                        '(hi, rest4) ← set_atom rest2;
                        match lo, hi with
                        | CChar a, CChar b =>
                            if code b <? code a then Raise ReError
                            else parse_set fuel' false (CRange a b :: acc) rest4
                        | _, _ => Raise ReError
                        end
                  end
                else parse_set fuel' false (lo :: acc) rest1
            | [] => Raise ReError
            end
      end
  end.

Fixpoint take_digits (s : str) : str * str :=
  match s with
  | c :: rest =>
      if is_digit c then let '(ds, rest') := take_digits rest in (c :: ds, rest')
      else ([], s)
  | [] => ([], [])
  end.

Definition nat_of_digits (ds : str) : nat :=
  fold_left (fun a c => 10 * a + (code c - 48)) ds 0.

(** The text after a brace: a repetition [m}], [m,n}], [m,}], [,n}] or
    [,}]; [None] when the brace is an ordinary character. *)
Definition parse_brace (s : str) : option (nat * option nat * str) :=
  match s with
  | [] => None
  | c :: _ =>
      if decide (c = "}"%char) then None
      else
        let '(lo, s1) := take_digits s in
        let '(hi, s2) :=
          match s1 with
          | d :: s1' => if decide (d = ","%char) then take_digits s1' else (lo, s1)
          | [] => (lo, s1)
          end in
        match s2 with
        | e :: rest =>
            if decide (e = "}"%char)
            then Some (match lo with [] => 0 | _ => nat_of_digits lo end,
                       match hi with [] => None | _ => Some (nat_of_digits hi) end,
                       rest)
            else None
        | [] => None
        end
  end.

Definition hi_below_lo (lo : nat) (hi : option nat) : bool :=
  match hi with
  | Some h => h <? lo
  | None => false
  end.

Fixpoint take_until (stop : ascii) (s : str) : option (str * str) :=
  match s with
  | [] => None
  | c :: rest =>
      if decide (c = stop) then Some ([], rest)
      else match take_until stop rest with
           | Some (a, b) => Some (c :: a, b)
           | None => None
           end
  end.

(** [str.isidentifier] on the code points below 256: a letter or an
    underscore first, then letters, digits, underscores and the middle
    dot.  The superscript digits and the fractions are [\w] but take no
    part in an identifier. *)
Definition is_id_start (c : ascii) : bool :=
  is_upper c || is_lower c || (code c =? 95)
  || (code c =? 170) || (code c =? 181) || (code c =? 186)
  || in_range 192 214 c || in_range 216 246 c || in_range 248 255 c.

Definition is_id_continue (c : ascii) : bool :=
  is_id_start c || is_digit c || (code c =? 183).

Definition is_identifier (name : str) : bool :=
  match name with
  | [] => false
  | c :: rest => is_id_start c && forallb is_id_continue rest
  end.

Definition pres : Set := regex * nat * list (str * nat) * str.

(** The pattern [s] of one nesting level: [items] are the items of the
    branch being read and [alts] the branches before it (latest
    first), [ng] the groups opened so far. *)
Fixpoint parse (fuel : nat) (in_group : bool) (items : list (ikind * regex))
    (alts : list regex) (ng : nat) (names : list (str * nat)) (s : str)
    : result pres :=
  match fuel with
  | 0 => Unmodelled
  | S fuel' =>
      let continue it rest ng' names' :=
        parse fuel' in_group (it :: items) alts ng' names' rest in
      let repeat lo hi rest : result pres :=
        match items with
        | [] => Raise ReError
        | (KAnchor, _) :: _ => Raise ReError
        | (KRepeat, _) :: _ => Raise ReError
        | (KLook, _) :: _ => Unmodelled
        | (KPlain, r) :: items' =>
            if hi_below_lo lo hi then Raise ReError
            else
              match rest with
              | q :: rest' =>
                  if decide (q = "?"%char)
                  then parse fuel' in_group ((KRepeat, RRep false lo hi r) :: items')
                         alts ng names rest'
                  else if decide (q = "+"%char) then Unmodelled
                  else parse fuel' in_group ((KRepeat, RRep true lo hi r) :: items')
                         alts ng names rest
              | [] => parse fuel' in_group ((KRepeat, RRep true lo hi r) :: items')
                        alts ng names rest
              end
        end in
      match s with
      | [] =>
          if in_group then Raise ReError
          else Ret (alt_of alts (seq_of items), ng, names, [])
      | c :: rest =>
          if decide (c = ")"%char) then
            if in_group then Ret (alt_of alts (seq_of items), ng, names, rest)
            else Raise ReError
          else if decide (c = "|"%char) then
            parse fuel' in_group [] (seq_of items :: alts) ng names rest
          else if decide (c = "("%char) then
            match rest with
            | "?"%char :: ":"%char :: inner =>
                '(r, ng', names', rest') ← parse fuel' true [] [] ng names inner;
                continue (KPlain, r) rest' ng' names'
            | "?"%char :: "="%char :: inner =>
                '(r, ng', names', rest') ← parse fuel' true [] [] ng names inner;
                continue (KLook, RLook true r) rest' ng' names'
            | "?"%char :: "!"%char :: inner =>
                '(r, ng', names', rest') ← parse fuel' true [] [] ng names inner;
                continue (KLook, RLook false r) rest' ng' names'
            | "?"%char :: "P"%char :: "<"%char :: named =>
                match take_until ">"%char named with
                | None => Raise ReError
                | Some (name, inner) =>
                    if negb (is_identifier name) then Raise ReError
                    else if bool_decide (name ∈ map fst names) then Raise ReError
                    else
                      '(r, ng', names', rest') ←
                        parse fuel' true [] [] (S ng) (names ++ [(name, S ng)]) inner;
                      continue (KPlain, RGroup (S ng) r) rest' ng' names'
                end
            | "?"%char :: _ => Unmodelled
            | inner =>
                '(r, ng', names', rest') ← parse fuel' true [] [] (S ng) names inner;
                continue (KPlain, RGroup (S ng) r) rest' ng' names'
            end
          else if decide (c = "["%char) then
            let '(neg, body) :=
              match rest with
              | "^"%char :: body => (true, body)
              | _ => (false, rest)
              end in
            '(set, rest') ← parse_set (S (length body)) true [] body;
            continue (KPlain, RSet neg set) rest' ng names
          else if decide (c = "."%char) then continue (KPlain, RAny) rest ng names
          else if decide (c = "^"%char) then continue (KAnchor, RBol) rest ng names
          else if decide (c = "$"%char) then continue (KAnchor, REol) rest ng names
          else if decide (c = BACKSLASH) then
            match rest with
            | [] => Raise ReError
            | e :: rest' =>
                match class_escape e with
                | Some cls => continue (KPlain, RSet false [cls]) rest' ng names
                | None =>
                    x ← char_escape false e;
                    continue (KPlain, RChar x) rest' ng names
                end
            end
          else if decide (c = "*"%char) then repeat 0 None rest
          else if decide (c = "+"%char) then repeat 1 None rest
          else if decide (c = "?"%char) then repeat 0 (Some 1) rest
          else if decide (c = "{"%char) then
            match parse_brace rest with
            | Some (lo, hi, rest') => repeat lo hi rest'
            | None => continue (KPlain, RChar c) rest ng names
            end
          else continue (KPlain, RChar c) rest ng names
      end
  end.

(** [re.compile(s)] *)
Definition compile (s : str) : result pattern :=
  '(r, ng, names, _) ← parse (S (length s)) false [] [] 0 [] s;
  Ret (Pattern r ng names).

(** [m.group(name)] *)
Definition group_named (p : pattern) (m : match_obj) (name : str) : option str :=
  match dict_get name (groupindex p) with
  | Some i => group m i
  | None => None
  end.

End re.

(** ** [str.format] and [str.lower]

    [tpl.format] with keyword arguments, for replacement fields that are plain keyword
    names.  Doubled braces are literal braces; a field without a name or
    with a number asks for a positional argument, of which there are
    none ([IndexError]); an unknown name raises [KeyError]; a lone brace
    raises [ValueError].  Conversions, format specifications and
    attribute or index access inside a field are [Unmodelled]. *)

(** [format(v)] with an empty format specification. *)
Definition py_str (v : json) : result str :=
  match v with
  | JStr s => Ret s
  | JInt z => Ret (int_repr z)
  | JBool true => Ret (chars "True")
  | JBool false => Ret (chars "False")
  | JNull => Ret (chars "None")
  | JArr _ | JObj _ => Unmodelled
  end.

Definition format_field (kwargs : list (str * json)) (field : str) : result str :=
  if forallb is_digit field then Raise IndexError
  else match dict_get field kwargs with
       | Some v => py_str v
       | None => Raise KeyError
       end.

(** [field] holds the characters of the replacement field being read,
    latest first, or [None] in literal text. *)
Fixpoint format_go (kwargs : list (str * json)) (tpl : str) (field : option str)
    (out : str) : result str :=
  match field with
  | Some f =>
      match tpl with
      | [] => Raise ValueError
      | c :: rest =>
          if decide (c = "}"%char) then
            text ← format_field kwargs (rev f);
            format_go kwargs rest None (out ++ text)
          else if bool_decide (c ∈ chars "!:.[{") then Unmodelled
          else format_go kwargs rest (Some (c :: f)) out
      end
  | None =>
      match tpl with
      | [] => Ret out
      | "{"%char :: "{"%char :: rest => format_go kwargs rest None (out ++ ["{"%char])
      | "{"%char :: rest => format_go kwargs rest (Some []) out
      | "}"%char :: "}"%char :: rest => format_go kwargs rest None (out ++ ["}"%char])
      | "}"%char :: _ => Raise ValueError
      | c :: rest => format_go kwargs rest None (out ++ [c])
      end
  end.

Definition str_format (tpl : str) (kwargs : list (str * json)) : result str :=
  format_go kwargs tpl None [].

(** [str.lower] on strings of code points below 256, where it works
    character by character: the capital letters of ASCII and those of
    Latin-1 (192 to 222 without the multiplication sign) move 32 places
    up. *)
Definition lower_char (c : ascii) : ascii :=
  if is_upper c || (in_range 192 222 c && negb (code c =? 215))
  then ascii_of_nat (code c + 32) else c.

Definition py_lower (s : str) : str := map lower_char s.

(** [str(n)] of a natural number. *)
Definition nat_repr (n : nat) : str := int_repr (Z.of_nat n).

(** ** [json.loads]

    The decoder of the [json] module: a value between optional white
    space; strings in strict mode; duplicate keys keep the last value.
    Numbers with a fraction or an exponent, [NaN] and [Infinity], and
    [\u] escapes above 255 are [Unmodelled]. *)

Module json_decoder.

Definition is_ws (c : ascii) : bool := bool_decide (c ∈ [" "%char; TAB; LF; CR]).

Fixpoint skip_ws (s : str) : str :=
  match s with
  | c :: rest => if is_ws c then skip_ws rest else s
  | [] => []
  end.

Definition hex_value (c : ascii) : option nat :=
  if is_digit c then Some (code c - 48)
  else if in_range 97 102 c then Some (code c - 87)
  else if in_range 65 70 c then Some (code c - 55)
  else None.

(** The character of an escape [\c] other than [\u]. *)
Definition unescape (c : ascii) : option ascii :=
  if decide (c = QUOTE) then Some QUOTE
  else if decide (c = BACKSLASH) then Some BACKSLASH
  else if decide (c = "/"%char) then Some "/"%char
  else if decide (c = "b"%char) then Some BS
  else if decide (c = "f"%char) then Some FF
  else if decide (c = "n"%char) then Some LF
  else if decide (c = "r"%char) then Some CR
  else if decide (c = "t"%char) then Some TAB
  else None.

(** The text of a string after its opening quote; [acc] holds the
    characters read, latest first. *)
Fixpoint scan_string (s : str) (acc : str) : result (str * str) :=
  match s with
  | [] => Raise JSONDecodeError
  | c :: rest =>
      if decide (c = QUOTE) then Ret (rev acc, rest)
      else if decide (c = BACKSLASH) then
        match rest with
        | [] => Raise JSONDecodeError
        | e :: rest' =>
            if decide (e = "u"%char) then
              match rest' with
              | h1 :: h2 :: h3 :: h4 :: rest'' =>
                  match hex_value h1, hex_value h2, hex_value h3, hex_value h4 with
                  | Some a, Some b, Some c', Some d =>
                      let n := ((a * 16 + b) * 16 + c') * 16 + d in
                      if n <? 256 then scan_string rest'' (ascii_of_nat n :: acc)
                      else Unmodelled
                  | _, _, _, _ => Raise JSONDecodeError
                  end
              | _ => Raise JSONDecodeError
              end
            else
              match unescape e with
              | Some x => scan_string rest' (x :: acc)
              | None => Raise JSONDecodeError
              end
        end
      else if code c <? 32 then Raise JSONDecodeError
      else scan_string rest (c :: acc)
  end.

Fixpoint digits_value (ds : str) (acc : N) : N :=
  match ds with
  | [] => acc
  | c :: rest => digits_value rest (10 * acc + N.of_nat (code c - 48))
  end.

Fixpoint span_digits (s : str) : str * str :=
  match s with
  | c :: rest =>
      if is_digit c then let '(ds, rest') := span_digits rest in (c :: ds, rest')
      else ([], s)
  | [] => ([], [])
  end.

Definition starts_with_digit (s : str) : bool :=
  match s with
  | c :: _ => is_digit c
  | [] => false
  end.

(** Whether a fraction or an exponent follows the integer part. *)
Definition float_follows (s : str) : bool :=
  match s with
  | c :: rest =>
      if decide (c = "."%char) then starts_with_digit rest
      else if bool_decide (c ∈ chars "eE") then
        match rest with
        | sg :: rest' =>
            if bool_decide (sg ∈ chars "+-") then starts_with_digit rest'
            else is_digit sg
        | [] => false
        end
      else false
  | [] => false
  end.

(** The integer part [0] or [[1-9][0-9]*] at the head of [s]. *)
Definition scan_int (neg : bool) (s : str) : result (json * str) :=
  match s with
  | c :: rest =>
      if negb (is_digit c) then Raise JSONDecodeError
      else
        let '(ds, rest') := if decide (c = "0"%char) then ([c], rest) else span_digits s in
        if float_follows rest' then Unmodelled
        else
          let n := Z.of_N (digits_value ds 0) in
          Ret (JInt (if neg then (- n)%Z else n), rest')
  | [] => Raise JSONDecodeError
  end.

Fixpoint strip_prefix (p s : str) : option str :=
  match p, s with
  | [], _ => Some s
  | a :: p', b :: s' => if decide (a = b) then strip_prefix p' s' else None
  | _ :: _, [] => None
  end.

Fixpoint array_loop (value : str -> result (json * str)) (fuel : nat) (s : str)
    (acc : list json) : result (json * str) :=
  match fuel with
  | 0 => Unmodelled
  | S fuel' =>
      '(v, r) ← value s;
      match skip_ws r with
      | c :: r' =>
          if decide (c = "]"%char) then Ret (JArr (rev (v :: acc)), r')
          else if decide (c = ","%char) then array_loop value fuel' (skip_ws r') (v :: acc)
          else Raise JSONDecodeError
      | [] => Raise JSONDecodeError
      end
  end.

Fixpoint object_loop (value : str -> result (json * str)) (fuel : nat) (s : str)
    (acc : list (str * json)) : result (json * str) :=
  match fuel with
  | 0 => Unmodelled
  | S fuel' =>
      match s with
      | q :: s1 =>
          if decide (q = QUOTE) then
            '(key, r) ← scan_string s1 [];
            match skip_ws r with
            | c :: r1 =>
                if decide (c = ":"%char) then
                  '(v, r2) ← value (skip_ws r1);
                  match skip_ws r2 with
                  | d :: r3 =>
                      if decide (d = "}"%char)
                      then Ret (JObj (dict_of_pairs (rev ((key, v) :: acc))), r3)
                      else if decide (d = ","%char)
                      then object_loop value fuel' (skip_ws r3) ((key, v) :: acc)
                      else Raise JSONDecodeError
                  | [] => Raise JSONDecodeError
                  end
                else Raise JSONDecodeError
            | [] => Raise JSONDecodeError
            end
          else Raise JSONDecodeError
      | [] => Raise JSONDecodeError
      end
  end.

(** The value at the head of [s] ([scan_once]) and the text after it. *)
Fixpoint parse_value (fuel : nat) (s : str) : result (json * str) :=
  match fuel with
  | 0 => Unmodelled
  | S fuel' =>
      match s with
      | [] => Raise JSONDecodeError
      | c :: rest =>
          if decide (c = QUOTE) then
            '(x, r) ← scan_string rest []; Ret (JStr x, r)
          else if decide (c = "{"%char) then
            match skip_ws rest with
            | d :: r =>
                if decide (d = "}"%char) then Ret (JObj [], r)
                else object_loop (parse_value fuel') (length rest) (skip_ws rest) []
            | [] => Raise JSONDecodeError
            end
          else if decide (c = "["%char) then
            match skip_ws rest with
            | d :: r =>
                if decide (d = "]"%char) then Ret (JArr [], r)
                else array_loop (parse_value fuel') (length rest) (skip_ws rest) []
            | [] => Raise JSONDecodeError
            end
          else if decide (c = "-"%char) then
            match strip_prefix (chars "Infinity") rest with
            | Some _ => Unmodelled
            | None => scan_int true rest
            end
          else if is_digit c then scan_int false s
          else
            match strip_prefix (chars "null") s, strip_prefix (chars "true") s,
                  strip_prefix (chars "false") s with
            | Some r, _, _ => Ret (JNull, r)
            | _, Some r, _ => Ret (JBool true, r)
            | _, _, Some r => Ret (JBool false, r)
            | _, _, _ =>
                match strip_prefix (chars "NaN") s, strip_prefix (chars "Infinity") s with
                | None, None => Raise JSONDecodeError
                | _, _ => Unmodelled
                end
            end
      end
  end.

(** [json.loads(s)] *)
Definition loads (s : str) : result json :=
  '(v, r) ← parse_value (S (length s)) (skip_ws s);
  match skip_ws r with
  | [] => Ret v
  | _ :: _ => Raise JSONDecodeError
  end.

End json_decoder.

(** ** The module's functions *)

Definition compiled (src : str) : re.pattern :=
  match re.compile src with
  | Ret p => p
  | _ => re.Pattern re.REps 0 []
  end.

(** *** [filename_safe] *)

Definition filename_safe_src : str := chars "[^\w\s-]".

Definition filename_safe_pattern : re.pattern :=
  Eval vm_compute in compiled filename_safe_src.

Definition filename_safe (name : str) (lower : bool) : result str :=
  cleaned ← re.sub filename_safe_pattern [re.Lit (chars "_")] name;
  Ret (if lower then py_lower cleaned else cleaned).

(** *** [update_ids] *)

Definition uuid_src : str :=
  chars "[0-9a-f]{8}-[0-9a-f]{4}-[0-9a-f]{4}-[0-9a-f]{4}-[0-9a-f]{12}".

Definition uuid_pattern : re.pattern := Eval vm_compute in compiled uuid_src.

Definition replace_id (id_mapping_dict : gmap str str) (m : re.match_obj) : str :=
  let matched_id := default [] (re.group m 0) in
  default matched_id (id_mapping_dict !! matched_id).

Definition update_ids (id_mapping_dict : gmap str str) (item_data : json) : result json :=
  dict_json ← re.sub_fun uuid_pattern (replace_id id_mapping_dict) (dumps item_data);
  json_decoder.loads dict_json.

(** *** [ExtendedTemplate] *)

Module ExtendedTemplate.

Definition template_pattern_src : str := chars "{name(?:\s+(?P<regex>.*?))?\}".

Definition template_pattern : re.pattern :=
  Eval vm_compute in compiled template_pattern_src.

(** The replacement template of [regex_replace]: the references to
    the groups [1 .. groups], joined. *)
Definition group_refs (groups : nat) : list re.repl_item :=
  map (fun g => re.GroupRef (g + 1)) (seq 0 groups).

(** [regex_replace], the callback of [__call__].  It closes over the
    [name] and updates [label_value_map], which is threaded here.  A
    reference to a group above 99 reads as an octal escape in the
    replacement template and is [Unmodelled]. *)
Definition regex_replace (name : json) (label_value_map : list (str * json))
    (match_obj : re.match_obj) : result (list (str * json) * str) :=
  new_value ←
    match re.group_named template_pattern match_obj (chars "regex") with
    | Some regex =>
        regex_p ← re.compile regex;
        if re.groups regex_p =? 0 then Raise KeyError
        else
          match name with
          | JStr name_s =>
              if 100 <=? re.groups regex_p then Unmodelled
              else
                '(value, regex_p_subs) ←
                  re.subn regex_p (group_refs (re.groups regex_p)) name_s;
                Ret (JStr (if regex_p_subs =? 0 then [] else value))
          | _ => Raise TypeError
          end
    | None => Ret name
    end;
  let label := chars "name_" ++ nat_repr (length label_value_map) in
  Ret (dict_set label new_value label_value_map, "{"%char :: label ++ ["}"%char]).

(** [ExtendedTemplate(src_template)(name)] *)
Definition call (src_template : str) (name : json) : result str :=
  '(label_value_map, template, name_p_subs) ←
    re.subn_with template_pattern (regex_replace name) [] src_template;
  if name_p_subs =? 0 then Raise KeyError
  else str_format template label_value_map.

End ExtendedTemplate.

(** *** [ApiPath] *)

Module ApiPath.

(** The four slots; a path is a string or [None]. *)
Record t : Set := Make {
  get : option str;
  post : option str;
  put : option str;
  delete : option str
}.

Definition slots : list str :=
  [chars "get"; chars "post"; chars "put"; chars "delete"].

(** [setattr(self, field, value)] on an object with these slots.  A
    field that is no string is a [TypeError]; so is [__class__], which
    every object has and which takes a class only, never a path.  Any
    other name is no attribute of an object without a dictionary. *)
Definition setattr (self : t) (field : option str) (value : option str) : result t :=
  match field with
  | None => Raise TypeError
  | Some f =>
      if decide (f = chars "get") then Ret (Make value (post self) (put self) (delete self))
      else if decide (f = chars "post") then Ret (Make (get self) value (put self) (delete self))
      else if decide (f = chars "put") then Ret (Make (get self) (post self) value (delete self))
      else if decide (f = chars "delete") then Ret (Make (get self) (post self) (put self) value)
      else if decide (f = chars "__class__") then Raise TypeError
      else Raise AttributeError
  end.

(** [itertools.zip_longest(a, b, fillvalue=fill)] *)
Fixpoint zip_longest {A : Type} (a b : list A) (fill : A) : list (A * A) :=
  match a with
  | [] => (fun y => (fill, y)) <$> b
  | x :: a' =>
      match b with
      | [] => (x, fill) :: zip_longest a' [] fill
      | y :: b' => (x, y) :: zip_longest a' b' fill
      end
  end.

Fixpoint setattrs (self : t) (pairs : list (option str * option str)) : result t :=
  match pairs with
  | [] => Ret self
  | (field, value) :: rest => self' ← setattr self field value; setattrs self' rest
  end.

(** [ApiPath(get, *other_ops)] *)
Definition init (get : option str) (other_ops : list (option str)) : result t :=
  let self := Make get None None None in
  let last_op := default get (last other_ops) in
  setattrs self (zip_longest (Some <$> drop 1 slots) other_ops last_op).

End ApiPath.

(** *** [ApiItem] *)

Module ApiItem.

(** [is_empty] *)
Definition is_empty (data : json) : result bool :=
  match data with
  | JNull => Ret true
  | _ => n ← py_len data; Ret (n =? 0)
  end.

(** [uuid] and [name]: the value under the class's tag, [None] for a
    class without the tag. *)
Definition uuid (id_tag : option str) (data : json) : result json :=
  match id_tag with
  | Some _ => getitem data id_tag
  | None => Ret JNull
  end.

Definition name (name_tag : option str) (data : json) : result json :=
  match name_tag with
  | Some _ => getitem data name_tag
  | None => Ret JNull
  end.

(** [__str__] and [__repr__] *)
Definition str_ (data : json) : str := dumps_indent 0 data.

Definition repr (data : json) : str := dumps data.

End ApiItem.

(** *** The local store

    Paths are lists of segments.  The store holds the directories made
    and the text of every file. *)

Record store : Type := Store {
  dirs : gset (list str);
  files : gmap (list str) str
}.

(** [Path.mkdir(parents=True, exist_ok=True)] *)
Definition mkdir_parents (p : list str) (st : store) : store :=
  Store (dirs st ∪ list_to_set ((fun n => take (S n) p) <$> seq 0 (length p))) (files st).

(** [open(p, 'w')] and a full write of [text]. *)
Definition write_file (p : list str) (text : str) (st : store) : store :=
  Store (dirs st) (<[p := text]> (files st)).

(** [open(p, 'r')] and a full read: the text of the file, or
    [FileNotFoundError] where there is neither a file nor a directory.
    Opening a directory is outside the model. *)
Inductive read_outcome : Type :=
| ReadText (text : str)
| ReadNotFound
| ReadUnmodelled.

Definition read_file (p : list str) (st : store) : read_outcome :=
  match files st !! p with
  | Some text => ReadText text
  | None => if decide (p ∈ dirs st) then ReadUnmodelled else ReadNotFound
  end.

(** What a [load] does: it returns an instance built from the data of
    the file, returns [None], raises [FileNotFoundError] with a message,
    raises [ModelException] (its message, which quotes the decoder's,
    is not modelled), or raises something else. *)
Inductive load_outcome (A : Type) : Type :=
| Loaded (a : A)
| LoadNone
| LoadFileNotFoundError (msg : str)
| LoadModelException
| LoadRaise (e : exn)
| LoadUnmodelled.
Arguments Loaded {A} a.
Arguments LoadNone {A}.
Arguments LoadFileNotFoundError {A} msg.
Arguments LoadModelException {A}.
Arguments LoadRaise {A} e.
Arguments LoadUnmodelled {A}.

(** [json.load(read_f)] inside the [try] of a [load]. *)
Definition load_json (text : str) : load_outcome json :=
  match json_decoder.loads text with
  | Ret data => Loaded data
  | Raise JSONDecodeError => LoadModelException
  | Raise e => LoadRaise e
  | Unmodelled => LoadUnmodelled
  end.

(** *** [ConfigItem] *)

Module ConfigItem.

(** The class attributes a subclass sets. *)
Record cls : Type := Cls {
  id_tag : option str;
  name_tag : option str;
  store_path : list str;
  store_file : str;
  root_dir : str;
  skip_cmp_tag_set : gset str
}.

Definition name_check_regex_src : str :=
  chars "(?=^.{1,128}$)[^&<>! " ++ [QUOTE] ++ chars "]+$".

Definition name_check_regex : re.pattern :=
  Eval vm_compute in compiled name_check_regex_src.

(** [sorted(s)] of a string: its characters by code point. *)
Definition code_le (a b : ascii) : Prop := code a <= code b.

#[global] Instance code_le_dec : RelDecision code_le.
Proof. intros a b. unfold code_le. apply _. Defined.

Definition py_sorted (s : str) : str := merge_sort code_le s.

(** The payload without the keys left out of a comparison. *)
Definition cmp_dict (c : cls) (d : list (str * json)) : list (str * json) :=
  filter (fun kv => ¬ (fst kv ∈ skip_cmp_tag_set c ∨ id_tag c = Some (fst kv))) d.

(** [is_equal] *)
Definition is_equal (c : cls) (data other : json) : result bool :=
  match data, other with
  | JObj d, JObj o =>
      let local_cmp_dict := cmp_dict c d in
      let other_cmp_dict := cmp_dict c o in
      Ret (bool_decide (py_sorted (dumps (JObj local_cmp_dict))
                        = py_sorted (dumps (JObj other_cmp_dict))))
  | _, _ => Raise AttributeError
  end.

(** [get_filename] *)
Definition get_filename (c : cls) (ext_name : bool) (item_name item_id : option str)
    : result str :=
  match item_name, item_id with
  | Some name, Some id =>
      safe ← filename_safe name false;
      safe_name ←
        (if negb ext_name then Ret safe
         else str_format (chars "{name}_{uuid}")
                [(chars "name", JStr safe); (chars "uuid", JStr id)]);
      str_format (store_file c)
        [(chars "item_name", JStr safe_name); (chars "item_id", JStr id)]
  | _, _ => Ret (store_file c)
  end.

(** [save]: the value returned and the store afterwards. *)
Definition save (c : cls) (data : json) (node_dir : str) (ext_name : bool)
    (item_name item_id : option str) (st : store) : result bool * store :=
  match ApiItem.is_empty data with
  | Ret true => (Ret false, st)
  | Ret false =>
      let dir_path := root_dir c :: node_dir :: store_path c in
      let st1 := mkdir_parents dir_path st in
      match get_filename c ext_name item_name item_id with
      | Ret file => (Ret true, write_file (dir_path ++ [file]) (dumps_indent 0 data) st1)
      | Raise e => (Raise e, st1)
      | Unmodelled => (Unmodelled, st1)
      end
  | Raise e => (Raise e, st)
  | Unmodelled => (Unmodelled, st)
  end.

(** [get_new_name] *)
Definition get_new_name (c : cls) (data : json) (name_template : str)
    : result (option str * bool) :=
  match name ← getitem data (name_tag c); ExtendedTemplate.call name_template name with
  | Ret new_name =>
      Ret (Some new_name, bool_decide (is_Some (re.search name_check_regex new_name)))
  | Raise KeyError => Ret (None, false)
  | Raise e => Raise e
  | Unmodelled => Unmodelled
  end.

(** The tags of the class that the properties below read; the
    defaults are those of [ConfigItem]. *)
Record tags : Type := Tags {
  factory_default_tag : str;
  readonly_tag : str;
  owner_tag : str;
  info_tag : str;
  type_tag : option str;
  post_filtered_tags : option (list str)
}.


(** [data.get(key, default)] on the payload of an item. *)
Definition data_get (data : json) (key : option str) (dflt : json) : result json :=
  match data with
  | JObj d =>
      match key with
      | Some k => Ret (default dflt (dict_get k d))
      | None => Ret dflt
      end
  | _ => Raise AttributeError
  end.

(** [is_readonly]: the first of the two flags if it is true, else the
    second. *)
Definition is_readonly (tg : tags) (data : json) : result json :=
  a ← data_get data (Some (factory_default_tag tg)) (JBool false);
  if truthy a then Ret a else data_get data (Some (readonly_tag tg)) (JBool false).

(** [v == s] for a string [s]. *)
Definition eq_str (v : json) (s : str) : bool :=
  match v with
  | JStr x => bool_decide (x = s)
  | _ => false
  end.

(** [is_system] *)
Definition is_system (tg : tags) (data : json) : result bool :=
  a ← data_get data (Some (owner_tag tg)) (JStr []);
  if eq_str a (chars "system") then Ret true
  else b ← data_get data (Some (info_tag tg)) (JStr []); Ret (eq_str b (chars "aci")).

(** [type] *)
Definition type (tg : tags) (data : json) : result json :=
  data_get data (type_tag tg) JNull.

(** The message of the [FileNotFoundError] of [load]. *)
Definition not_found_message (cls_name : str) (item_name item_id : option str)
    : result str :=
  detail ←
    match item_name, item_id with
    | Some name, Some id =>
        str_format (chars ": {name}, {id}") [(chars "name", JStr name); (chars "id", JStr id)]
    | _, _ => Ret []
    end;
  str_format (chars "{owner} file not found{detail}")
    [(chars "owner", JStr cls_name); (chars "detail", JStr detail)].

(** [load]: the data the new instance holds.  [cls_name] is the name of
    the class. *)
Definition load (c : cls) (cls_name : str) (node_dir : str) (ext_name : bool)
    (item_name item_id : option str) (raise_not_found use_root_dir : bool)
    (st : store) : load_outcome json :=
  let dir_path :=
    if use_root_dir then root_dir c :: node_dir :: store_path c
    else node_dir :: store_path c in
  match get_filename c ext_name item_name item_id with
  | Ret file =>
      match read_file (dir_path ++ [file]) st with
      | ReadText text => load_json text
      | ReadNotFound =>
          if raise_not_found then
            match not_found_message cls_name item_name item_id with
            | Ret msg => LoadFileNotFoundError msg
            | Raise e => LoadRaise e
            | Unmodelled => LoadUnmodelled
            end
          else LoadNone
      | ReadUnmodelled => LoadUnmodelled
      end
  | Raise e => LoadRaise e
  | Unmodelled => LoadUnmodelled
  end.



(** [put_data] *)
Definition put_data (data : json) (id_mapping_dict : gmap str str) : result json :=
  match data with
  | JObj d =>
      let filtered_keys : gset str :=
        {[ chars "@rid"; chars "createdOn"; chars "lastUpdatedOn" ]} in
      let put_dict := filter (fun kv => fst kv ∉ filtered_keys) d in
      update_ids id_mapping_dict (JObj put_dict)
  | _ => Raise AttributeError
  end.

(** [id_references_set] *)
Definition id_references_set (c : cls) (data : json) : result (gset str) :=
  match data with
  | JObj d =>
      let filtered_data := filter (fun kv => id_tag c ≠ Some (fst kv)) d in
      Ret (list_to_set (re.findall uuid_pattern (dumps (JObj filtered_data))))
  | _ => Raise AttributeError
  end.




End ConfigItem.

(** *** [ServerInfo] *)

Module ServerInfo.

(** [__getattr__]; [data] is the record's dictionary. *)
Definition getattr (data : gmap str json) (item : str) : result json :=
  let attr := default JNull (data !! item) in
  match attr with
  | JNull => Raise AttributeError
  | _ => Ret attr
  end.

Definition root_dir : str := chars "data".

Definition store_file : str := chars "server_info.json".

(** What looking an attribute up gives: a value, the dictionary of the
    record itself, or a method bound to the record or to its class. *)
Inductive attribute : Type :=
| Value (v : json)
| Dict (d : gmap str json)
| Method (name : str).

(** A name that starts and ends with two underscores. *)
Definition is_dunder (item : str) : bool :=
  bool_decide (take 2 item = chars "__")
  && bool_decide (take 2 (reverse item) = chars "__").

(** [self.item], that is [getattr(self, item)], on the record the
    constructor makes of the keyword arguments [data].  The attributes
    of the instance and of its class come first: [data], which the
    constructor sets, the class attributes [root_dir] and [store_file]
    and the methods of the class body.  [__getattr__] is called for a
    name that is none of them.  The remaining names with two
    underscores on both sides are those of [object], which vary with
    the interpreter. *)
Definition access (data : gmap str json) (item : str) : result attribute :=
  if decide (item = chars "data") then Ret (Dict data)
  else if decide (item = chars "root_dir") then Ret (Value (JStr root_dir))
  else if decide (item = chars "store_file") then Ret (Value (JStr store_file))
  else if decide (item = chars "load") then Ret (Method item)
  else if decide (item = chars "save") then Ret (Method item)
  else if decide (item = chars "__init__") then Ret (Method item)
  else if decide (item = chars "__getattr__") then Ret (Method item)
  else if is_dunder item then Unmodelled
  else v ← getattr data item; Ret (Value v).

(** [save]; [data] is the dictionary of the keyword arguments, in order. *)
Definition save (data : list (str * json)) (node_dir : str) (st : store)
    : result bool * store :=
  let dir_path := [root_dir; node_dir] in
  let st1 := mkdir_parents dir_path st in
  (Ret true, write_file (dir_path ++ [store_file]) (dumps_indent 0 (JObj data)) st1).

(** [load]: the dictionary of the new instance.  Data that is not a
    dictionary cannot be passed as keyword arguments. *)
Definition load (node_dir : str) (st : store) : load_outcome (list (str * json)) :=
  let dir_path := [root_dir; node_dir] in
  match read_file (dir_path ++ [store_file]) st with
  | ReadText text =>
      match load_json text with
      | Loaded (JObj d) => Loaded d
      | Loaded _ => LoadRaise TypeError
      | LoadNone => LoadNone
      | LoadFileNotFoundError msg => LoadFileNotFoundError msg
      | LoadModelException => LoadModelException
      | LoadRaise e => LoadRaise e
      | LoadUnmodelled => LoadUnmodelled
      end
  | ReadNotFound => LoadNone
  | ReadUnmodelled => LoadUnmodelled
  end.

End ServerInfo.

(** *** [UpdateEval] *)

Module UpdateEval.

Record t : Type := Make {
  is_policy : bool;
  is_master : bool;
  data : json
}.

Definition init (data : json) : t :=
  let is_policy := match data with JArr _ => true | _ => false end in
  let is_master :=
    match data with
    | JObj d => bool_decide (is_Some (dict_get (chars "data") d))
    | _ => false
    end in
  Make is_policy is_master
    (if is_master
     then match data with
          | JObj d => default JNull (dict_get (chars "data") d)
          | _ => data
          end
     else data).

Definition need_reattach (self : t) : result bool :=
  if negb (is_policy self) then py_contains (chars "processId") (data self)
  else Ret false.

Definition need_reactivate (self : t) : result bool :=
  if is_policy self then n ← py_len (data self); Ret (0 <? n)
  else Ret false.

(** [templates_affected_iter]: the items of the iterator. *)
Definition templates_affected_iter (self : t) : result (list json) :=
  affected ← ConfigItem.data_get (data self) (Some (chars "masterTemplatesAffected")) (JArr []);
  py_iter affected.

Definition str_ (self : t) : str := dumps_indent 0 (data self).

Definition repr (self : t) : str := dumps (data self).

End UpdateEval.

(** *** [IndexApiItem] *)

Module IndexApiItem.

(** The data the constructor keeps. *)
Definition init (data : json) : json :=
  match data with
  | JObj d => default JNull (dict_get (chars "data") d)
  | _ => data
  end.

(** What one entry of an iteration is: an item, or a tuple of items. *)
Inductive entry : Type :=
| Single (v : json)
| Tuple (vs : list json).

(** [operator.itemgetter] of the fields, applied to [elem] *)
Definition itemgetter (fields : list str) (elem : json) : result entry :=
  match fields with
  | [] => Raise TypeError
  | [f] => v ← getitem elem (Some f); Ret (Single v)
  | _ => vs ← result_mapM (fun f => getitem elem (Some f)) fields; Ret (Tuple vs)
  end.

(** [iter]: the entries of the generator run to its end. *)
Definition iter (data : json) (iter_fields : list str) : result (list entry) :=
  elems ← py_iter data;
  result_mapM (itemgetter iter_fields) elems.

(** [default_getter] of the fields, applied to [row] *)
Definition default_getter (fields : list str) (row : json) : result entry :=
  match fields with
  | [] => Ret (Tuple [])
  | _ =>
      match row with
      | JObj d => Ret (Tuple (map (fun field => default JNull (dict_get field d)) fields))
      | _ => Raise AttributeError
      end
  end.

(** [extended_iter]: the entries of the generator run to its end. *)
Definition extended_iter (data : json) (iter_fields extended_iter_fields : list str)
    : result (list entry) :=
  elems ← py_iter data;
  result_mapM (default_getter (iter_fields ++ extended_iter_fields)) elems.

End IndexApiItem.

(** *** [IndexConfigItem] *)

Module IndexConfigItem.

(** [iter_fields]: a plain tuple of labels, or an [IdName]. *)
Inductive iter_fields_t : Type :=
| Fields (labels : list str)
| IdName (id name : str).

Definition labels_of (iter_fields : iter_fields_t) : list str :=
  match iter_fields with
  | Fields labels => labels
  | IdName id name => [id; name]
  end.

Record t : Type := Make {
  data : json;
  need_extended_name : bool
}.

(** [filename_safe(item_name, lower=True)] on an entry of [iter]. *)
Definition safe_lower (e : IndexApiItem.entry) : result str :=
  match e with
  | IndexApiItem.Single (JStr item_name) => filename_safe item_name true
  | _ => Raise TypeError
  end.

(** The constructor *)
Definition init (iter_fields : iter_fields_t) (data : json) : result t :=
  let data := IndexApiItem.init data in
  match iter_fields with
  | IdName _ name =>
      elems ← py_iter data;
      safe ← result_mapM (fun elem => e ← IndexApiItem.itemgetter [name] elem; safe_lower e)
                elems;
      let filename_safe_set : gset str := list_to_set safe in
      n ← py_len data;
      Ret (Make data (negb (size filename_safe_set =? n)))
  | Fields _ => Ret (Make data false)
  end.

(** A configuration item: its class and its data. *)
Record item : Type := Item {
  item_cls : ConfigItem.cls;
  item_data : json
}.

(** [id_hint_dict.get(name)] *)
Definition hint_get (id_hint_dict : gmap str str) (name : json) : result json :=
  match name with
  | JStr s => Ret (match id_hint_dict !! s with Some v => JStr v | None => JNull end)
  | JArr _ | JObj _ => Raise TypeError
  | _ => Ret JNull
  end.

(** [item_dict], the inner function of [create] *)
Definition item_dict (labels : list str) (id_hint_dict : gmap str str) (item_obj : item)
    : result (list (str * json)) :=
  pairs ← result_mapM
    (fun key =>
       match item_data item_obj with
       | JObj d =>
           name ← ApiItem.name (ConfigItem.name_tag (item_cls item_obj)) (item_data item_obj);
           hint ← hint_get id_hint_dict name;
           Ret (key, default hint (dict_get key d))
       | _ => Raise AttributeError
       end) labels;
  Ret (dict_of_pairs pairs).

(** [create] *)
Definition create (iter_fields : iter_fields_t) (item_list : list item)
    (id_hint_dict : gmap str str) : result t :=
  rows ← result_mapM (item_dict (labels_of iter_fields) id_hint_dict) item_list;
  let index_dict := JObj [(chars "data", JArr (map JObj rows))] in
  init iter_fields index_dict.

(** [__iter__], [iter] and [extended_iter] are those of [IndexApiItem]. *)
Definition iter (self : t) (iter_fields : list str) : result (list IndexApiItem.entry) :=
  IndexApiItem.iter (data self) iter_fields.

Definition extended_iter (self : t) (iter_fields extended_iter_fields : list str)
    : result (list IndexApiItem.entry) :=
  IndexApiItem.extended_iter (data self) iter_fields extended_iter_fields.

End IndexConfigItem.

(** ** Notions the properties are stated with *)

(** The characters the docstring of [filename_safe] keeps:
    [a-z], [A-Z], [0-9], ['_'], [' '] and ['-']. *)
Definition in_safe_set (c : ascii) : bool :=
  is_lower c || is_upper c || is_digit c || bool_decide (c ∈ chars "_ -").

(** What [filename_safe] does to one character. *)
Definition sanitize_char (c : ascii) : ascii :=
  if is_word c || is_space c || bool_decide (c = "-"%char) then c else "_"%char.

(** The characters a valid name excludes. *)
Definition excluded_name_char (c : ascii) : bool :=
  bool_decide (c ∈ chars "&<>! " ++ [QUOTE]).

(** A name of 1 to 128 characters, none of them excluded. *)
Definition name_ok (s : str) : Prop :=
  1 <= length s <= 128 /\ Forall (fun c => excluded_name_char c = false) s.

(** An example class: device templates, stored by name. *)
Definition example_cls : ConfigItem.cls :=
  ConfigItem.Cls (Some (chars "templateId")) (Some (chars "templateName"))
    [chars "device_templates"; chars "template"] (chars "{item_name}.json")
    (chars "data") ∅.

(** *** Notions for the matcher

    The state [n] characters further on, and a bound that may be absent. *)

Definition advance (n : nat) (s : re.mstate) : re.mstate :=
  re.MState (re.m_pos s + n) (drop n (re.m_rest s)) (re.m_caps s).

Definition le_opt (n : nat) (hi : option nat) : Prop :=
  match hi with Some h => n <= h | None => True end.

Definition not_lf (c : ascii) : bool := negb (bool_decide (c = LF)).

Definition name_check_set : list re.cset_item :=
  [re.CChar "&"; re.CChar "<"; re.CChar ">"; re.CChar "!"; re.CChar " "; re.CChar QUOTE].

(** The end of a line: the end of the text, or a final line feed. *)
Definition at_eol (s : str) : Prop := s = [] \/ s = [LF].

Definition look_ok (s : str) : Prop :=
  exists n, 1 <= n <= 128 /\ n <= length s
            /\ Forall (fun c => not_lf c = true) (take n s) /\ at_eol (drop n s).

Definition body_ok (s : str) : Prop :=
  exists n, 1 <= n /\ n <= length s
            /\ Forall (fun c => excluded_name_char c = false) (take n s)
            /\ at_eol (drop n s).

(** *** Identifier tokens

    The text as [update_ids] sees it: identifiers, found from left to
    right without overlap, and the characters between them. *)

Definition is_hex (c : ascii) : bool := is_digit c || in_range 97 102 c.

Definition is_uuid_char (c : ascii) : bool := is_hex c || bool_decide (c = "-"%char).

(** [s] without its first [n] characters, when they all satisfy [p]. *)
Fixpoint strip (p : ascii -> bool) (n : nat) (s : str) : option str :=
  match n with
  | 0 => Some s
  | S n' =>
      match s with
      | c :: s' => if p c then strip p n' s' else None
      | [] => None
      end
  end.

Definition dash (s : str) : option str := strip (fun c => bool_decide (c = "-"%char)) 1 s.

(** The text after an identifier of the form 8-4-4-4-12 at the head of [s]. *)
Definition uuid_rest (s : str) : option str :=
  s1 ← strip is_hex 8 s; s2 ← dash s1;
  s3 ← strip is_hex 4 s2; s4 ← dash s3;
  s5 ← strip is_hex 4 s4; s6 ← dash s5;
  s7 ← strip is_hex 4 s6; s8 ← dash s7;
  strip is_hex 12 s8.

Definition is_uuid_at (s : str) : bool := bool_decide (is_Some (uuid_rest s)).

(** A string that is one identifier. *)
Definition is_uuid (s : str) : Prop := uuid_rest s = Some [].

Inductive token : Set :=
| TId (u : str)
| TChr (c : ascii).

(** [skip] counts the characters of the current identifier still to pass. *)
Fixpoint tokens (skip : nat) (s : str) : list token :=
  match s with
  | [] => []
  | c :: rest =>
      match skip with
      | S k => tokens k rest
      | 0 =>
          if is_uuid_at s then TId (take 36 s) :: tokens 35 rest
          else TChr c :: tokens 0 rest
      end
  end.

Definition tok_text (f : str -> str) (t : token) : str :=
  match t with
  | TId u => f u
  | TChr c => [c]
  end.

(** The text with every identifier [u] replaced by [f u]. *)
Definition scan (f : str -> str) (s : str) : str := flat_map (tok_text f) (tokens 0 s).

(** The identifiers of a text, in order. *)
Fixpoint tok_ids (ts : list token) : list str :=
  match ts with
  | [] => []
  | TId u :: ts' => u :: tok_ids ts'
  | TChr _ :: ts' => tok_ids ts'
  end.

Definition matches (s : str) : list str := tok_ids (tokens 0 s).

(** The leftmost identifier at or after [pos], as [re.search_from] gives it. *)
Fixpoint uuid_find (pos : nat) (rest : str) : option (str * nat * re.mstate) :=
  match rest with
  | [] => None
  | c :: rest' =>
      match uuid_rest rest with
      | Some r => Some ([], pos, re.MState (pos + 36) r [])
      | None =>
          match uuid_find (S pos) rest' with
          | Some (sk, b, s') => Some (c :: sk, b, s')
          | None => None
          end
      end
  end.

(** What [replace_id] makes of an identifier. *)
Definition mapped (m : gmap str str) (u : str) : str := default u (m !! u).

(** The ids present in a payload: the identifiers of its JSON text. *)
Definition ids_of (p : json) : list str := re.findall uuid_pattern (dumps p).


(** The characters [json.dumps] writes as they are or as an escape that
    holds neither a digit nor a letter from [a] to [f]: printable ASCII,
    line feed, carriage return and tab. *)
Definition plain_char (c : ascii) : bool :=
  in_range 32 126 c || bool_decide (c ∈ [LF; CR; TAB]).

Definition plain_str (s : str) : Prop := Forall (fun c => plain_char c = true) s.

(** Every string of the payload, keys included, is plain. *)
Fixpoint plain_json (j : json) : Prop :=
  match j with
  | JStr s => plain_str s
  | JArr l => (fix go (l : list json) : Prop :=
                 match l with [] => True | x :: l' => plain_json x /\ go l' end) l
  | JObj kvs =>
      (fix go (l : list (str * json)) : Prop :=
         match l with
         | [] => True
         | (k, v) :: l' => plain_str k /\ plain_json v /\ go l'
         end) kvs
  | _ => True
  end.

(** The payload with [g] applied to every string, keys included. *)
Fixpoint jmap (g : str -> str) (j : json) : json :=
  match j with
  | JStr s => JStr (g s)
  | JArr l => JArr (map (jmap g) l)
  | JObj kvs => JObj (map (fun kv => let '(k, v) := kv in (g k, jmap g v)) kvs)
  | _ => j
  end.

(** [s] without a prefix whose characters satisfy the predicates of
    [pat], one each. *)
Fixpoint strip_pat (pat : list (ascii -> bool)) (s : str) : option str :=
  match pat with
  | [] => Some s
  | p :: pat' =>
      match s with
      | c :: s' => if p c then strip_pat pat' s' else None
      | [] => None
      end
  end.

Definition is_dash (c : ascii) : bool := bool_decide (c = "-"%char).

Definition uuid_pat : list (ascii -> bool) :=
  repeat is_hex 8 ++ [is_dash] ++ repeat is_hex 4 ++ [is_dash] ++ repeat is_hex 4
  ++ [is_dash] ++ repeat is_hex 4 ++ [is_dash] ++ repeat is_hex 12.

(** What the identifier pattern sees of a character. *)
Definition cls (c : ascii) : bool * bool := (is_hex c, is_dash c).

Definition shape (s : str) : list (bool * bool) := map cls s.

Definition tok_map (f : str -> str) (t : token) : token :=
  match t with
  | TId u => TId (f u)
  | TChr c => TChr c
  end.

(** The set [0-9a-f] of the identifier pattern. *)
Definition hex_set : list re.cset_item :=
  [re.CRange "0"%char "9"%char; re.CRange "a"%char "f"%char].

(** *** Notions for the decoder

    What may follow a value in a JSON text, and how one member of an
    object is written. *)

Definition after_value (t : str) : bool :=
  match t with
  | [] => true
  | c :: _ => bool_decide (c ∈ chars ",]}")
  end.

(** The first character of a JSON text. *)
Definition value_start (c : ascii) : bool :=
  is_digit c || bool_decide (c ∈ QUOTE :: chars "ntf-[{").

Definition member_text (kv : str * json) : str :=
  let '(k, v) := kv in encode_str k ++ chars ": " ++ dumps v.

(** *** Notions for the text of a payload *)

(** A function that sends identifiers to identifiers. *)
Definition keeps_uuid (g : str -> str) : Prop := forall u, is_uuid u -> is_uuid (g u).

(** The tokens of the escaped form of a token. *)
Definition escape_token (t : token) : list token :=
  match t with
  | TId u => [TId u]
  | TChr c => map TChr (escape_char c)
  end.

(** A tail that cannot continue an identifier. *)
Definition tail_ok (t : str) : bool :=
  match t with
  | [] => true
  | c :: _ => negb (is_uuid_char c)
  end.

(** The strings of a payload, keys included, in the order of its text. *)
Fixpoint jstrings (j : json) : list str :=
  match j with
  | JStr s => [s]
  | JArr l => flat_map jstrings l
  | JObj kvs => flat_map (fun kv => let '(k, v) := kv in k :: jstrings v) kvs
  | _ => []
  end.

(** [f] where it gives an identifier, the identity elsewhere. *)
Definition total (f : str -> str) (u : str) : str :=
  if bool_decide (is_uuid (f u)) then f u else u.

(** Three identifiers for the examples. *)
Definition id_1 : str := chars "11111111-1111-1111-1111-111111111111".
Definition id_2 : str := chars "22222222-2222-2222-2222-222222222222".



(** *** Notions for the remaining properties *)


(** The characters [filename_safe] keeps. *)
Definition kept_char (c : ascii) : bool :=
  is_word c || is_space c || bool_decide (c = "-"%char).

(** What may follow a value in an indented JSON text. *)
Definition after_item (t : str) : bool :=
  match t with
  | [] => true
  | c :: _ => bool_decide (c ∈ LF :: chars ",]}")
  end.

(** One member of an object in an indented text. *)
Definition member_indent (level : nat) (kv : str * json) : str :=
  let '(k, v) := kv in encode_str k ++ chars ": " ++ dumps_indent level v.

(** A character of a template other than a brace. *)
Definition not_brace (c : ascii) : bool :=
  negb (bool_decide (c = "{"%char)) && negb (bool_decide (c = "}"%char)).

(** The name as [filename_safe] writes it, in lower case. *)
Definition safe_name_lower (name : str) : str := py_lower (map sanitize_char name).

(** The text of the [name] variable without an expression. *)
Definition name_variable : str := chars "{name}".

(** The values of an entry of an iteration, in order. *)
Definition entry_values (e : IndexApiItem.entry) : list json :=
  match e with
  | IndexApiItem.Single v => [v]
  | IndexApiItem.Tuple vs => vs
  end.

(** A character other than an opening brace. *)
Definition not_open_brace (c : ascii) : bool := negb (bool_decide (c = "{"%char)).

(** * Properties *)

(** ** [ApiPath] *)

(** C6: a verb missing from the arguments of [ApiPath] takes the last
    path given: with [get] alone all four verbs share it, with [get] and
    [post] the verbs [put] and [delete] take [post], with three paths
    [delete] takes [put]; the object is the value the constructor
    returns. *)
Theorem api_path_missing_verbs_take_last_given (g p u d : option str) :
  ApiPath.init g [] = Ret (ApiPath.Make g g g g) /\
  ApiPath.init g [p] = Ret (ApiPath.Make g p p p) /\
  ApiPath.init g [p; u] = Ret (ApiPath.Make g p u u) /\
  ApiPath.init g [p; u; d] = Ret (ApiPath.Make g p u d).
Proof. repeat split; reflexivity. Qed.

(** ** [ServerInfo] *)

(** [__getattr__] raises [AttributeError] exactly when the key is absent
    or stored with [None]; every other stored value, falsy or not, is
    returned. *)
Lemma getattr_null_is_missing (data : gmap str json) (item : str) :
  (ServerInfo.getattr data item = Raise AttributeError
   <-> data !! item = None \/ data !! item = Some JNull) /\
  (forall v, data !! item = Some v -> v <> JNull -> ServerInfo.getattr data item = Ret v).
Proof.
  unfold ServerInfo.getattr. destruct (data !! item) as [v|] eqn:E; simpl.
  - split.
    + split.
      * destruct v; intros H; try discriminate H. by right.
      * intros [H|H]; [discriminate H | by inversion H].
    + intros w Hw Hne. inversion Hw; subst. by destruct w.
  - split; [split; auto | intros v Hv; discriminate Hv].
Qed.

(** C10 as stated fails: attribute access finds the attributes of the
    record and of its class before [__getattr__] is asked.  A record
    whose key [store_file] is stored with [None] answers with the file
    name of the class and raises nothing; a record with the key [data]
    answers with its whole dictionary, not with the value stored; a
    record with the key [save] or [__init__] answers with the method. *)
Lemma server_info_access_finds_real_attributes_first :
  (let data : gmap str json := {[ chars "store_file" := JNull ]} in
   data !! chars "store_file" = Some JNull
   /\ ServerInfo.access data (chars "store_file")
      = Ret (ServerInfo.Value (JStr (chars "server_info.json"))))
  /\ (let data : gmap str json := {[ chars "data" := JInt 7 ]} in
      data !! chars "data" = Some (JInt 7)
      /\ ServerInfo.access data (chars "data") = Ret (ServerInfo.Dict data))
  /\ (let data : gmap str json := {[ chars "save" := JInt 1 ]} in
      data !! chars "save" = Some (JInt 1)
      /\ ServerInfo.access data (chars "save") = Ret (ServerInfo.Method (chars "save")))
  /\ (let data : gmap str json := {[ chars "__init__" := JInt 1 ]} in
      data !! chars "__init__" = Some (JInt 1)
      /\ ServerInfo.access data (chars "__init__")
         = Ret (ServerInfo.Method (chars "__init__"))).
Proof.
  cbv zeta. split_and!; (apply lookup_singleton_eq || reflexivity).
Qed.

(** C10, amended: for a key that is none of [data], [root_dir],
    [store_file], [load] and [save] and does not start and end with two
    underscores, attribute access on a [ServerInfo] raises
    [AttributeError] exactly when the key is absent or stored with
    [None]; every other stored value, falsy or not, is returned. *)
Theorem server_info_access_null_is_missing (data : gmap str json) (item : str) :
  item ∉ [chars "data"; chars "root_dir"; chars "store_file"; chars "load"; chars "save"] ->
  ServerInfo.is_dunder item = false ->
  (ServerInfo.access data item = Raise AttributeError
   <-> data !! item = None \/ data !! item = Some JNull) /\
  (forall v, data !! item = Some v -> v <> JNull ->
             ServerInfo.access data item = Ret (ServerInfo.Value v)).
Proof.
  intros Hreal Hdunder.
  assert (E : ServerInfo.access data item
              = (v ← ServerInfo.getattr data item; Ret (ServerInfo.Value v))).
  { unfold ServerInfo.access. rewrite Hdunder.
    repeat match goal with
           | |- context [decide (item = ?n)] =>
               destruct (decide (item = n)) as [-> |]
           end; try done; exfalso; apply Hreal; set_solver. }
  destruct (getattr_null_is_missing data item) as [H1 H2]. rewrite E. split.
  - rewrite <- H1. destruct (ServerInfo.getattr data item) as [v | e |]; cbn; split; congruence.
  - intros v Hv Hne. by rewrite (H2 v Hv Hne).
Qed.

Lemma server_info_access_falsy_witness :
  ServerInfo.access {[ chars "port" := JInt 0 ]} (chars "port")
  = Ret (ServerInfo.Value (JInt 0))
  /\ ServerInfo.access {[ chars "tls" := JBool false ]} (chars "tls")
     = Ret (ServerInfo.Value (JBool false))
  /\ ServerInfo.access {[ chars "tag" := JStr [] ]} (chars "tag")
     = Ret (ServerInfo.Value (JStr [])).
Proof.
  assert (Hn : forall item : str,
             bool_decide (item ∈ [chars "data"; chars "root_dir"; chars "store_file";
                                  chars "load"; chars "save"]) = false ->
             item ∉ [chars "data"; chars "root_dir"; chars "store_file";
                     chars "load"; chars "save"]).
  { intros item H. by apply bool_decide_eq_false in H. }
  split; [| split].
  - apply (server_info_access_null_is_missing _ (chars "port"));
      [apply Hn; reflexivity | reflexivity | apply lookup_singleton_eq | discriminate].
  - apply (server_info_access_null_is_missing _ (chars "tls"));
      [apply Hn; reflexivity | reflexivity | apply lookup_singleton_eq | discriminate].
  - apply (server_info_access_null_is_missing _ (chars "tag"));
      [apply Hn; reflexivity | reflexivity | apply lookup_singleton_eq | discriminate].
Defined.

(** ** [ConfigItem]: file names and [save] *)

(** C9: [get_filename] returns [store_file] as it is, without any
    substitution, as soon as the name or the id is [None]; [save] then
    writes to that very file name. *)
Theorem get_filename_raw_if_name_or_id_absent
    (c : ConfigItem.cls) (ext_name : bool) (item_name item_id : option str) :
  item_name = None \/ item_id = None ->
  ConfigItem.get_filename c ext_name item_name item_id = Ret (ConfigItem.store_file c)
  /\ forall data node_dir st,
       ApiItem.is_empty data = Ret false ->
       ConfigItem.save c data node_dir ext_name item_name item_id st
       = (Ret true,
          write_file
            (ConfigItem.root_dir c :: node_dir :: ConfigItem.store_path c
               ++ [ConfigItem.store_file c])
            (dumps_indent 0 data)
            (mkdir_parents (ConfigItem.root_dir c :: node_dir :: ConfigItem.store_path c) st)).
Proof.
  intros H.
  assert (E : ConfigItem.get_filename c ext_name item_name item_id
              = Ret (ConfigItem.store_file c)).
  { unfold ConfigItem.get_filename. destruct H as [-> | ->]; [done |].
    by destruct item_name. }
  split; [exact E |].
  intros data node_dir st He. unfold ConfigItem.save. by rewrite He, E.
Qed.

Lemma get_filename_raw_witness :
  ConfigItem.get_filename example_cls true (Some (chars "vedge")) None
  = Ret (chars "{item_name}.json").
Proof.
  apply (get_filename_raw_if_name_or_id_absent example_cls true (Some (chars "vedge")) None).
  right. reflexivity.
Defined.

(** C7: [save] on an empty or null payload returns [False] and leaves
    the store as it was (no directory, no file); on a payload that is
    not empty it returns [True] and the file holds the payload's JSON
    text, whatever it held before, the other files being untouched. *)
Theorem save_empty_is_noop_and_nonempty_overwrites
    (c : ConfigItem.cls) (data : json) (node_dir : str) (ext_name : bool)
    (item_name item_id : option str) (st : store) :
  (data = JNull \/ py_len data = Ret 0 ->
   ConfigItem.save c data node_dir ext_name item_name item_id st = (Ret false, st))
  /\
  (forall file,
     ApiItem.is_empty data = Ret false ->
     ConfigItem.get_filename c ext_name item_name item_id = Ret file ->
     let p := ConfigItem.root_dir c :: node_dir :: ConfigItem.store_path c ++ [file] in
     exists st',
       ConfigItem.save c data node_dir ext_name item_name item_id st = (Ret true, st')
       /\ files st' !! p = Some (dumps_indent 0 data)
       /\ forall q, q <> p -> files st' !! q = files st !! q).
Proof.
  split.
  - intros H. unfold ConfigItem.save.
    assert (E : ApiItem.is_empty data = Ret true).
    { destruct H as [-> | H]; [done |].
      unfold ApiItem.is_empty. destruct data; try discriminate H; by rewrite H. }
    by rewrite E.
  - intros file He Hf p. unfold ConfigItem.save. rewrite He, Hf.
    eexists. split; [reflexivity |]. split.
    + simpl. apply lookup_insert_eq.
    + intros q Hq. simpl. by apply lookup_insert_ne.
Qed.

Lemma save_witness :
  ConfigItem.save example_cls (JObj []) (chars "node") false None None (Store ∅ ∅)
  = (Ret false, Store ∅ ∅)
  /\ exists st',
       ConfigItem.save example_cls (JObj [(chars "templateName", JStr (chars "t1"))])
         (chars "node") false None None (Store ∅ {[ [chars "x"] := chars "old" ]})
       = (Ret true, st').
Proof.
  split.
  - apply (proj1 (save_empty_is_noop_and_nonempty_overwrites
                    example_cls (JObj []) (chars "node") false None None (Store ∅ ∅))).
    right. reflexivity.
  - destruct (proj2 (save_empty_is_noop_and_nonempty_overwrites
                       example_cls (JObj [(chars "templateName", JStr (chars "t1"))])
                       (chars "node") false None None
                       (Store ∅ {[ [chars "x"] := chars "old" ]}))
                (chars "{item_name}.json") eq_refl eq_refl) as (st' & H & _).
    exists st'. exact H.
Defined.

(** ** Rename templates *)

(** C1 as stated fails: the first rename does not give [prefix_XYZ]. *)
Lemma rename_prefix_example_not_XYZ :
  ExtendedTemplate.call (chars "prefix_{name (abc)(.*)}") (JStr (chars "abcXYZ"))
  <> Ret (chars "prefix_XYZ").
Proof. vm_compute. discriminate. Qed.

(** C1, amended: the template whose placeholder carries an expression of
    two groups, the literal [abc] and the rest of the name, prefixed by
    [prefix_], applied to [abcXYZ] gives [prefix_abcXYZ], the placeholder
    being replaced by both capture groups joined; applied to [zzz], which
    the expression does not match, it gives [prefix_]. *)
Theorem rename_prefix_example :
  ExtendedTemplate.call (chars "prefix_{name (abc)(.*)}") (JStr (chars "abcXYZ"))
  = Ret (chars "prefix_abcXYZ")
  /\ ExtendedTemplate.call (chars "prefix_{name (abc)(.*)}") (JStr (chars "zzz"))
     = Ret (chars "prefix_").
Proof. split; vm_compute; reflexivity. Qed.

(** ** Comparison of payloads *)

Lemma code_inj (a b : ascii) : code a = code b -> a = b.
Proof.
  unfold code. intros H.
  rewrite <- (ascii_nat_embedding a), <- (ascii_nat_embedding b). by rewrite H.
Qed.

#[local] Instance code_le_total : Total ConfigItem.code_le.
Proof. intros a b. unfold ConfigItem.code_le. lia. Qed.

#[local] Instance code_le_trans : Transitive ConfigItem.code_le.
Proof. intros a b c. unfold ConfigItem.code_le. lia. Qed.

#[local] Instance code_le_antisymm : AntiSymm eq ConfigItem.code_le.
Proof. intros a b. unfold ConfigItem.code_le. intros H1 H2. apply code_inj. lia. Qed.

(** Two strings sort to the same sequence exactly when they hold the
    same characters, each as often. *)
Lemma py_sorted_eq_iff_perm (s t : str) :
  ConfigItem.py_sorted s = ConfigItem.py_sorted t <-> s ≡ₚ t.
Proof.
  unfold ConfigItem.py_sorted. split.
  - intros H. rewrite <- (merge_sort_Permutation ConfigItem.code_le s).
    rewrite H. apply merge_sort_Permutation.
  - intros H. apply (Sorted_unique ConfigItem.code_le).
    + apply Sorted_merge_sort, _.
    + apply Sorted_merge_sort, _.
    + by rewrite !merge_sort_Permutation.
Qed.

(** The dictionary [is_equal] compares holds the members of the payload
    whose key is neither excluded from comparison nor the id key. *)
Lemma cmp_dict_members (c : ConfigItem.cls) (d : list (str * json)) :
  ConfigItem.cmp_dict c d
  = filter (fun kv => (fst kv ∉ ConfigItem.skip_cmp_tag_set c)
                      /\ ConfigItem.id_tag c <> Some (fst kv)) d.
Proof.
  unfold ConfigItem.cmp_dict. apply list_filter_iff. intros [k v]. cbn [fst]. tauto.
Qed.

(** C5: [is_equal] on two payloads of a type is true exactly when the
    payloads, without the member under the id key and without the
    members under the keys excluded from comparison (at the top level:
    the members whose key is neither of them are kept as they are),
    give JSON texts whose sorted characters agree, that is texts with
    the same characters counted with multiplicity.  It is not
    structural equality: two payloads that differ in a value and in the
    id compare equal, while an id key inside a value is compared. *)
Theorem is_equal_compares_sorted_characters (c : ConfigItem.cls) (d o : list (str * json)) :
  (ConfigItem.is_equal c (JObj d) (JObj o) = Ret true
   <-> ConfigItem.py_sorted
         (dumps (JObj (filter (fun kv => (fst kv ∉ ConfigItem.skip_cmp_tag_set c)
                                         /\ ConfigItem.id_tag c <> Some (fst kv)) d)))
       = ConfigItem.py_sorted
           (dumps (JObj (filter (fun kv => (fst kv ∉ ConfigItem.skip_cmp_tag_set c)
                                           /\ ConfigItem.id_tag c <> Some (fst kv)) o))))
  /\ (ConfigItem.is_equal c (JObj d) (JObj o) = Ret true
      <-> dumps (JObj (filter (fun kv => (fst kv ∉ ConfigItem.skip_cmp_tag_set c)
                                         /\ ConfigItem.id_tag c <> Some (fst kv)) d))
          ≡ₚ dumps (JObj (filter (fun kv => (fst kv ∉ ConfigItem.skip_cmp_tag_set c)
                                            /\ ConfigItem.id_tag c <> Some (fst kv)) o)))
  /\ (exists r, ConfigItem.is_equal c (JObj d) (JObj o) = Ret r)
  /\ ConfigItem.is_equal example_cls
       (JObj [(chars "templateId", JStr (chars "1")); (chars "vpn", JInt 12)])
       (JObj [(chars "templateId", JStr (chars "2")); (chars "vpn", JInt 21)])
     = Ret true
  /\ ConfigItem.is_equal example_cls
       (JObj [(chars "sub", JObj [(chars "templateId", JStr (chars "1"))])])
       (JObj [(chars "sub", JObj [(chars "templateId", JStr (chars "2"))])])
     = Ret false.
Proof.
  rewrite <- !cmp_dict_members.
  assert (E : ConfigItem.is_equal c (JObj d) (JObj o) = Ret true
              <-> ConfigItem.py_sorted (dumps (JObj (ConfigItem.cmp_dict c d)))
                  = ConfigItem.py_sorted (dumps (JObj (ConfigItem.cmp_dict c o)))).
  { unfold ConfigItem.is_equal. split.
    - intros H. injection H as H. by apply bool_decide_eq_true in H.
    - intros H. f_equal. by apply bool_decide_eq_true. }
  split; [exact E |]. split; [by rewrite E, py_sorted_eq_iff_perm |].
  split; [eexists; reflexivity |]. split; by vm_compute.
Qed.

(** ** Malformed rename templates *)

Lemma subn_with_no_match {St : Type} (p : re.pattern)
    (repl : St -> re.match_obj -> result (St * str)) (st : St) (s : str) :
  re.search p s = None -> re.subn_with p repl st s = Ret (st, s, 0).
Proof.
  unfold re.search, re.subn_with.
  replace (2 * length s + 2) with (S (2 * length s + 1)) by lia. simpl.
  destruct (re.search_from (re.p_re p) 0 s false) as [[[sk b] s']|] eqn:E; done.
Qed.




(** ** The matcher on one-character repetitions *)

Lemma is_Some_orelse {A} (a b : option A) :
  is_Some (match a with Some r => Some r | None => b end) <-> is_Some a \/ is_Some b.
Proof.
  destruct a; simpl.
  - split; [intros _; left; eauto | intros _; eauto].
  - split; [intros H; by right | intros [H|H]; [by apply is_Some_None in H | done]].
Qed.

Lemma advance_0 s : advance 0 s = s.
Proof. destruct s. unfold advance. simpl. by rewrite Nat.add_0_r. Qed.

Lemma advance_S n pos c rest caps :
  advance (S n) (re.MState pos (c :: rest) caps) = advance n (re.MState (S pos) rest caps).
Proof. unfold advance. simpl. f_equal. lia. Qed.

Lemma le_opt_pred n hi : hi <> Some 0 -> le_opt (S n) hi <-> le_opt n (pred <$> hi).
Proof. destruct hi as [[|h]|]; simpl; intros H; try done; lia. Qed.

Lemma le_opt_0 hi : le_opt 0 hi.
Proof. destruct hi; simpl; lia. Qed.

Lemma rep_step_is_some (p : ascii -> bool) (g : bool) (fuel : nat) :
  forall lo hi k s,
    lo + length (re.m_rest s) < fuel -> le_opt lo hi ->
    is_Some (re.rep_loop (re.step p) g lo hi fuel k s) <->
    exists n, lo <= n /\ le_opt n hi /\ n <= length (re.m_rest s)
              /\ Forall (fun c => p c = true) (take n (re.m_rest s))
              /\ is_Some (k (advance n s)).
Proof.
  induction fuel as [|fuel IH]; intros lo hi k [pos rest caps] Hf Hlo; simpl in *; [lia |].
  destruct lo as [|lo].
  - (* optional rounds *)
    assert (Hzero : forall rest', is_Some (k (re.MState pos rest' caps)) ->
                    exists n, 0 <= n /\ le_opt n hi /\ n <= length rest'
                      /\ Forall (fun c => p c = true) (take n rest')
                      /\ is_Some (k (advance n (re.MState pos rest' caps)))).
    { intros rest' H. exists 0. rewrite advance_0.
      split_and!; [lia | apply le_opt_0 | lia | by rewrite take_0 | done]. }
    destruct (decide (hi = Some 0)) as [-> | Hhi].
    { split; [apply Hzero |].
      intros (n & H1 & H2 & H3 & H4 & H5). simpl in H2.
      assert (n = 0) as -> by lia. by rewrite advance_0 in H5. }
    set (again := fun s' : re.mstate => if re.m_pos s' =? pos then k s'
                        else re.rep_loop (re.step p) g 0 (pred <$> hi) fuel k s').
    assert (Hgoal :
      is_Some (k (re.MState pos rest caps)) \/
      is_Some (re.step p again (re.MState pos rest caps))
      <-> exists n, 0 <= n /\ le_opt n hi /\ n <= length rest
              /\ Forall (fun c => p c = true) (take n rest)
              /\ is_Some (k (advance n (re.MState pos rest caps)))).
    { unfold re.step. cbn [re.m_rest re.m_pos re.m_caps]. destruct rest as [|c rest].
      - split.
        + intros [H | H]; [exact (Hzero _ H) | by apply is_Some_None in H].
        + intros (n & H1 & H2 & H3 & H4 & H5). simpl in H3.
          assert (n = 0) as -> by lia. left. by rewrite advance_0 in H5.
      - destruct (p c) eqn:Epc.
        + unfold again. cbn [re.m_pos].
          rewrite (proj2 (Nat.eqb_neq (S pos) pos)) by lia.
          rewrite (IH 0 (pred <$> hi) k (re.MState (S pos) rest caps)); simpl.
          2: { simpl in Hf. lia. }
          2: { apply le_opt_0. }
          split.
          * intros [H | (n & H1 & H2 & H3 & H4 & H5)]; [exact (Hzero _ H) |].
            exists (S n). rewrite advance_S.
            split_and!; [lia | by apply le_opt_pred | simpl; lia | | done].
            simpl. by constructor.
          * intros (n & H1 & H2 & H3 & H4 & H5). destruct n as [|n].
            -- left. by rewrite advance_0 in H5.
            -- right. exists n. rewrite advance_S in H5. simpl in H4, H3.
               apply Forall_cons in H4 as [_ H4].
               split_and!; [lia | by apply le_opt_pred | lia | done | done].
        + split.
          * intros [H | H]; [exact (Hzero _ H) | by apply is_Some_None in H].
          * intros (n & H1 & H2 & H3 & H4 & H5). destruct n as [|n].
            -- left. by rewrite advance_0 in H5.
            -- simpl in H4. apply Forall_cons in H4 as [H4 _]. congruence. }
    rewrite <- Hgoal. fold again.
    destruct hi as [[|h]|]; try done; destruct g; rewrite is_Some_orelse; tauto.
  - (* a mandatory round *)
    unfold re.step at 1. simpl. destruct rest as [|c rest].
    + split; [intros H; by apply is_Some_None in H |].
      intros (n & H1 & _ & H3 & _). simpl in H3. lia.
    + assert (Hhi : hi <> Some 0) by (destruct hi as [[|]|]; simpl in *; try done; lia).
      destruct (p c) eqn:Epc.
      * rewrite (IH lo (pred <$> hi) k (re.MState (S pos) rest caps)); simpl.
        2: { simpl in Hf. lia. }
        2: { destruct hi as [[|]|]; simpl in *; lia. }
        split.
        -- intros (n & H1 & H2 & H3 & H4 & H5). exists (S n). rewrite advance_S.
           split_and!; [lia | by apply le_opt_pred | simpl; lia | | done].
           simpl. by constructor.
        -- intros (n & H1 & H2 & H3 & H4 & H5). destruct n as [|n]; [lia |].
           exists n. rewrite advance_S in H5. simpl in H4, H3.
           apply Forall_cons in H4 as [_ H4].
           split_and!; [lia | by apply le_opt_pred | lia | done | done].
      * split; [intros H; by apply is_Some_None in H |].
        intros (n & H1 & _ & _ & H4 & _). destruct n as [|n]; [lia |].
        simpl in H4. apply Forall_cons in H4 as [H4 _]. congruence.
Qed.

Lemma eol_is_some (k : re.cont) (s : re.mstate) :
  is_Some (re.rmatch re.REol k s)
  <-> (re.m_rest s = [] \/ re.m_rest s = [LF]) /\ is_Some (k s).
Proof.
  simpl. destruct (re.m_rest s) as [|c [|c' rest]]; simpl.
  - split; [intros H; split; auto | intros [_ H]; done].
  - case_bool_decide as Hc.
    + subst c. split; [intros H; split; auto | intros [_ H]; done].
    + split; [intros H; by apply is_Some_None in H |].
      intros [[H | H] _]; [discriminate H | injection H as ->; done].
  - split; [intros H; by apply is_Some_None in H |].
    intros [[H | H] _]; discriminate H.
Qed.

Lemma name_check_regex_eq :
  re.p_re ConfigItem.name_check_regex
  = re.RSeq (re.RLook true (re.RSeq re.RBol
               (re.RSeq (re.RRep true 1 (Some 128) re.RAny) re.REol)))
      (re.RSeq (re.RRep true 1 None (re.RSet true name_check_set)) re.REol).
Proof. reflexivity. Qed.

Lemma name_check_set_excluded (c : ascii) :
  re.set_matches true name_check_set c = negb (excluded_name_char c).
Proof.
  destruct c as [[] [] [] [] [] [] [] []]; vm_compute; reflexivity.
Qed.

Lemma name_check_lookahead (s : str) (caps : list (nat * (nat * nat))) :
  is_Some (re.rmatch (re.RSeq re.RBol (re.RSeq (re.RRep true 1 (Some 128) re.RAny) re.REol))
             Some (re.MState 0 s caps)) <-> look_ok s.
Proof.
  cbn [re.rmatch re.m_pos re.m_rest Nat.eqb].
  change (re.rmatch re.RAny) with (re.step not_lf).
  rewrite rep_step_is_some; cbn [re.m_rest]; [| lia | simpl; lia].
  unfold look_ok. split.
  - intros (n & H1 & H2 & H3 & H4 & H5). exists n. simpl in H2.
    apply eol_is_some in H5 as [H5 _]. simpl in H5. by split_and!; try lia.
  - intros (n & H1 & H2 & H3 & H4). exists n. split_and!; try done; try lia.
    + simpl. lia.
    + apply eol_is_some. split; [exact H4 | done].
Qed.

Lemma name_check_body (s : str) (pos : nat) (caps : list (nat * (nat * nat))) :
  is_Some (re.rmatch (re.RSeq (re.RRep true 1 None (re.RSet true name_check_set)) re.REol)
             Some (re.MState pos s caps)) <-> body_ok s.
Proof.
  cbn [re.rmatch re.m_pos re.m_rest].
  change (re.rmatch (re.RSet true name_check_set))
    with (re.step (re.set_matches true name_check_set)).
  rewrite rep_step_is_some; cbn [re.m_rest]; [| lia | done].
  unfold body_ok. split.
  - intros (n & H1 & H2 & H3 & H4 & H5). exists n.
    apply eol_is_some in H5 as [H5 _]. simpl in H5. split_and!; try done.
    eapply Forall_impl; [exact H4 |]. intros c Hc. cbv beta in Hc.
    rewrite name_check_set_excluded in Hc. by destruct (excluded_name_char c).
  - intros (n & H1 & H2 & H3 & H4). exists n. split_and!; try done.
    + eapply Forall_impl; [exact H3 |]. intros c Hc. cbv beta.
      rewrite name_check_set_excluded. by rewrite Hc.
    + apply eol_is_some. split; [exact H4 | done].
Qed.

Lemma name_check_not_at_start (rest : str) :
  forall pos adv, re.search_from (re.p_re ConfigItem.name_check_regex) (S pos) rest adv = None.
Proof.
  rewrite name_check_regex_eq.
  induction rest as [|c rest IH]; intros pos adv.
  - reflexivity.
  - cbn [re.search_from]. rewrite IH.
    cbn [re.rmatch re.m_pos Nat.eqb]. reflexivity.
Qed.

Lemma rmatch_seq (a b : re.regex) (k : re.cont) (s : re.mstate) :
  re.rmatch (re.RSeq a b) k s = re.rmatch a (re.rmatch b k) s.
Proof. reflexivity. Qed.

Lemma look_is_some (l : re.regex) (k : re.cont) (s : re.mstate) :
  is_Some (re.rmatch (re.RLook true l) k s)
  <-> exists s1, re.rmatch l Some s = Some s1
                 /\ is_Some (k (re.MState (re.m_pos s) (re.m_rest s) (re.m_caps s1))).
Proof.
  cbn [re.rmatch]. destruct (re.rmatch l Some s) as [s1|].
  - split; [intros H; eauto | intros (s2 & [= <-] & H); done].
  - split; [intros H; by apply is_Some_None in H | intros (s2 & H & _); discriminate H].
Qed.

Lemma name_check_at_start (s : str) :
  is_Some (re.rmatch (re.p_re ConfigItem.name_check_regex) Some (re.MState 0 s []))
  <-> look_ok s /\ body_ok s.
Proof.
  rewrite name_check_regex_eq, rmatch_seq, look_is_some. cbn [re.m_pos re.m_rest].
  split.
  - intros (s1 & H1 & H2). split.
    + apply (name_check_lookahead s []). rewrite H1. eauto.
    + by apply name_check_body in H2.
  - intros [Hl Hb]. apply (name_check_lookahead s []) in Hl as [s1 H1].
    exists s1. split; [exact H1 |]. by apply name_check_body.
Qed.

Lemma name_check_search (s : str) :
  is_Some (re.search ConfigItem.name_check_regex s) <-> look_ok s /\ body_ok s.
Proof.
  rewrite <- name_check_at_start. unfold re.search.
  assert (Hs : re.search_from (re.p_re ConfigItem.name_check_regex) 0 s false
      = match re.rmatch (re.p_re ConfigItem.name_check_regex) Some (re.MState 0 s []) with
        | Some s1 => Some ([], 0, s1)
        | None => None
        end).
  { destruct s as [|c s'].
    - cbn [re.search_from andb].
      change (fun s' : re.mstate => Some s') with (@Some re.mstate).
      by destruct (re.rmatch _ _ _).
    - cbn [re.search_from andb]. rewrite name_check_not_at_start.
      change (fun s' : re.mstate => Some s') with (@Some re.mstate).
      by destruct (re.rmatch _ _ _). }
  rewrite Hs. destruct (re.rmatch _ _ _) as [s1|].
  - split; eauto.
  - split; intros H; by apply is_Some_None in H.
Qed.

(** ** The validity flag of [get_new_name] *)

Lemma at_eol_no_lf (s : str) (n : nat) :
  LF ∉ s -> n <= length s -> at_eol (drop n s) -> n = length s.
Proof.
  intros Hlf Hn [H | H].
  - apply (f_equal length) in H. rewrite length_drop in H. simpl in H. lia.
  - exfalso. apply Hlf. rewrite <- (take_drop n s), H. set_solver.
Qed.

Lemma name_check_no_lf (s : str) : LF ∉ s -> (look_ok s /\ body_ok s <-> name_ok s).
Proof.
  intros Hlf. unfold look_ok, body_ok, name_ok. split.
  - intros [(n & H1 & H2 & H3 & H4) (m & G1 & G2 & G3 & G4)].
    apply (at_eol_no_lf s n Hlf H2) in H4. apply (at_eol_no_lf s m Hlf G2) in G4.
    subst. rewrite firstn_all in G3. split; [lia | done].
  - intros [H1 H2]. split.
    + exists (length s). rewrite firstn_all, drop_all. split_and!; try lia; [| by left].
      apply Forall_forall. intros c Hc. unfold not_lf.
      case_bool_decide as E; [subst c; done | done].
    + exists (length s). rewrite firstn_all, drop_all. split_and!; try lia; [done | by left].
Qed.

(** The flag in full: the name matches [name_check_regex] when some
    prefix of 1 to 128 characters without a line feed, and some prefix
    without an excluded character, each reach the end of the name or
    its final line feed. *)
Lemma get_new_name_flag (c : ConfigItem.cls) (data : json) (name_template : str)
    (new_name : option str) (valid : bool) :
  ConfigItem.get_new_name c data name_template = Ret (new_name, valid) ->
  valid = true <-> exists s, new_name = Some s /\ look_ok s /\ body_ok s.
Proof.
  unfold ConfigItem.get_new_name.
  destruct (_ ← getitem data (ConfigItem.name_tag c); _) as [s | e |]; [| | done].
  - intros [= <- <-]. rewrite bool_decide_eq_true, name_check_search. split.
    + intros H. by exists s.
    + by intros (s' & [= <-] & H).
  - destruct e; try done. intros [= <- <-]. split; [done |].
    by intros (s & H & _).
Qed.

(** C3 as stated fails on a name with a line feed inside: the name has
    three characters, none of them excluded, and is not valid. *)
Lemma get_new_name_flag_fails_on_line_feed :
  let name := chars "a" ++ [LF] ++ chars "b" in
  ConfigItem.get_new_name example_cls (JObj [(chars "templateName", JStr name)])
    (chars "{name}") = Ret (Some name, false)
  /\ name_ok name.
Proof.
  split; [vm_compute; reflexivity |].
  split; [simpl; lia |]. repeat constructor.
Qed.

(** C3, amended: when the new name [get_new_name] produces holds no
    line feed, the flag is true if and only if the name has 1 to 128
    characters and none of [&], [<], [>], [!], the double quote and the
    space; no name ([None]) is never valid. *)
Theorem get_new_name_flag_without_line_feed
    (c : ConfigItem.cls) (data : json) (name_template : str)
    (new_name : option str) (valid : bool) :
  ConfigItem.get_new_name c data name_template = Ret (new_name, valid) ->
  (forall s, new_name = Some s -> LF ∉ s) ->
  valid = true <-> exists s, new_name = Some s /\ name_ok s.
Proof.
  intros H Hlf. rewrite (get_new_name_flag _ _ _ _ _ H). split.
  - intros (s & -> & Hs). exists s. split; [done |].
    by apply name_check_no_lf; [apply Hlf |].
  - intros (s & -> & Hs). exists s. split; [done |].
    by apply name_check_no_lf; [apply Hlf |].
Qed.

Lemma get_new_name_flag_witness :
  exists s, Some (chars "new_branch") = Some s /\ name_ok s.
Proof.
  apply (get_new_name_flag_without_line_feed example_cls
           (JObj [(chars "templateName", JStr (chars "branch"))]) (chars "new_{name}")
           (Some (chars "new_branch")) true).
  - vm_compute. reflexivity.
  - intros s [= <-]. vm_compute. intros H.
    repeat (apply elem_of_cons in H as [H | H]; [discriminate H |]).
    by apply elem_of_nil in H.
  - reflexivity.
Defined.

(** ** [filename_safe] *)

Section single_character_pattern.
Variable r : re.regex.
Variable p : ascii -> bool.
Hypothesis Hr : forall k s, re.rmatch r k s = re.step p k s.

Lemma search_from_single (rest : str) :
  forall pos adv,
    match re.search_from r pos rest adv with
    | None => Forall (fun c => p c = false) rest
    | Some (sk, b, s') =>
        exists c tail, rest = sk ++ c :: tail /\ Forall (fun c => p c = false) sk
                       /\ p c = true /\ re.m_rest s' = tail
    end.
Proof using Hr.
  induction rest as [|c rest IH]; intros pos adv; cbn [re.search_from]; rewrite Hr;
    unfold re.step; cbn [re.m_rest re.m_pos re.m_caps].
  - constructor.
  - destruct (p c) eqn:Ec.
    + rewrite (proj2 (Nat.eqb_neq (S pos) pos)) by lia. rewrite andb_false_r.
      exists c, rest. by split_and!.
    + specialize (IH (S pos) false).
      destruct (re.search_from r (S pos) rest false) as [[[sk b] s']|].
      * destruct IH as (c' & tail & -> & H1 & H2 & H3).
        exists c', tail. split_and!; try done. by constructor.
      * by constructor.
Qed.

Lemma flat_map_unmatched (repl : str) (s : str) :
  Forall (fun c => p c = false) s -> flat_map (fun c => if p c then repl else [c]) s = s.
Proof.
  induction 1 as [|c s Hc _ IH]; [done |]. simpl. by rewrite Hc, IH.
Qed.

Lemma subn_loop_single (cb : unit -> re.match_obj -> result (unit * str)) (repl : str)
    (subject : str) :
  (forall st m, cb st m = Ret (tt, repl)) ->
  forall fuel rest pos adv out n,
    length rest < fuel ->
    exists n',
      re.subn_loop fuel r cb subject pos rest adv tt out n
      = Ret (tt, out ++ flat_map (fun c => if p c then repl else [c]) rest, n').
Proof using Hr.
  intros Hcb. induction fuel as [|fuel IH]; intros rest pos adv out n Hf; [lia |].
  cbn [re.subn_loop]. pose proof (search_from_single rest pos adv) as Hs.
  destruct (re.search_from r pos rest adv) as [[[sk b] s']|].
  - destruct Hs as (c & tail & -> & H1 & H2 & H3). rewrite Hcb. simpl.
    destruct (IH (re.m_rest s') (re.m_pos s') (re.m_pos s' =? b) (out ++ sk ++ repl) (S n))
      as [n' ->].
    { rewrite H3. rewrite length_app in Hf. simpl in Hf. lia. }
    exists n'. do 2 f_equal. rewrite flat_map_app. simpl.
    rewrite (flat_map_unmatched repl sk H1), H2, H3. by rewrite <- !app_assoc.
  - exists n. by rewrite (flat_map_unmatched repl rest Hs).
Qed.

End single_character_pattern.

Lemma filename_safe_set (c : ascii) :
  re.set_matches true [re.CWord false; re.CSpace false; re.CChar "-"%char] c
  = negb (is_word c || is_space c || bool_decide (c = "-"%char)).
Proof.
  unfold re.set_matches. simpl.
  by destruct (is_word c), (is_space c), (bool_decide (c = "-"%char)).
Qed.

(** [filename_safe] always returns: every character that is neither a
    word character, nor white space, nor the hyphen becomes ['_']. *)
Lemma filename_safe_is_map (name : str) (lower : bool) :
  filename_safe name lower
  = Ret (if lower then py_lower (map sanitize_char name) else map sanitize_char name).
Proof.
  unfold filename_safe, re.sub, re.subn, re.subn_with.
  destruct (subn_loop_single (re.p_re filename_safe_pattern)
              (re.set_matches true [re.CWord false; re.CSpace false; re.CChar "-"%char])
              (fun k s => eq_refl)
              (fun (_ : unit) m => Ret (tt, re.expand [re.Lit (chars "_")] m))
              (chars "_") name (fun st m => eq_refl)
              (2 * length name + 2) name 0 false [] 0) as [n' ->]; [lia |].
  assert (E : flat_map (fun c => if re.set_matches true
                 [re.CWord false; re.CSpace false; re.CChar "-"%char] c
               then chars "_" else [c]) name = map sanitize_char name).
  { induction name as [|c name IH]; [done |]. cbn [flat_map map]. rewrite IH.
    rewrite filename_safe_set. unfold sanitize_char.
    by destruct (is_word c || is_space c || bool_decide (c = "-"%char)). }
  rewrite E. reflexivity.
Qed.

(** C4: the sanitizer replaces by ['_'] every character that is not a
    word character, white space or the hyphen, and never fails; but its
    result is not confined to [A-Za-z0-9_ -], as the docstring has it:
    a tab is white space and is kept. *)
Theorem filename_safe_keeps_tab :
  (forall name, filename_safe name false = Ret (map sanitize_char name))
  /\ filename_safe ("a"%char :: TAB :: chars "b") false = Ret ("a"%char :: TAB :: chars "b")
  /\ in_safe_set TAB = false.
Proof.
  split; [intros name; apply filename_safe_is_map |].
  split; [rewrite filename_safe_is_map |]; by vm_compute.
Qed.

(** ** Identifier rewriting: the substitution on a text *)

Lemma strip_drop p n : forall s r, strip p n s = Some r -> r = drop n s /\ n <= length s
  /\ Forall (fun c => p c = true) (take n s).
Proof.
  induction n as [|n IH]; intros s r H; simpl in H.
  - injection H as <-. rewrite drop_0, take_0. split_and!; [done | lia | constructor].
  - destruct s as [|c s]; [discriminate H |]. destruct (p c) eqn:E; [| discriminate H].
    apply IH in H as (-> & H1 & H2). simpl. split_and!; [done | lia | by constructor].
Qed.

Lemma strip_ext p q n : (forall c, p c = q c) -> forall s, strip p n s = strip q n s.
Proof.
  intros H. induction n as [|n IH]; intros s; simpl; [done |].
  destruct s as [|c s]; [done |]. rewrite H. destruct (q c); [apply IH | done].
Qed.

Lemma strip_app p n : forall s t r, strip p n s = Some r -> strip p n (s ++ t) = Some (r ++ t).
Proof.
  induction n as [|n IH]; intros s t r H; simpl in *.
  - by injection H as <-.
  - destruct s as [|c s]; [discriminate H |]. simpl. destruct (p c); [by apply IH | done].
Qed.

(** Exactly [n] rounds of a one-character body. *)
Lemma rep_step_exact (p : ascii -> bool) (g : bool) (n : nat) :
  forall fuel k pos rest caps,
    n < fuel ->
    re.rep_loop (re.step p) g n (Some n) fuel k (re.MState pos rest caps)
    = match strip p n rest with
      | Some r => k (re.MState (pos + n) r caps)
      | None => None
      end.
Proof.
  induction n as [|n IH]; intros fuel k pos rest caps Hf.
  - destruct fuel as [|fuel]; [lia |]. simpl. by rewrite Nat.add_0_r.
  - destruct fuel as [|fuel]; [lia |]. cbn [re.rep_loop fmap option_fmap option_map pred].
    unfold re.step at 1. cbn [re.m_rest re.m_pos re.m_caps strip].
    destruct rest as [|c rest]; [done |]. destruct (p c); [| done].
    rewrite IH by lia. by replace (S pos + n) with (pos + S n) by lia.
Qed.

Lemma rmatch_rep_set (n : nat) (items : list re.cset_item) (k : re.cont)
    (pos : nat) (rest : str) (caps : list (nat * (nat * nat))) :
  re.rmatch (re.RRep true n (Some n) (re.RSet false items)) k (re.MState pos rest caps)
  = match strip (re.set_matches false items) n rest with
    | Some r => k (re.MState (pos + n) r caps)
    | None => None
    end.
Proof.
  cbn [re.rmatch re.m_rest].
  change (re.rmatch (re.RSet false items)) with (re.step (re.set_matches false items)).
  apply rep_step_exact. lia.
Qed.

Lemma rmatch_char (c : ascii) (k : re.cont)
    (pos : nat) (rest : str) (caps : list (nat * (nat * nat))) :
  re.rmatch (re.RChar c) k (re.MState pos rest caps)
  = match strip (fun x => bool_decide (x = c)) 1 rest with
    | Some r => k (re.MState (pos + 1) r caps)
    | None => None
    end.
Proof.
  cbn [re.rmatch]. unfold re.step. cbn [re.m_rest re.m_pos re.m_caps strip].
  destruct rest as [|x rest]; [done |]. destruct (bool_decide (x = c)); [| done].
  by rewrite Nat.add_1_r.
Qed.

Lemma hex_set_is_hex (c : ascii) : re.set_matches false hex_set c = is_hex c.
Proof.
  unfold re.set_matches, hex_set, is_hex, is_digit. simpl.
  unfold code. simpl. by rewrite orb_false_r.
Qed.

Lemma rmatch_uuid (k : re.cont) (pos : nat) (rest : str) (caps : list (nat * (nat * nat))) :
  re.rmatch (re.p_re uuid_pattern) k (re.MState pos rest caps)
  = match uuid_rest rest with
    | Some r => k (re.MState (pos + 36) r caps)
    | None => None
    end.
Proof.
  change (re.p_re uuid_pattern) with
    (re.RSeq (re.RRep true 8 (Some 8) (re.RSet false hex_set))
       (re.RSeq (re.RChar "-")
          (re.RSeq (re.RRep true 4 (Some 4) (re.RSet false hex_set))
             (re.RSeq (re.RChar "-")
                (re.RSeq (re.RRep true 4 (Some 4) (re.RSet false hex_set))
                   (re.RSeq (re.RChar "-")
                      (re.RSeq (re.RRep true 4 (Some 4) (re.RSet false hex_set))
                         (re.RSeq (re.RChar "-")
                            (re.RRep true 12 (Some 12) (re.RSet false hex_set)))))))))).
  unfold uuid_rest, dash.
  repeat first
    [ rewrite rmatch_seq
    | rewrite rmatch_rep_set, (strip_ext _ _ _ hex_set_is_hex);
      destruct (strip is_hex _ _) as [?r|]; cbn [mbind option_bind]; [| done]
    | rewrite rmatch_char;
      destruct (strip (fun x => bool_decide (x = "-"%char)) 1 _) as [?r|];
      cbn [mbind option_bind]; [| done] ].
  do 2 f_equal. lia.
Qed.

Lemma search_from_uuid (rest : str) :
  forall pos adv, re.search_from (re.p_re uuid_pattern) pos rest adv = uuid_find pos rest.
Proof.
  induction rest as [|c rest IH]; intros pos adv.
  - cbn [re.search_from uuid_find]. by rewrite rmatch_uuid.
  - cbn [re.search_from uuid_find]. rewrite rmatch_uuid.
    destruct (uuid_rest (c :: rest)) as [r|].
    + cbn [re.m_pos]. rewrite (proj2 (Nat.eqb_neq (pos + 36) pos)) by lia.
      by rewrite andb_false_r.
    + by rewrite IH.
Qed.

Lemma uuid_rest_drop (s r : str) :
  uuid_rest s = Some r -> r = drop 36 s /\ 36 <= length s.
Proof.
  unfold uuid_rest, dash. intros H.
  repeat match type of H with
  | (mbind _ (strip ?p ?n ?x)) = _ =>
      let E := fresh "E" in
      destruct (strip p n x) as [?s|] eqn:E; cbn [mbind option_bind] in H;
      [apply strip_drop in E as (-> & ? & _) | discriminate H]
  end.
  apply strip_drop in H as (-> & ? & _).
  rewrite !drop_drop in *. rewrite !length_drop in *. simpl. split; [done | lia].
Qed.

Lemma is_uuid_at_length (s : str) : is_uuid_at s = true -> 36 <= length s.
Proof.
  unfold is_uuid_at. rewrite bool_decide_eq_true. intros [r H].
  by apply uuid_rest_drop in H as [_ H].
Qed.

Lemma tokens_skip (s : str) : forall k, k <= length s -> tokens k s = tokens 0 (drop k s).
Proof.
  induction s as [|c s IH]; intros k Hk.
  - by destruct k.
  - destruct k as [|k]; [done |]. simpl in Hk. cbn [tokens drop]. apply IH. lia.
Qed.

Lemma tokens_match (s : str) :
  is_uuid_at s = true -> tokens 0 s = TId (take 36 s) :: tokens 0 (drop 36 s).
Proof.
  intros H. pose proof (is_uuid_at_length s H) as Hl.
  destruct s as [|c s]; [simpl in Hl; lia |].
  cbn [tokens]. rewrite H. f_equal. simpl in Hl. rewrite tokens_skip by lia. done.
Qed.

Lemma tokens_nomatch (c : ascii) (s : str) :
  is_uuid_at (c :: s) = false -> tokens 0 (c :: s) = TChr c :: tokens 0 s.
Proof. intros H. cbn [tokens]. by rewrite H. Qed.

(** Induction along the tokens of a text. *)
Lemma tokens_ind (P : str -> Prop) :
  P [] ->
  (forall s, is_uuid_at s = true -> P (drop 36 s) -> P s) ->
  (forall c s, is_uuid_at (c :: s) = false -> P s -> P (c :: s)) ->
  forall s, P s.
Proof.
  intros Hnil Hm Hc s.
  remember (length s) as n eqn:En. revert s En.
  induction n as [n IH] using lt_wf_ind. intros s ->.
  destruct s as [|c s]; [done |].
  destruct (is_uuid_at (c :: s)) eqn:E.
  - apply Hm; [done |]. pose proof (is_uuid_at_length _ E) as Hl.
    eapply IH; [| reflexivity]. rewrite length_drop. simpl in *. lia.
  - apply Hc; [done |]. eapply IH; [| reflexivity]. simpl. lia.
Qed.

Lemma uuid_find_spec (rest : str) :
  forall pos,
    match uuid_find pos rest with
    | None => tokens 0 rest = map TChr rest
    | Some (sk, b, s') =>
        exists tail, rest = sk ++ tail /\ is_uuid_at tail = true /\ b = pos + length sk
                     /\ s' = re.MState (b + 36) (drop 36 tail) []
                     /\ tokens 0 rest = (map TChr sk) ++ tokens 0 tail
    end.
Proof.
  induction rest as [|c rest IH]; intros pos; cbn [uuid_find]; [done |].
  destruct (uuid_rest (c :: rest)) as [r|] eqn:E.
  - exists (c :: rest). apply uuid_rest_drop in E as E'. destruct E' as [-> _].
    split_and!; try done.
    all: try (unfold is_uuid_at; rewrite E; by apply bool_decide_eq_true).
    all: try (simpl; lia).
    all: try (f_equal; simpl; lia).
  - assert (Hn : is_uuid_at (c :: rest) = false).
    { unfold is_uuid_at. rewrite E. apply bool_decide_eq_false. by intros [? ?]. }
    specialize (IH (S pos)). destruct (uuid_find (S pos) rest) as [[[sk b] s']|].
    + destruct IH as (tail & -> & H1 & -> & -> & H4). exists tail.
      split_and!; try done.
      all: try (simpl; lia).
      all: try (rewrite tokens_nomatch by done; by rewrite H4).
    + rewrite tokens_nomatch by done. by rewrite IH.
Qed.

Lemma flat_map_chars (f : str -> str) (s : str) : flat_map (tok_text f) (map TChr s) = s.
Proof. induction s as [|c s IH]; [done |]. simpl. by rewrite IH. Qed.

Lemma tok_ids_chars (s : str) : tok_ids (map TChr s) = [].
Proof. induction s as [|c s IH]; [done |]. simpl. by rewrite IH. Qed.

Lemma tok_ids_app (a b : list token) : tok_ids (a ++ b) = tok_ids a ++ tok_ids b.
Proof.
  induction a as [|[u|c] a IH]; [done | |]; simpl; by rewrite IH.
Qed.

Lemma scan_at_match (f : str -> str) (sk tail : str) :
  is_uuid_at tail = true ->
  tokens 0 (sk ++ tail) = (map TChr sk) ++ tokens 0 tail ->
  scan f (sk ++ tail) = sk ++ f (take 36 tail) ++ scan f (drop 36 tail).
Proof.
  intros H Ht. unfold scan. rewrite Ht, flat_map_app, flat_map_chars.
  by rewrite (tokens_match tail H).
Qed.

Lemma subn_loop_uuid (m : gmap str str) (subject : str) :
  forall fuel rest pos adv out n,
    drop pos subject = rest -> length rest < fuel ->
    exists n',
      re.subn_loop fuel (re.p_re uuid_pattern)
        (fun (_ : unit) mo => Ret (tt, replace_id m mo)) subject pos rest adv tt out n
      = Ret (tt, out ++ scan (mapped m) rest, n').
Proof.
  induction fuel as [|fuel IH]; intros rest pos adv out n Hd Hf; [lia |].
  cbn [re.subn_loop]. rewrite search_from_uuid.
  pose proof (uuid_find_spec rest pos) as Hs.
  destruct (uuid_find pos rest) as [[[sk b] s']|].
  - destruct Hs as (tail & -> & H1 & -> & -> & H4).
    pose proof (is_uuid_at_length _ H1) as Hl.
    assert (Hb : drop (pos + length sk) subject = tail).
    { rewrite <- drop_drop, Hd. apply drop_app_length. }
    assert (Hr : replace_id m (re.Match subject (pos + length sk)
                   (re.m_pos (re.MState (pos + length sk + 36) (drop 36 tail) []))
                   (re.m_caps (re.MState (pos + length sk + 36) (drop 36 tail) [])))
                 = mapped m (take 36 tail)).
    { unfold replace_id, re.group, re.slice. cbn [re.mo_start re.mo_end re.mo_string re.m_pos].
      rewrite Hb. replace (pos + length sk + 36 - (pos + length sk)) with 36 by lia.
      reflexivity. }
    rewrite Hr. cbn [mbind result_bind re.m_pos re.m_rest].
    destruct (IH (drop 36 tail) (pos + length sk + 36)
                (pos + length sk + 36 =? pos + length sk)
                (out ++ sk ++ mapped m (take 36 tail)) (S n)) as [n' ->].
    { rewrite <- drop_drop. by rewrite Hb. }
    { rewrite length_drop. rewrite length_app in Hf. lia. }
    exists n'. do 2 f_equal. rewrite (scan_at_match _ _ _ H1 H4). by rewrite <- !app_assoc.
  - exists n. unfold scan. by rewrite Hs, flat_map_chars.
Qed.

(** The substitution of [update_ids] on a text. *)
Lemma sub_uuid_is_scan (m : gmap str str) (s : str) :
  re.sub_fun uuid_pattern (replace_id m) s = Ret (scan (mapped m) s).
Proof.
  unfold re.sub_fun, re.subn_with.
  destruct (subn_loop_uuid m s (2 * length s + 2) s 0 false [] 0) as [n' ->];
    [done | lia | done].
Qed.

Lemma findall_loop_uuid (subject : str) :
  forall fuel rest pos adv,
    drop pos subject = rest -> length rest < fuel ->
    re.findall_loop fuel (re.p_re uuid_pattern) subject pos rest adv = matches rest.
Proof.
  induction fuel as [|fuel IH]; intros rest pos adv Hd Hf; [lia |].
  cbn [re.findall_loop]. rewrite search_from_uuid.
  pose proof (uuid_find_spec rest pos) as Hs.
  destruct (uuid_find pos rest) as [[[sk b] s']|].
  - destruct Hs as (tail & -> & H1 & -> & -> & H4).
    pose proof (is_uuid_at_length _ H1) as Hl.
    assert (Hb : drop (pos + length sk) subject = tail).
    { rewrite <- drop_drop, Hd. apply drop_app_length. }
    cbn [re.m_pos re.m_rest]. rewrite IH.
    + unfold matches, re.slice. rewrite H4, tok_ids_app, tok_ids_chars, (tokens_match tail H1).
      cbn [tok_ids app]. rewrite Hb.
      by replace (pos + length sk + 36 - (pos + length sk)) with 36 by lia.
    + rewrite <- drop_drop. by rewrite Hb.
    + rewrite length_drop. rewrite length_app in Hf. lia.
  - unfold matches. by rewrite Hs, tok_ids_chars.
Qed.

Lemma findall_uuid_is_matches (s : str) : re.findall uuid_pattern s = matches s.
Proof. unfold re.findall. apply findall_loop_uuid; [done | lia]. Qed.

(** *** Prefix patterns *)

Lemma strip_is_pat (p : ascii -> bool) (n : nat) (s : str) :
  strip p n s = strip_pat (repeat p n) s.
Proof.
  revert s. induction n as [|n IH]; intros s; [done |]. simpl.
  destruct s as [|c s]; [done |]. by rewrite IH.
Qed.

Lemma strip_pat_app (p1 p2 : list (ascii -> bool)) (s : str) :
  strip_pat (p1 ++ p2) s = strip_pat p1 s ≫= strip_pat p2.
Proof.
  revert s. induction p1 as [|p p1 IH]; intros s; [done |]. simpl.
  destruct s as [|c s]; [done |]. destruct (p c); [apply IH | done].
Qed.

Lemma uuid_rest_is_pat (s : str) : uuid_rest s = strip_pat uuid_pat s.
Proof.
  unfold uuid_rest, dash, uuid_pat.
  repeat (rewrite strip_pat_app, strip_is_pat;
          try change (repeat (fun c : ascii => bool_decide (c = "-"%char)) 1) with [is_dash];
          match goal with
          | |- mbind _ (strip_pat ?p ?x) = _ =>
              destruct (strip_pat p x); cbn [mbind option_bind]; [| done]
          end).
  apply strip_is_pat.
Qed.

Lemma strip_pat_drop (pat : list (ascii -> bool)) :
  forall s r, strip_pat pat s = Some r -> r = drop (length pat) s /\ length pat <= length s.
Proof.
  induction pat as [|p pat IH]; intros s r H; simpl in H.
  - injection H as <-. split; [done | simpl; lia].
  - destruct s as [|c s]; [done |]. destruct (p c); [| done].
    apply IH in H as [-> H]. split; [done | simpl; lia].
Qed.

Lemma strip_pat_app_le (pat : list (ascii -> bool)) (b : str) :
  forall a, length pat <= length a ->
            strip_pat pat (a ++ b) = (fun r => r ++ b) <$> strip_pat pat a.
Proof.
  induction pat as [|p pat IH]; intros a Hl; [done |].
  destruct a as [|x a]; [simpl in Hl; lia |]. simpl.
  destruct (p x); [| done]. apply IH. simpl in Hl. lia.
Qed.

Lemma strip_pat_sep (pat : list (ascii -> bool)) (c : ascii) (b : str) :
  Forall (fun p => p c = false) pat ->
  forall a, is_Some (strip_pat pat (a ++ c :: b)) <-> is_Some (strip_pat pat a).
Proof.
  induction 1 as [|p pat Hp _ IH]; intros a.
  - simpl. split; eauto.
  - destruct a as [|x a]; simpl.
    + rewrite Hp. done.
    + destruct (p x); [apply IH | done].
Qed.

Lemma strip_pat_shape (pat : list (ascii -> bool)) :
  Forall (fun p => forall x y, cls x = cls y -> p x = p y) pat ->
  forall s t, shape s = shape t ->
              is_Some (strip_pat pat s) <-> is_Some (strip_pat pat t).
Proof.
  induction 1 as [|p pat Hp _ IH]; intros s t Hst.
  - simpl. split; eauto.
  - destruct s as [|x s], t as [|y t]; try discriminate Hst; [done |].
    assert (Hxy : cls x = cls y) by (unfold shape in Hst; simpl in Hst; congruence).
    assert (Hst' : shape s = shape t) by (unfold shape in *; simpl in Hst; congruence).
    simpl. rewrite (Hp x y Hxy). destruct (p y); [by apply IH | done].
Qed.

Lemma strip_pat_same_shape (pat : list (ascii -> bool)) :
  Forall (fun p => forall x y, p x = true -> p y = true -> cls x = cls y) pat ->
  forall a b, strip_pat pat a = Some [] -> strip_pat pat b = Some [] -> shape a = shape b.
Proof.
  induction 1 as [|p pat Hp _ IH]; intros a b Ha Hb; simpl in *.
  - by injection Ha as ->; injection Hb as ->.
  - destruct a as [|x a], b as [|y b]; try done.
    destruct (p x) eqn:Ex; [| done]. destruct (p y) eqn:Ey; [| done].
    simpl. f_equal; [by apply Hp | by apply IH].
Qed.

Lemma hex_not_dash (x : ascii) : is_hex x = true -> is_dash x = false.
Proof.
  unfold is_dash. intros H. apply bool_decide_eq_false. intros ->. by vm_compute in H.
Qed.

Lemma uuid_pat_by_cls : Forall (fun p => forall x y, cls x = cls y -> p x = p y) uuid_pat.
Proof.
  unfold uuid_pat. simpl.
  repeat constructor; intros x y [= H1 H2]; done.
Qed.

Lemma uuid_pat_fixes_cls :
  Forall (fun p => forall x y, p x = true -> p y = true -> cls x = cls y) uuid_pat.
Proof.
  assert (Hh : forall x y, is_hex x = true -> is_hex y = true -> cls x = cls y).
  { intros x y Hx Hy. unfold cls. by rewrite Hx, Hy, !hex_not_dash. }
  assert (Hd : forall x y, is_dash x = true -> is_dash y = true -> cls x = cls y).
  { intros x y Hx Hy. unfold is_dash in *. apply bool_decide_eq_true in Hx, Hy. by subst. }
  unfold uuid_pat. simpl. repeat constructor; done.
Qed.

Lemma uuid_pat_rejects (c : ascii) :
  is_uuid_char c = false -> Forall (fun p => p c = false) uuid_pat.
Proof.
  unfold is_uuid_char. intros H. apply orb_false_iff in H as [H1 H2].
  unfold uuid_pat. simpl. repeat constructor; done.
Qed.

(** *** Identifiers and separators *)

Lemma is_uuid_at_sep (a b : str) (c : ascii) :
  is_uuid_char c = false -> is_uuid_at (a ++ c :: b) = is_uuid_at a.
Proof.
  intros Hc. unfold is_uuid_at. apply bool_decide_ext. rewrite !uuid_rest_is_pat.
  apply strip_pat_sep. by apply uuid_pat_rejects.
Qed.

Lemma is_uuid_at_app (a b : str) : is_uuid_at a = true -> is_uuid_at (a ++ b) = true.
Proof.
  unfold is_uuid_at. rewrite !bool_decide_eq_true, !uuid_rest_is_pat. intros [r H].
  pose proof (strip_pat_drop _ _ _ H) as [_ Hl].
  rewrite strip_pat_app_le, H by done. simpl. eauto.
Qed.

Lemma is_uuid_at_shape (s t : str) : shape s = shape t -> is_uuid_at s = is_uuid_at t.
Proof.
  intros H. unfold is_uuid_at. apply bool_decide_ext. rewrite !uuid_rest_is_pat.
  by apply strip_pat_shape; [apply uuid_pat_by_cls |].
Qed.

Lemma is_uuid_length (u : str) : is_uuid u -> length u = 36.
Proof.
  unfold is_uuid. intros H. apply uuid_rest_drop in H as [H1 H2].
  symmetry in H1. apply (f_equal length) in H1. rewrite length_drop in H1. simpl in H1. lia.
Qed.

Lemma is_uuid_at_self (u : str) : is_uuid u -> is_uuid_at u = true.
Proof. unfold is_uuid, is_uuid_at. intros ->. by apply bool_decide_eq_true. Qed.

Lemma is_uuid_take (s : str) : is_uuid_at s = true -> is_uuid (take 36 s).
Proof.
  intros H. pose proof (is_uuid_at_length s H) as Hl.
  unfold is_uuid_at in H. apply bool_decide_eq_true in H as [r H].
  rewrite uuid_rest_is_pat in H. unfold is_uuid. rewrite uuid_rest_is_pat.
  pose proof (strip_pat_drop _ _ _ H) as [Hr _]. change (length uuid_pat) with 36 in Hr.
  rewrite <- (take_drop 36 s) in H at 1. rewrite strip_pat_app_le in H.
  2: { change (length uuid_pat) with 36. rewrite length_take. lia. }
  destruct (strip_pat uuid_pat (take 36 s)) as [r'|] eqn:E; [| done].
  simpl in H. injection H as H. rewrite Hr in H. f_equal.
  apply (f_equal length) in H. rewrite length_app in H.
  destruct r'; [done | simpl in H; lia].
Qed.

Lemma uuid_same_shape (a b : str) : is_uuid a -> is_uuid b -> shape a = shape b.
Proof.
  unfold is_uuid. rewrite !uuid_rest_is_pat.
  apply strip_pat_same_shape, uuid_pat_fixes_cls.
Qed.

Lemma tokens_sep (c : ascii) (b : str) :
  is_uuid_char c = false ->
  forall a, tokens 0 (a ++ c :: b) = tokens 0 a ++ TChr c :: tokens 0 b.
Proof.
  intros Hc a. induction a as [| s Hs IH | x s Hs IH] using tokens_ind.
  - simpl app. apply tokens_nomatch. exact (is_uuid_at_sep [] b c Hc).
  - pose proof (is_uuid_at_length s Hs) as Hl.
    rewrite (tokens_match (s ++ c :: b)) by by apply is_uuid_at_app.
    rewrite (tokens_match s Hs). rewrite take_app_le, drop_app_le by lia.
    by rewrite IH.
  - rewrite <- app_comm_cons. rewrite tokens_nomatch.
    + rewrite (tokens_nomatch x s Hs). by rewrite IH.
    + rewrite app_comm_cons. by rewrite is_uuid_at_sep.
Qed.

Lemma matches_match (s : str) :
  is_uuid_at s = true -> matches s = take 36 s :: matches (drop 36 s).
Proof. intros H. unfold matches. by rewrite tokens_match. Qed.

Lemma matches_nomatch (c : ascii) (s : str) :
  is_uuid_at (c :: s) = false -> matches (c :: s) = matches s.
Proof. intros H. unfold matches. by rewrite tokens_nomatch. Qed.

Lemma scan_match (f : str -> str) (s : str) :
  is_uuid_at s = true -> scan f s = f (take 36 s) ++ scan f (drop 36 s).
Proof. intros H. unfold scan. by rewrite tokens_match. Qed.

Lemma scan_nomatch (f : str -> str) (c : ascii) (s : str) :
  is_uuid_at (c :: s) = false -> scan f (c :: s) = c :: scan f s.
Proof. intros H. unfold scan. by rewrite tokens_nomatch. Qed.

Lemma shape_app (a b : str) : shape (a ++ b) = shape a ++ shape b.
Proof. apply map_app. Qed.

(** Replacing identifiers by identifiers keeps the shape of the text. *)
Lemma shape_scan (f : str -> str) (s : str) :
  (forall u, In u (matches s) -> is_uuid (f u)) -> shape (scan f s) = shape s.
Proof.
  induction s as [| s Hs IH | x s Hs IH] using tokens_ind; intros Hf.
  - done.
  - rewrite matches_match in Hf by done. rewrite scan_match by done.
    rewrite <- (take_drop 36 s) at 3. rewrite !shape_app. f_equal.
    + apply uuid_same_shape; [apply Hf; by left | by apply is_uuid_take].
    + apply IH. intros u Hu. apply Hf. by right.
  - rewrite matches_nomatch in Hf by done. rewrite scan_nomatch by done.
    unfold shape in *. simpl. f_equal. by apply IH.
Qed.

Lemma take_drop_exact (v x : str) (n : nat) :
  length v = n -> take n (v ++ x) = v /\ drop n (v ++ x) = x.
Proof. intros <-. split; [apply take_app_length | apply drop_app_length]. Qed.

Lemma tokens_scan (f : str -> str) (s : str) :
  (forall u, In u (matches s) -> is_uuid (f u)) ->
  tokens 0 (scan f s) = map (tok_map f) (tokens 0 s).
Proof.
  induction s as [| s Hs IH | x s Hs IH] using tokens_ind; intros Hf.
  - done.
  - rewrite matches_match in Hf by done. rewrite scan_match by done.
    assert (Hu : is_uuid (f (take 36 s))) by (apply Hf; by left).
    remember (f (take 36 s)) as v eqn:Ev.
    pose proof (is_uuid_length _ Hu) as Hl.
    rewrite tokens_match by by apply is_uuid_at_app, is_uuid_at_self.
    destruct (take_drop_exact v (scan f (drop 36 s)) 36 Hl) as [-> ->].
    rewrite (tokens_match s Hs). simpl. rewrite <- Ev. f_equal.
    apply IH. intros u Hu'. apply Hf. by right.
  - assert (Hf' : forall u, In u (matches s) -> is_uuid (f u)).
    { intros u Hu. apply Hf. by rewrite matches_nomatch. }
    rewrite scan_nomatch by done. rewrite tokens_nomatch.
    + rewrite (tokens_nomatch x s Hs). simpl. f_equal. by apply IH.
    + rewrite <- Hs. apply is_uuid_at_shape. unfold shape. simpl. f_equal.
      by apply shape_scan.
Qed.

Lemma scan_ext (f g : str -> str) (s : str) :
  (forall u, In u (matches s) -> f u = g u) -> scan f s = scan g s.
Proof.
  induction s as [| s Hs IH | x s Hs IH] using tokens_ind; intros Hf.
  - done.
  - rewrite matches_match in Hf by done.
    rewrite (scan_match f), (scan_match g) by done.
    rewrite Hf by by left. f_equal. apply IH. intros u Hu. apply Hf. by right.
  - rewrite matches_nomatch in Hf by done.
    rewrite (scan_nomatch f), (scan_nomatch g) by done.
    f_equal. by apply IH.
Qed.

Lemma scan_id (s : str) : scan (fun u => u) s = s.
Proof.
  induction s as [| s Hs IH | x s Hs IH] using tokens_ind.
  - done.
  - rewrite scan_match by done. by rewrite IH, take_drop.
  - rewrite scan_nomatch by done. by rewrite IH.
Qed.

Lemma matches_scan (f : str -> str) (s : str) :
  (forall u, In u (matches s) -> is_uuid (f u)) -> matches (scan f s) = map f (matches s).
Proof.
  intros Hf. unfold matches. rewrite tokens_scan by done.
  induction (tokens 0 s) as [|[u|c] ts IH]; [done | |]; simpl; by rewrite IH.
Qed.

Lemma scan_scan (f g : str -> str) (s : str) :
  (forall u, In u (matches s) -> is_uuid (f u)) ->
  scan g (scan f s) = scan (fun u => g (f u)) s.
Proof.
  intros Hf. unfold scan at 1. rewrite tokens_scan by done. unfold scan.
  induction (tokens 0 s) as [|[u|c] ts IH]; [done | |]; simpl; by rewrite IH.
Qed.

(** A second pass that undoes the first gives the text back. *)
Lemma scan_round_trip (f g : str -> str) (s : str) :
  (forall u, In u (matches s) -> is_uuid (f u) /\ g (f u) = u) ->
  scan g (scan f s) = s.
Proof.
  intros H. rewrite scan_scan by (intros u Hu; by apply H).
  rewrite (scan_ext _ (fun u => u)); [apply scan_id |].
  intros u Hu. by apply H.
Qed.

(** ** [json.loads] after [json.dumps] *)

Lemma scan_string_escape (c : ascii) (t acc : str) :
  json_decoder.scan_string (escape_char c ++ t) acc = json_decoder.scan_string t (c :: acc).
Proof.
  destruct c as [[] [] [] [] [] [] [] []]; reflexivity.
Qed.

Lemma scan_string_encoded (s : str) :
  forall t acc,
    json_decoder.scan_string (flat_map escape_char s ++ QUOTE :: t) acc
    = Ret (rev acc ++ s, t).
Proof.
  induction s as [|c s IH]; intros t acc.
  - simpl. by rewrite app_nil_r.
  - cbn [flat_map]. rewrite <- app_assoc, scan_string_escape, IH. simpl.
    by rewrite <- app_assoc.
Qed.

(** *** Integers *)

Lemma after_value_facts (t : str) :
  after_value t = true ->
  json_decoder.starts_with_digit t = false /\ json_decoder.float_follows t = false
  /\ json_decoder.skip_ws t = t.
Proof.
  destruct t as [|c t]; [done |]. simpl. rewrite bool_decide_eq_true.
  change (chars ",]}") with [","%char; "]"%char; "}"%char].
  rewrite !elem_of_cons. intros [-> | [-> | [-> | H]]]; try by vm_compute.
  by apply elem_of_nil in H.
Qed.

Lemma uint_chars_digits (d : Decimal.uint) : forallb is_digit (uint_chars d) = true.
Proof. induction d; simpl; auto. Qed.

Lemma span_digits_app (ds t : str) :
  forallb is_digit ds = true -> json_decoder.starts_with_digit t = false ->
  json_decoder.span_digits (ds ++ t) = (ds, t).
Proof.
  intros Hd Ht. induction ds as [|c ds IH]; cbn [app forallb json_decoder.span_digits] in *.
  - destruct t as [|c t]; [done |]. cbn [json_decoder.starts_with_digit] in Ht.
    cbn [json_decoder.span_digits]. by rewrite Ht.
  - apply andb_true_iff in Hd as [Hc Hd]. by rewrite Hc, IH.
Qed.

Lemma of_lu_rev_cons (d : Decimal.uint) (k : Decimal.uint -> Decimal.uint) (v : N) :
  (forall x, Unsigned.of_lu (k x) = (v + 10 * Unsigned.of_lu x)%N) ->
  (forall x y, Decimal.revapp (k x) y = Decimal.revapp x (k y)) ->
  Unsigned.of_lu (Decimal.rev (k d))
  = (Unsigned.of_lu (Decimal.rev d) + v * 10 ^ Unsigned.usize d)%N.
Proof.
  intros Hk Hr. unfold Decimal.rev. rewrite Hr, Unsigned.of_lu_revapp, Hk. simpl.
  unfold Decimal.rev. lia.
Qed.

Lemma digits_value_uint (d : Decimal.uint) :
  forall acc,
    json_decoder.digits_value (uint_chars d) acc
    = (acc * 10 ^ Unsigned.usize d + Unsigned.of_lu (Decimal.rev d))%N.
Proof.
  induction d; intros acc; cbn [uint_chars json_decoder.digits_value Unsigned.usize];
    [simpl; lia | ..];
    rewrite IHd, N.pow_succ_r';
    match goal with
    | |- context [Decimal.rev (?k d)] =>
        rewrite (of_lu_rev_cons d k (Unsigned.of_lu (k Decimal.Nil)))
          by (intros; simpl; lia || reflexivity)
    end; simpl; lia.
Qed.

Lemma to_uint_head (p : positive) :
  exists c cs, uint_chars (Pos.to_uint p) = c :: cs /\ c <> "0"%char.
Proof.
  pose proof (Unsigned.to_of (Pos.to_uint p)) as H.
  rewrite Unsigned.of_to in H. simpl in H.
  pose proof (Unsigned.to_uint_nonzero p) as Hz.
  pose proof (Unsigned.to_uint_nonnil p) as Hn.
  destruct (Pos.to_uint p) as [|d|d|d|d|d|d|d|d|d|d] eqn:E; try done;
    try (eexists _, _; split; [reflexivity | discriminate]).
  exfalso. unfold Decimal.unorm in H. rewrite nzhead_D0 in H.
  destruct (Decimal.nzhead d) eqn:En; try discriminate H.
  - by apply Hz.
  - exact (nzhead_nonzero _ _ En).
Qed.

Lemma parse_int (z : Z) (fuel : nat) (t : str) :
  after_value t = true ->
  json_decoder.parse_value (S fuel) (int_repr z ++ t) = Ret (JInt z, t).
Proof.
  intros Ht. apply after_value_facts in Ht as (H1 & H2 & _).
  assert (Hpos : forall p neg,
    json_decoder.scan_int neg (uint_chars (Pos.to_uint p) ++ t)
    = Ret (JInt (if neg then Zneg p else Zpos p), t)).
  { intros p neg. destruct (to_uint_head p) as (c & cs & E & Hc).
    pose proof (uint_chars_digits (Pos.to_uint p)) as Hd.
    unfold json_decoder.scan_int. rewrite E in *. simpl app. simpl in Hd.
    apply andb_true_iff in Hd as [Hd1 Hd2]. rewrite Hd1. cbn [negb].
    destruct (decide (c = "0"%char)) as [? | _]; [done |].
    rewrite app_comm_cons, span_digits_app by (simpl; by rewrite ?Hd1, ?Hd2).
    rewrite H2. rewrite <- E, digits_value_uint, <- Unsigned.of_uint_alt, Unsigned.of_to.
    simpl. by destruct neg. }
  unfold int_repr. destruct z as [|p|p]; cbn [Z.to_int].
  - simpl uint_chars. cbn [app json_decoder.parse_value]. simpl.
    by rewrite H2.
  - destruct (to_uint_head p) as (c & cs & E & Hc). specialize (Hpos p false).
    pose proof (uint_chars_digits (Pos.to_uint p)) as Hd.
    rewrite E in *. simpl in Hd. apply andb_true_iff in Hd as [Hd1 Hd2].
    simpl app in *. cbn [json_decoder.parse_value].
    assert (Hq : c <> QUOTE) by (intros ->; done).
    assert (Hb1 : c <> "{"%char) by (intros ->; done).
    assert (Hb2 : c <> "["%char) by (intros ->; done).
    assert (Hm : c <> "-"%char) by (intros ->; done).
    rewrite !decide_False by done. by rewrite Hd1.
  - cbn [app json_decoder.parse_value].
    rewrite !decide_False by done. rewrite decide_True by done.
    destruct (to_uint_head p) as (c & cs & E & Hc). rewrite <- (Hpos p true).
    pose proof (uint_chars_digits (Pos.to_uint p)) as Hd.
    rewrite E in *. simpl in Hd. apply andb_true_iff in Hd as [Hd1 Hd2].
    simpl app. assert (HI : c <> "I"%char) by (intros ->; done).
    simpl json_decoder.strip_prefix. by rewrite decide_False by done.
Qed.

(** *** Values *)

Lemma wf_json_arr (l : list json) : wf_json (JArr l) <-> Forall wf_json l.
Proof.
  simpl. induction l as [|x l IH]; [by split |].
  rewrite Forall_cons, <- IH. done.
Qed.

Lemma wf_json_obj (kvs : list (str * json)) :
  wf_json (JObj kvs) <-> NoDup (map fst kvs) /\ Forall (fun kv => wf_json (snd kv)) kvs.
Proof.
  simpl. apply and_iff_compat_l.
  induction kvs as [|[k v] kvs IH]; [by split |].
  rewrite Forall_cons, <- IH. done.
Qed.

Lemma value_start_facts (c : ascii) :
  value_start c = true ->
  json_decoder.is_ws c = false /\ c <> "]"%char /\ c <> "}"%char.
Proof.
  intros H. split_and!; [| intros -> | intros ->]; try done.
  destruct c as [[] [] [] [] [] [] [] []]; done.
Qed.

Lemma int_repr_head (z : Z) : exists c cs, int_repr z = c :: cs /\ value_start c = true.
Proof.
  unfold int_repr. destruct z as [|p|p]; cbn [Z.to_int].
  - by eexists _, _.
  - destruct (to_uint_head p) as (c & cs & E & _).
    pose proof (uint_chars_digits (Pos.to_uint p)) as Hd. rewrite E in *.
    simpl in Hd. apply andb_true_iff in Hd as [Hd _].
    exists c, cs. split; [done |]. unfold value_start. by rewrite Hd.
  - by eexists _, _.
Qed.

Lemma dumps_head (v : json) : exists c cs, dumps v = c :: cs /\ value_start c = true.
Proof.
  destruct v as [| [] | z | s | l | kvs]; try (by eexists _, _).
  apply int_repr_head.
Qed.

Lemma skip_ws_start (c : ascii) (t : str) :
  value_start c = true -> json_decoder.skip_ws (c :: t) = c :: t.
Proof. intros H. apply value_start_facts in H as [H _]. simpl. by rewrite H. Qed.

Lemma skip_ws_start_eq (s : str) (c : ascii) (t : str) :
  s = c :: t -> value_start c = true -> json_decoder.skip_ws s = s.
Proof. intros -> H. by apply skip_ws_start. Qed.

Lemma skip_ws_dumps (v : json) (t : str) : json_decoder.skip_ws (dumps v ++ t) = dumps v ++ t.
Proof.
  destruct (dumps_head v) as (c & cs & -> & H). by apply skip_ws_start.
Qed.

Lemma join_length_ge (sep x : str) (parts : list str) :
  List.In x parts -> length x <= length (join sep parts).
Proof.
  induction parts as [|p parts IH]; [done |]. intros [-> | H].
  - destruct parts; simpl; rewrite ?length_app; lia.
  - specialize (IH H). destruct parts as [|q parts]; [done |].
    change (join sep (p :: q :: parts)) with (p ++ sep ++ join sep (q :: parts)).
    rewrite !length_app. lia.
Qed.

Lemma join_length_parts (sep : str) (parts : list str) :
  Forall (fun p => 1 <= length p) parts -> length parts <= length (join sep parts).
Proof.
  induction 1 as [|p parts Hp _ IH]; [done |].
  destruct parts as [|q parts]; [simpl; lia |].
  change (join sep (p :: q :: parts)) with (p ++ sep ++ join sep (q :: parts)).
  rewrite !length_app. simpl length at 1. simpl length in IH at 1. lia.
Qed.

Lemma array_loop_dumps (value : str -> result (json * str)) (t : str) (l : list json) :
  (forall x t', List.In x l -> after_value t' = true -> value (dumps x ++ t') = Ret (x, t')) ->
  l <> [] ->
  forall fuel acc,
    length l <= fuel ->
    json_decoder.array_loop value fuel (join (chars ", ") (map dumps l) ++ "]"%char :: t) acc
    = Ret (JArr (rev acc ++ l), t).
Proof.
  induction l as [|x l IH]; intros Hv Hne fuel acc Hf; [done |].
  destruct fuel as [|fuel]; [simpl in Hf; lia |].
  cbn [json_decoder.array_loop]. destruct l as [|y l].
  - cbn [map join]. rewrite Hv by (by left || done). cbn [mbind result_bind].
    simpl. by rewrite <- ?app_assoc.
  - change (join (chars ", ") (map dumps (x :: y :: l)))
      with (dumps x ++ chars ", " ++ join (chars ", ") (map dumps (y :: l))).
    rewrite <- !app_assoc. rewrite Hv by (by left || done). cbn [mbind result_bind].
    change (chars ", " ++ ?r) with (","%char :: " "%char :: r).
    cbn [json_decoder.skip_ws]. change (json_decoder.is_ws ","%char) with false.
    cbn iota. rewrite decide_False by done. rewrite decide_True by done.
    change (json_decoder.skip_ws (" "%char :: ?r)) with (json_decoder.skip_ws r).
    assert (Hs : json_decoder.skip_ws
                   (join (chars ", ") (map dumps (y :: l)) ++ "]"%char :: t)
                 = join (chars ", ") (map dumps (y :: l)) ++ "]"%char :: t).
    { destruct l as [|z l].
      - cbn [map join]. apply skip_ws_dumps.
      - change (join (chars ", ") (map dumps (y :: z :: l)))
          with (dumps y ++ chars ", " ++ join (chars ", ") (map dumps (z :: l))).
        rewrite <- !app_assoc. apply skip_ws_dumps. }
    rewrite Hs. rewrite IH.
    + simpl. by rewrite <- ?app_assoc.
    + intros x' t' Hx. apply Hv. by right.
    + done.
    + simpl in *. lia.
Qed.

Lemma member_text_cons (k : str) (v : json) (r : str) :
  member_text (k, v) ++ r
  = QUOTE :: flat_map escape_char k ++ QUOTE :: ":"%char :: " "%char :: dumps v ++ r.
Proof.
  unfold member_text, encode_str. simpl. rewrite <- !app_assoc. done.
Qed.

Lemma object_loop_member (value : str -> result (json * str)) (k : str) (v : json)
    (r : str) (fuel : nat) (acc : list (str * json)) :
  value (dumps v ++ r) = Ret (v, r) ->
  json_decoder.object_loop value (S fuel) (member_text (k, v) ++ r) acc
  = match json_decoder.skip_ws r with
    | d :: r3 =>
        if decide (d = "}"%char)
        then Ret (JObj (dict_of_pairs (rev ((k, v) :: acc))), r3)
        else if decide (d = ","%char)
        then json_decoder.object_loop value fuel (json_decoder.skip_ws r3) ((k, v) :: acc)
        else Raise JSONDecodeError
    | [] => Raise JSONDecodeError
    end.
Proof.
  intros Hv. rewrite member_text_cons. cbn [json_decoder.object_loop].
  rewrite decide_True by done. rewrite scan_string_encoded. cbn [mbind result_bind rev app].
  cbn [json_decoder.skip_ws]. change (json_decoder.is_ws ":"%char) with false. cbn iota.
  rewrite decide_True by done.
  change (json_decoder.skip_ws (" "%char :: ?x)) with (json_decoder.skip_ws x).
  rewrite skip_ws_dumps, Hv. done.
Qed.

Lemma skip_ws_members (kvs : list (str * json)) (t : str) :
  kvs <> [] ->
  json_decoder.skip_ws (join (chars ", ") (map member_text kvs) ++ t)
  = join (chars ", ") (map member_text kvs) ++ t.
Proof.
  destruct kvs as [|[k v] kvs]; [done |]. intros _.
  destruct kvs as [|kv kvs].
  - cbn [map join]. by rewrite member_text_cons.
  - change (join (chars ", ") (map member_text ((k, v) :: kv :: kvs)))
      with (member_text (k, v) ++ chars ", " ++ join (chars ", ") (map member_text (kv :: kvs))).
    rewrite <- !app_assoc. by rewrite member_text_cons.
Qed.

Lemma object_loop_dumps (value : str -> result (json * str)) (t : str)
    (kvs : list (str * json)) :
  (forall k v t', List.In (k, v) kvs -> after_value t' = true ->
                  value (dumps v ++ t') = Ret (v, t')) ->
  kvs <> [] ->
  forall fuel acc,
    length kvs <= fuel ->
    json_decoder.object_loop value fuel
      (join (chars ", ") (map member_text kvs) ++ "}"%char :: t) acc
    = Ret (JObj (dict_of_pairs (rev acc ++ kvs)), t).
Proof.
  induction kvs as [|[k v] kvs IH]; intros Hv Hne fuel acc Hf; [done |].
  destruct fuel as [|fuel]; [simpl in Hf; lia |].
  destruct kvs as [|kv kvs].
  - cbn [map join]. rewrite object_loop_member by (eapply Hv; [by left | done]).
    cbn [json_decoder.skip_ws]. change (json_decoder.is_ws "}"%char) with false. cbn iota.
    by rewrite decide_True by done.
  - change (join (chars ", ") (map member_text ((k, v) :: kv :: kvs)))
      with (member_text (k, v) ++ chars ", " ++ join (chars ", ") (map member_text (kv :: kvs))).
    rewrite <- !app_assoc. rewrite object_loop_member by (eapply Hv; [by left | done]).
    change (chars ", " ++ ?r) with (","%char :: " "%char :: r).
    cbn [json_decoder.skip_ws]. change (json_decoder.is_ws ","%char) with false. cbn iota.
    rewrite decide_False by done. rewrite decide_True by done.
    change (json_decoder.skip_ws (" "%char :: ?x)) with (json_decoder.skip_ws x).
    rewrite skip_ws_members by done. rewrite IH.
    + simpl. by rewrite <- ?app_assoc.
    + intros k' v' t' Hx. apply (Hv k'). by right.
    + done.
    + simpl in *. lia.
Qed.

Lemma dict_set_fresh {V} (k : str) (v : V) (d : list (str * V)) :
  k ∉ map fst d -> dict_set k v d = d ++ [(k, v)].
Proof.
  induction d as [|[k' v'] d IH]; [done |]. simpl. intros H.
  rewrite decide_False by set_solver. f_equal. apply IH. set_solver.
Qed.

Lemma dict_of_pairs_nodup {V} (l : list (str * V)) :
  NoDup (map fst l) -> dict_of_pairs l = l.
Proof.
  unfold dict_of_pairs. intros H.
  assert (G : forall d, NoDup (map fst (d ++ l)) ->
              fold_left (fun d kv => dict_set (fst kv) (snd kv) d) l d = d ++ l).
  { clear H. induction l as [|[k v] l IH]; intros d Hd; simpl.
    - by rewrite app_nil_r.
    - rewrite dict_set_fresh.
      + rewrite IH; [by rewrite <- app_assoc |]. by rewrite <- app_assoc.
      + rewrite map_app in Hd. simpl in Hd. apply NoDup_app in Hd as (_ & Hd & _).
        intros Hk. apply (Hd k Hk). set_solver. }
  by apply (G []).
Qed.

Lemma dumps_obj_eq (kvs : list (str * json)) :
  dumps (JObj kvs) = "{"%char :: join (chars ", ") (map member_text kvs) ++ ["}"%char].
Proof. reflexivity. Qed.

Lemma dumps_arr_eq (l : list json) :
  dumps (JArr l) = "["%char :: join (chars ", ") (map dumps l) ++ ["]"%char].
Proof. reflexivity. Qed.

Lemma dumps_length_pos (v : json) : 1 <= length (dumps v).
Proof. destruct (dumps_head v) as (c & cs & -> & _). simpl. lia. Qed.

Lemma member_text_length (k : str) (v : json) :
  length (dumps v) + 1 <= length (member_text (k, v)).
Proof. unfold member_text, encode_str. simpl. rewrite !length_app. simpl. lia. Qed.

(** The decoder reads back what [dumps] wrote. *)
Lemma parse_dumps (v : json) :
  wf_json v ->
  forall fuel t,
    length (dumps v) <= fuel -> after_value t = true ->
    json_decoder.parse_value fuel (dumps v ++ t) = Ret (v, t).
Proof.
  induction v as [| b | z | s | l IH | kvs IH] using json_nested_ind;
    intros Hwf fuel t Hf Ht.
  - destruct fuel as [|fuel]; [simpl in Hf; lia |]. reflexivity.
  - destruct fuel as [|fuel]; [simpl in Hf; destruct b; simpl in Hf; lia |].
    by destruct b.
  - pose proof (dumps_length_pos (JInt z)).
    destruct fuel as [|fuel]; [lia |]. by apply parse_int.
  - destruct fuel as [|fuel]; [simpl in Hf; lia |].
    cbn [dumps]. unfold encode_str. simpl app. cbn [json_decoder.parse_value].
    rewrite decide_True by done. rewrite <- app_assoc. simpl app.
    by rewrite scan_string_encoded.
  - apply wf_json_arr in Hwf. rewrite dumps_arr_eq in *.
    destruct fuel as [|fuel]; [simpl in Hf; lia |].
    cbn [app]. rewrite <- app_assoc. cbn [app]. cbn [json_decoder.parse_value].
    rewrite !decide_False by done. rewrite decide_True by done.
    destruct l as [|x l]; [reflexivity |].
    assert (Hhead : exists c r, join (chars ", ") (map dumps (x :: l)) ++ "]"%char :: t = c :: r
                                /\ value_start c = true).
    { destruct (dumps_head x) as (c & cs & E & Hc). destruct l as [|y l].
      - cbn [map join]. rewrite E. by eexists _, _.
      - change (join (chars ", ") (map dumps (x :: y :: l)))
          with (dumps x ++ chars ", " ++ join (chars ", ") (map dumps (y :: l))).
        rewrite E. by eexists _, _. }
    destruct Hhead as (c & r & E & Hc). pose proof (value_start_facts c Hc) as (Hw & Hb1 & Hb2).
    rewrite (skip_ws_start_eq _ c r E Hc). rewrite E at 1. rewrite decide_False by done.
    apply (array_loop_dumps _ t (x :: l)); [| done |].
    + intros y t' Hy Ht'. rewrite Forall_forall in IH, Hwf.
      apply IH; [by apply list_elem_of_In | by apply Hwf, list_elem_of_In | | done].
      pose proof (join_length_ge (chars ", ") (dumps y) (map dumps (x :: l))
                    (in_map dumps _ _ Hy)) as Hj.
      cbn [length] in Hf. rewrite length_app in Hf. cbn [length] in Hf. lia.
    + rewrite length_app. etransitivity; [| apply Nat.le_add_r].
      rewrite <- (length_map dumps (x :: l)). apply join_length_parts.
      apply Forall_forall. intros p Hp. apply list_elem_of_In, in_map_iff in Hp as (y & <- & _).
      apply dumps_length_pos.
  - apply wf_json_obj in Hwf as [Hnd Hwf]. rewrite dumps_obj_eq in *.
    destruct fuel as [|fuel]; [simpl in Hf; lia |].
    cbn [app]. rewrite <- app_assoc. cbn [app]. cbn [json_decoder.parse_value].
    rewrite !decide_False by done. rewrite decide_True by done.
    destruct kvs as [|[k v] kvs]; [reflexivity |].
    rewrite skip_ws_members by done.
    assert (Hhead : exists r, join (chars ", ") (map member_text ((k, v) :: kvs)) ++ "}"%char :: t
                              = QUOTE :: r).
    { destruct kvs as [|kv kvs].
      - cbn [map join]. rewrite member_text_cons. by eexists.
      - change (join (chars ", ") (map member_text ((k, v) :: kv :: kvs)))
          with (member_text (k, v) ++ chars ", "
                ++ join (chars ", ") (map member_text (kv :: kvs))).
        rewrite <- !app_assoc, member_text_cons. by eexists. }
    destruct Hhead as (r & E). rewrite E at 1. rewrite decide_False by done.
    rewrite (object_loop_dumps _ t ((k, v) :: kvs)); [| | done |].
    + simpl rev. simpl app. by rewrite dict_of_pairs_nodup.
    + intros k' v' t' Hy Ht'. rewrite Forall_forall in IH, Hwf.
      apply (IH (k', v')); [by apply list_elem_of_In | by apply (Hwf (k', v')), list_elem_of_In | | done].
      pose proof (join_length_ge (chars ", ") (member_text (k', v'))
                    (map member_text ((k, v) :: kvs)) (in_map member_text _ _ Hy)) as Hj.
      pose proof (member_text_length k' v'). cbn [snd].
      cbn [length] in Hf. rewrite length_app in Hf. cbn [length] in Hf. lia.
    + rewrite length_app. etransitivity; [| apply Nat.le_add_r].
      rewrite <- (length_map member_text ((k, v) :: kvs)). apply join_length_parts.
      apply Forall_forall. intros p Hp.
      apply list_elem_of_In, in_map_iff in Hp as ([k' v'] & <- & _).
      pose proof (member_text_length k' v'). lia.
Qed.

Lemma loads_dumps (v : json) : wf_json v -> json_decoder.loads (dumps v) = Ret v.
Proof.
  intros Hwf. unfold json_decoder.loads.
  pose proof (skip_ws_dumps v []) as Hs. rewrite app_nil_r in Hs. rewrite Hs.
  pose proof (parse_dumps v Hwf (S (length (dumps v))) [] ltac:(lia) eq_refl) as Hp.
  rewrite app_nil_r in Hp. by rewrite Hp.
Qed.

(** ** Identifier rewriting: the JSON text of a payload *)

Lemma strip_pat_forall (Q : ascii -> Prop) (pat : list (ascii -> bool)) :
  Forall (fun p => forall c, p c = true -> Q c) pat ->
  forall a, strip_pat pat a = Some [] -> Forall Q a.
Proof.
  induction 1 as [|p pat Hp _ IH]; intros a Ha; simpl in Ha.
  - injection Ha as ->. constructor.
  - destruct a as [|c a]; [done |]. destruct (p c) eqn:E; [| done].
    constructor; [by apply Hp | by apply IH].
Qed.

Lemma is_uuid_chars (u : str) : is_uuid u -> Forall (fun c => is_uuid_char c = true) u.
Proof.
  unfold is_uuid. rewrite uuid_rest_is_pat. apply strip_pat_forall.
  unfold uuid_pat. simpl.
  repeat apply List.Forall_cons; try apply List.Forall_nil;
    intros c Hc; unfold is_uuid_char; unfold is_dash in *; rewrite Hc; by rewrite ?orb_true_r.
Qed.

Lemma matches_are_uuids (s : str) : forall u, In u (matches s) -> is_uuid u.
Proof.
  induction s as [| s Hs IH | x s Hs IH] using tokens_ind; intros u Hu.
  - done.
  - rewrite matches_match in Hu by done. destruct Hu as [<- | Hu]; [by apply is_uuid_take | by apply IH].
  - rewrite matches_nomatch in Hu by done. by apply IH.
Qed.

Lemma escape_uuid_char (c : ascii) : is_uuid_char c = true -> escape_char c = [c].
Proof. destruct c as [[] [] [] [] [] [] [] []]; intros H; try done. Qed.

Lemma escape_plain_char (c : ascii) :
  plain_char c = true ->
  escape_char c = [c]
  \/ exists x, escape_char c = [BACKSLASH; x] /\ is_uuid_char x = false /\ is_uuid_char c = false.
Proof.
  destruct c as [[] [] [] [] [] [] [] []]; intros H; try done;
    first [ by left | right; by eexists ].
Qed.

Lemma escape_uuid_chars (u : str) :
  Forall (fun c => is_uuid_char c = true) u -> flat_map escape_char u = u.
Proof.
  induction 1 as [|c u Hc _ IH]; [done |]. simpl. by rewrite (escape_uuid_char c Hc), IH.
Qed.

Lemma scan_sep (g : str -> str) (c : ascii) (a b : str) :
  is_uuid_char c = false -> scan g (a ++ c :: b) = scan g a ++ c :: scan g b.
Proof. intros H. unfold scan. by rewrite tokens_sep, flat_map_app. Qed.

Lemma matches_sep (c : ascii) (a b : str) :
  is_uuid_char c = false -> matches (a ++ c :: b) = matches a ++ matches b.
Proof. intros H. unfold matches. by rewrite tokens_sep, tok_ids_app. Qed.

Lemma tokens_cons_sep (c : ascii) (b : str) :
  is_uuid_char c = false -> tokens 0 (c :: b) = TChr c :: tokens 0 b.
Proof. intros H. exact (tokens_sep c b H []). Qed.

Lemma is_uuid_at_escaped (x : str) (t : str) :
  plain_str x ->
  forall a, Forall (fun c => is_uuid_char c = true) a ->
            is_uuid_at (a ++ flat_map escape_char x ++ QUOTE :: t) = is_uuid_at (a ++ x).
Proof.
  induction 1 as [|c x Hc _ IH]; intros a Ha.
  - simpl. rewrite app_nil_r. by apply is_uuid_at_sep.
  - cbn [flat_map]. destruct (escape_plain_char c Hc) as [E | (y & E & Hy & Hn)].
    + destruct (is_uuid_char c) eqn:Ec.
      * rewrite E. rewrite <- app_assoc. cbn [app].
        rewrite (cons_middle c a), (cons_middle c a x), !app_assoc.
        rewrite <- (app_assoc (a ++ [c])). apply IH.
        apply Forall_app. split; [done | by constructor].
      * rewrite E. rewrite <- app_assoc. cbn [app].
        by rewrite !is_uuid_at_sep.
    + rewrite E. rewrite <- app_assoc. cbn [app].
      by rewrite !is_uuid_at_sep.
Qed.

Lemma tokens_escaped (s : str) :
  plain_str s ->
  forall t, tokens 0 (flat_map escape_char s ++ QUOTE :: t)
            = flat_map escape_token (tokens 0 s) ++ TChr QUOTE :: tokens 0 t.
Proof.
  induction s as [| s Hs IH | c s Hs IH] using tokens_ind; intros Hp t.
  - by apply tokens_cons_sep.
  - pose proof (is_uuid_take s Hs) as Hu. pose proof (is_uuid_length _ Hu) as Hl.
    rewrite (tokens_match s Hs). cbn [flat_map escape_token app].
    rewrite <- (IH (Forall_drop _ _ _ Hp) t).
    rewrite <- (take_drop 36 s) at 1. rewrite flat_map_app.
    rewrite (escape_uuid_chars _ (is_uuid_chars _ Hu)). rewrite <- app_assoc.
    rewrite tokens_match by by apply is_uuid_at_app, is_uuid_at_self.
    by destruct (take_drop_exact (take 36 s)
                   (flat_map escape_char (drop 36 s) ++ QUOTE :: t) 36 Hl) as [-> ->].
  - pose proof Hp as Hcs. apply Forall_cons in Hp as [Hc Hp].
    rewrite (tokens_nomatch c s Hs).
    cbn [flat_map escape_token]. rewrite <- !app_assoc, <- (IH Hp t).
    destruct (escape_plain_char c Hc) as [E | (y & E & Hy & Hn)]; rewrite E.
    + cbn [map app]. apply tokens_nomatch. rewrite <- Hs.
      pose proof (is_uuid_at_escaped (c :: s) t Hcs [] (List.Forall_nil _)) as H.
      cbn [flat_map app] in H. by rewrite E in H.
    + cbn [map app].
      rewrite (tokens_cons_sep BACKSLASH) by done. by rewrite (tokens_cons_sep y).
Qed.

Lemma scan_escaped (g : str -> str) (s t : str) :
  keeps_uuid g -> plain_str s ->
  scan g (flat_map escape_char s ++ QUOTE :: t)
  = flat_map escape_char (scan g s) ++ QUOTE :: scan g t.
Proof.
  intros Hg Hp. unfold scan. rewrite tokens_escaped by done.
  rewrite flat_map_app. cbn [flat_map tok_text app]. f_equal.
  pose proof (matches_are_uuids s) as Hm. unfold matches in Hm.
  induction (tokens 0 s) as [|[u|c] ts IH]; [done | |].
  - cbn [flat_map escape_token tok_text app]. rewrite flat_map_app.
    rewrite IH by (intros v Hv; apply Hm; by right). f_equal.
    symmetry. apply escape_uuid_chars, is_uuid_chars, Hg, Hm. by left.
  - cbn [flat_map escape_token tok_text app]. rewrite flat_map_app.
    rewrite IH by (intros v Hv; by apply Hm). f_equal.
    clear. induction (escape_char c) as [|x l IHl]; [done |]. simpl. by rewrite IHl.
Qed.

Lemma matches_escaped (s t : str) :
  plain_str s -> matches (flat_map escape_char s ++ QUOTE :: t) = matches s ++ matches t.
Proof.
  intros Hp. unfold matches. rewrite tokens_escaped by done.
  rewrite tok_ids_app. cbn [tok_ids]. f_equal.
  induction (tokens 0 s) as [|[u|c] ts IH]; [done | |].
  - cbn [flat_map escape_token tok_ids app]. by rewrite IH.
  - cbn [flat_map escape_token]. rewrite tok_ids_app, IH, tok_ids_chars. done.
Qed.

(** *** Numbers and literals hold no identifier *)

Lemma uuid_ninth_is_dash (x : str) :
  is_uuid_at x = true -> exists a b, x = a ++ "-"%char :: b /\ length a = 8.
Proof.
  unfold is_uuid_at, uuid_rest, dash. rewrite bool_decide_eq_true. intros [r H].
  destruct (strip is_hex 8 x) as [s1|] eqn:E1; [| done]. cbn [mbind option_bind] in H.
  apply strip_drop in E1 as (-> & Hl & _).
  destruct (strip _ 1 (drop 8 x)) as [s2|] eqn:E2; [| done].
  simpl in E2. destruct (drop 8 x) as [|c s] eqn:Ed; [done |].
  case_bool_decide as Hc; [| done]. subst c.
  exists (take 8 x), s. split.
  - by rewrite <- Ed, take_drop.
  - rewrite length_take. lia.
Qed.

Lemma no_uuid_in_digits (ds : str) : forallb is_digit ds = true -> is_uuid_at ds = false.
Proof.
  intros Hd. destruct (is_uuid_at ds) eqn:E; [| done].
  apply uuid_ninth_is_dash in E as (a & b & -> & _).
  rewrite forallb_app in Hd. apply andb_true_iff in Hd as [_ Hd]. done.
Qed.

Lemma tokens_digits (ds : str) : forallb is_digit ds = true -> tokens 0 ds = map TChr ds.
Proof.
  induction ds as [|c ds IH]; intros Hd; [done |].
  rewrite tokens_nomatch by by apply no_uuid_in_digits.
  simpl in Hd. apply andb_true_iff in Hd as [_ Hd]. simpl. by rewrite IH.
Qed.

Lemma tokens_int (z : Z) : tokens 0 (int_repr z) = map TChr (int_repr z).
Proof.
  unfold int_repr. destruct (Z.to_int z) as [d|d].
  - apply tokens_digits, uint_chars_digits.
  - rewrite tokens_nomatch by done. cbn [map]. f_equal.
    apply tokens_digits, uint_chars_digits.
Qed.

Lemma scan_no_tokens (g : str -> str) (a : str) : tokens 0 a = map TChr a -> scan g a = a.
Proof. intros H. unfold scan. rewrite H. apply flat_map_chars. Qed.

Lemma matches_no_tokens (a : str) : tokens 0 a = map TChr a -> matches a = [].
Proof. intros H. unfold matches. rewrite H. apply tok_ids_chars. Qed.

(** *** The text of a payload *)

Lemma scan_cons_sep (g : str -> str) (c : ascii) (b : str) :
  is_uuid_char c = false -> scan g (c :: b) = c :: scan g b.
Proof. intros H. exact (scan_sep g c [] b H). Qed.

Lemma matches_cons_sep (c : ascii) (b : str) :
  is_uuid_char c = false -> matches (c :: b) = matches b.
Proof. intros H. exact (matches_sep c [] b H). Qed.

Lemma plain_json_arr (l : list json) : plain_json (JArr l) <-> Forall plain_json l.
Proof.
  simpl. induction l as [|x l IH]; [by split |].
  rewrite Forall_cons, <- IH. done.
Qed.

Lemma plain_json_obj (kvs : list (str * json)) :
  plain_json (JObj kvs)
  <-> Forall (fun kv => plain_str (fst kv) /\ plain_json (snd kv)) kvs.
Proof.
  simpl. induction kvs as [|[k v] kvs IH]; [by split |].
  rewrite Forall_cons, <- IH. simpl. tauto.
Qed.

Lemma scan_join (g : str -> str) (parts parts' : list str) :
  Forall2 (fun a b => scan g a = b) parts parts' ->
  scan g (join (chars ", ") parts) = join (chars ", ") parts'.
Proof.
  induction 1 as [|a b parts parts' Hab Hrest IH]; [done |].
  destruct Hrest as [|a' b' parts parts' Hab' Hrest]; [done |].
  change (join (chars ", ") (a :: a' :: parts))
    with (a ++ ","%char :: " "%char :: join (chars ", ") (a' :: parts)).
  change (join (chars ", ") (b :: b' :: parts'))
    with (b ++ ","%char :: " "%char :: join (chars ", ") (b' :: parts')).
  rewrite scan_sep by done. rewrite scan_cons_sep by done. by rewrite Hab, IH.
Qed.

Lemma matches_join (parts : list str) :
  matches (join (chars ", ") parts) = flat_map matches parts.
Proof.
  induction parts as [|a parts IH]; [done |].
  destruct parts as [|a' parts]; [simpl; by rewrite app_nil_r |].
  change (join (chars ", ") (a :: a' :: parts))
    with (a ++ ","%char :: " "%char :: join (chars ", ") (a' :: parts)).
  rewrite matches_sep by done. rewrite matches_cons_sep by done. by rewrite IH.
Qed.

Lemma scan_member (g : str -> str) (k : str) (v v' : json) :
  keeps_uuid g -> plain_str k -> scan g (dumps v) = dumps v' ->
  scan g (member_text (k, v)) = member_text (scan g k, v').
Proof.
  intros Hg Hk Hv. rewrite <- (app_nil_r (member_text (k, v))), member_text_cons.
  rewrite <- (app_nil_r (member_text (scan g k, v'))), member_text_cons.
  rewrite !app_nil_r. rewrite scan_cons_sep by done. rewrite scan_escaped by done.
  rewrite !scan_cons_sep by done. by rewrite Hv.
Qed.

Lemma matches_member (k : str) (v : json) :
  plain_str k -> matches (member_text (k, v)) = matches k ++ matches (dumps v).
Proof.
  intros Hk. rewrite <- (app_nil_r (member_text (k, v))), member_text_cons.
  rewrite app_nil_r. rewrite matches_cons_sep by done. rewrite matches_escaped by done.
  by rewrite !matches_cons_sep by done.
Qed.

(** The substitution on the text of a payload is the text of the
    payload with the substitution made in its strings. *)
Lemma scan_dumps (g : str -> str) (p : json) :
  keeps_uuid g -> plain_json p -> scan g (dumps p) = dumps (jmap (scan g) p).
Proof.
  intros Hg. induction p as [| b | z | s | l IH | kvs IH] using json_nested_ind; intros Hp.
  - by apply scan_no_tokens.
  - destruct b; by apply scan_no_tokens.
  - apply scan_no_tokens, tokens_int.
  - cbn [dumps jmap]. unfold encode_str. rewrite scan_cons_sep by done.
    rewrite scan_escaped by done. done.
  - apply plain_json_arr in Hp. cbn [jmap]. rewrite !dumps_arr_eq.
    rewrite scan_cons_sep by done. rewrite scan_sep by done. f_equal. f_equal.
    apply scan_join. rewrite map_map.
    induction l as [|x l IHl]; [constructor |].
    apply Forall_cons in IH as [IHx IH]. apply Forall_cons in Hp as [Hx Hp].
    constructor; [by apply IHx | by apply IHl].
  - apply plain_json_obj in Hp. cbn [jmap]. rewrite !dumps_obj_eq.
    rewrite scan_cons_sep by done. rewrite scan_sep by done. f_equal. f_equal.
    apply scan_join. rewrite map_map.
    induction kvs as [|[k v] kvs IHl]; [constructor |].
    apply Forall_cons in IH as [IHx IH]. apply Forall_cons in Hp as [[Hk Hv] Hp].
    constructor; [| by apply IHl].
    apply scan_member; [done | done | by apply IHx].
Qed.

Lemma matches_dumps (p : json) :
  plain_json p -> matches (dumps p) = flat_map matches (jstrings p).
Proof.
  induction p as [| b | z | s | l IH | kvs IH] using json_nested_ind; intros Hp.
  - by apply matches_no_tokens.
  - destruct b; by apply matches_no_tokens.
  - apply matches_no_tokens, tokens_int.
  - cbn [dumps jstrings flat_map]. unfold encode_str. rewrite matches_cons_sep by done.
    rewrite matches_escaped by done. done.
  - apply plain_json_arr in Hp. cbn [jstrings]. rewrite dumps_arr_eq.
    rewrite matches_cons_sep by done. rewrite matches_sep by done.
    rewrite matches_join. change (matches []) with (@nil str). rewrite app_nil_r.
    induction l as [|x l IHl]; [done |].
    apply Forall_cons in IH as [IHx IH]. apply Forall_cons in Hp as [Hx Hp].
    cbn [map flat_map]. rewrite flat_map_app. by rewrite IHx, IHl.
  - apply plain_json_obj in Hp. cbn [jstrings]. rewrite dumps_obj_eq.
    rewrite matches_cons_sep by done. rewrite matches_sep by done.
    rewrite matches_join. change (matches []) with (@nil str). rewrite app_nil_r.
    induction kvs as [|[k v] kvs IHl]; [done |].
    apply Forall_cons in IH as [IHx IH]. apply Forall_cons in Hp as [[Hk Hv] Hp].
    cbn [fst snd] in *. cbn [map flat_map]. rewrite matches_member by done.
    rewrite flat_map_app. cbn [flat_map]. rewrite IHx by done. rewrite IHl by done.
    by rewrite <- !app_assoc.
Qed.

(** ** Identifier rewriting: the round trip *)

Lemma uuid_char_plain (c : ascii) : is_uuid_char c = true -> plain_char c = true.
Proof. destruct c as [[] [] [] [] [] [] [] []]; intros H; done. Qed.

Lemma plain_scan (g : str -> str) (s : str) :
  keeps_uuid g -> plain_str s -> plain_str (scan g s).
Proof.
  intros Hg. induction s as [| s Hs IH | c s Hs IH] using tokens_ind; intros Hp.
  - done.
  - rewrite scan_match by done. apply Forall_app. split.
    + eapply Forall_impl; [apply is_uuid_chars, Hg, is_uuid_take, Hs |].
      apply uuid_char_plain.
    + apply IH. by apply Forall_drop.
  - rewrite scan_nomatch by done. apply Forall_cons in Hp as [Hc Hp].
    constructor; [done | by apply IH].
Qed.

Lemma plain_jmap (g : str -> str) (p : json) :
  keeps_uuid g -> plain_json p -> plain_json (jmap (scan g) p).
Proof.
  intros Hg. induction p as [| b | z | s | l IH | kvs IH] using json_nested_ind; intros Hp;
    try done.
  - by apply plain_scan.
  - cbn [jmap]. apply plain_json_arr. apply plain_json_arr in Hp.
    induction l as [|x l IHl]; [constructor |].
    apply Forall_cons in IH as [IHx IH]. apply Forall_cons in Hp as [Hx Hp].
    constructor; [by apply IHx | by apply IHl].
  - cbn [jmap]. apply plain_json_obj. apply plain_json_obj in Hp.
    induction kvs as [|[k v] kvs IHl]; [constructor |].
    apply Forall_cons in IH as [IHx IH]. apply Forall_cons in Hp as [[Hk Hv] Hp].
    constructor; [| by apply IHl]. split; [by apply plain_scan | by apply IHx].
Qed.

Lemma NoDup_map_on {A B} (f : A -> B) (l : list A) :
  (forall x y, In x l -> In y l -> f x = f y -> x = y) -> NoDup l -> NoDup (map f l).
Proof.
  intros Hf Hl. induction Hl as [|x l Hx Hl IH]; [constructor |].
  simpl. constructor.
  - intros Hin. apply list_elem_of_In, in_map_iff in Hin as (y & Hy & Hin).
    apply Hx. apply list_elem_of_In. rewrite (Hf x y); [done | by left | by right | done].
  - apply IH. intros a b Ha Hb. apply Hf; by right.
Qed.

Lemma wf_jmap (h : str -> str) (p : json) :
  (forall x y, In x (jstrings p) -> In y (jstrings p) -> h x = h y -> x = y) ->
  wf_json p -> wf_json (jmap h p).
Proof.
  induction p as [| b | z | s | l IH | kvs IH] using json_nested_ind; intros Hh Hwf;
    try done.
  - cbn [jmap]. apply wf_json_arr. apply wf_json_arr in Hwf. cbn [jstrings] in Hh.
    induction l as [|x l IHl]; [constructor |].
    apply Forall_cons in IH as [IHx IH]. apply Forall_cons in Hwf as [Hx Hwf].
    cbn [flat_map] in Hh. constructor.
    + apply IHx; [| done]. intros a b Ha Hb. apply Hh; apply in_or_app; by left.
    + apply IHl; [done | | done]. intros a b Ha Hb. apply Hh; apply in_or_app; by right.
  - cbn [jmap]. apply wf_json_obj. apply wf_json_obj in Hwf as [Hnd Hwf].
    cbn [jstrings] in Hh. split.
    + rewrite map_map.
      replace (map (fun x => fst (let '(k, v) := x in (h k, jmap h v))) kvs)
        with (map h (map fst kvs)).
      2: { rewrite map_map. apply map_ext. by intros [k v]. }
      apply NoDup_map_on; [| done].
      assert (Hk : forall k, In k (map fst kvs) ->
                In k (flat_map (fun kv => let '(k, v) := kv in k :: jstrings v) kvs)).
      { intros k Hin. apply in_map_iff in Hin as ([k' v] & <- & Hin).
        apply in_flat_map. exists (k', v). split; [done | by left]. }
      intros a b Ha Hb. apply Hh; by apply Hk.
    + induction kvs as [|[k v] kvs IHl]; [constructor |].
      apply Forall_cons in IH as [IHx IH]. apply Forall_cons in Hwf as [Hx Hwf].
      apply NoDup_cons in Hnd as [_ Hnd].
      cbn [flat_map] in Hh. constructor.
      * cbn [snd] in *. apply IHx; [| done].
        intros a b Ha Hb. apply Hh; apply in_or_app; left; by right.
      * apply IHl; [done | | done | done].
        intros a b Ha Hb. apply Hh; apply in_or_app; by right.
Qed.

Lemma keeps_uuid_total (f : str -> str) : keeps_uuid (total f).
Proof.
  intros u Hu. unfold total. by case_bool_decide.
Qed.

Lemma update_ids_is_scan (m : gmap str str) (p : json) :
  update_ids m p = json_decoder.loads (scan (mapped m) (dumps p)).
Proof. unfold update_ids. by rewrite sub_uuid_is_scan. Qed.

Lemma ids_of_matches (p : json) : ids_of p = matches (dumps p).
Proof. apply findall_uuid_is_matches. Qed.






(** * More properties *)

(** ** Identifier rewriting on payloads *)

Lemma scan_fixed (m : gmap str str) (s : str) :
  (forall u, In u (matches s) -> m !! u = None) -> scan (mapped m) s = s.
Proof.
  intros Hm. rewrite (scan_ext _ (fun u => u)); [apply scan_id |].
  intros u Hu. unfold mapped. by rewrite (Hm u Hu).
Qed.

Lemma update_ids_fixed (m : gmap str str) (p : json) :
  wf_json p -> (forall u, In u (ids_of p) -> m !! u = None) -> update_ids m p = Ret p.
Proof.
  intros Hwf Hm. rewrite update_ids_is_scan, scan_fixed; [by apply loads_dumps |].
  intros u Hu. apply Hm. by rewrite ids_of_matches.
Qed.

(** X1: A mapping that holds none of the ids of the payload changes
    nothing: [update_ids] returns the payload as it is. *)
Theorem update_ids_without_match (m : gmap str str) (p : json) :
  wf_json p ->
  (forall u, In u (ids_of p) -> m !! u = None) ->
  update_ids m p = Ret p.
Proof.
  intros Hwf Hm. rewrite update_ids_is_scan, scan_fixed; [by apply loads_dumps |].
  intros u Hu. apply Hm. by rewrite ids_of_matches.
Qed.

Lemma update_ids_without_match_witness :
  update_ids {[ id_2 := id_1 ]}
    (JObj [(chars "ref", JStr id_1); (chars "n", JInt 3)])
  = Ret (JObj [(chars "ref", JStr id_1); (chars "n", JInt 3)]).
Proof.
  apply (update_ids_without_match {[ id_2 := id_1 ]}
           (JObj [(chars "ref", JStr id_1); (chars "n", JInt 3)])).
  - apply wf_json_obj. split; [| repeat constructor].
    simpl. apply NoDup_cons. split; [| apply NoDup_singleton].
    intros H. apply list_elem_of_singleton in H. discriminate H.
  - assert (E : ids_of (JObj [(chars "ref", JStr id_1); (chars "n", JInt 3)]) = [id_1])
      by by vm_compute.
    rewrite E. intros u [<- | []]. by vm_compute.
Defined.

(** A left inverse of [f] on the list [l]. *)
Lemma left_inverse_on (f : str -> str) (l : list str) :
  (forall x y, In x l -> In y l -> f x = f y -> x = y) ->
  exists g, forall x, In x l -> g (f x) = x.
Proof.
  intros Hinj.
  exists (fun v => default v (List.find (fun x => bool_decide (f x = v)) l)).
  intros x Hx.
  destruct (List.find (fun x0 => bool_decide (f x0 = f x)) l) as [y |] eqn:E; simpl.
  - apply find_some in E as [Hy E]. apply bool_decide_eq_true in E. by apply Hinj.
  - exfalso. pose proof (find_none _ _ E x Hx) as H. simpl in H.
    by rewrite bool_decide_eq_true_2 in H.
Qed.

(** Rewriting is one-to-one on the strings whose ids it maps one-to-one
    to ids. *)
Lemma scan_inj_on (f : str -> str) (l : list str) (x y : str) :
  (forall u, In u l -> is_uuid (f u)) ->
  (forall u v, In u l -> In v l -> f u = f v -> u = v) ->
  (forall u, In u (matches x) -> In u l) ->
  (forall u, In u (matches y) -> In u l) ->
  scan f x = scan f y -> x = y.
Proof.
  intros Hu Hinj Hx Hy E.
  destruct (left_inverse_on f l Hinj) as (g & Hg).
  rewrite <- (scan_round_trip f g x), <- (scan_round_trip f g y).
  - by rewrite E.
  - intros u H. split; [apply Hu | apply Hg]; by apply Hy.
  - intros u H. split; [apply Hu | apply Hg]; by apply Hx.
Qed.

Lemma matches_of_string (p : json) (s u : str) :
  plain_json p -> In s (jstrings p) -> In u (matches s) -> In u (ids_of p).
Proof.
  intros Hp Hs Hu. rewrite ids_of_matches, matches_dumps by done.
  apply in_flat_map. eauto.
Qed.

(** X2: With a mapping that sends the ids of a plain payload one-to-one to
    ids, [update_ids] returns the payload with the ids of every string,
    keys included, replaced; the ids of the result are the images of the
    ids of the payload, in order. *)
Theorem update_ids_rewrites_strings (m : gmap str str) (p : json) :
  wf_json p -> plain_json p ->
  (forall u, In u (ids_of p) -> is_uuid (mapped m u)) ->
  (forall u v, In u (ids_of p) -> In v (ids_of p) -> mapped m u = mapped m v -> u = v) ->
  update_ids m p = Ret (jmap (scan (mapped m)) p)
  /\ ids_of (jmap (scan (mapped m)) p) = map (mapped m) (ids_of p).
Proof.
  intros Hwf Hp Hu Hinj.
  set (g := total (mapped m)).
  assert (Hg : forall u, In u (ids_of p) -> mapped m u = g u).
  { intros u H. unfold g, total. by rewrite bool_decide_eq_true_2 by by apply Hu. }
  assert (Hs : forall s, In s (jstrings p) -> scan (mapped m) s = scan g s).
  { intros s H. apply scan_ext. intros u H'. apply Hg. by apply (matches_of_string p s). }
  assert (Hj : jmap (scan (mapped m)) p = jmap (scan g) p).
  { clear -Hs. induction p as [| b | z | s | l IH | kvs IH] using json_nested_ind; try done.
    - simpl. f_equal. apply Hs. by left.
    - simpl. f_equal. apply map_ext_in. intros x Hx.
      rewrite Forall_forall in IH. apply IH; [by apply list_elem_of_In |].
      intros s H. apply Hs. simpl. apply in_flat_map. eauto.
    - simpl. f_equal. apply map_ext_in. intros [k v] Hx.
      rewrite Forall_forall in IH. f_equal.
      + apply Hs. simpl. apply in_flat_map. exists (k, v). split; [done | by left].
      + apply (IH (k, v)); [by apply list_elem_of_In |].
        intros s H. apply Hs. simpl. apply in_flat_map. exists (k, v).
        split; [done | by right]. }
  assert (Hd : scan (mapped m) (dumps p) = dumps (jmap (scan g) p)).
  { rewrite (scan_ext _ g).
    - apply scan_dumps; [apply keeps_uuid_total | done].
    - intros u H. apply Hg. by rewrite ids_of_matches. }
  assert (Hwf' : wf_json (jmap (scan g) p)).
  { apply wf_jmap; [| done]. intros x y Hx Hy E.
    apply (scan_inj_on (mapped m) (ids_of p) x y); try done.
    - intros u. by apply matches_of_string.
    - intros u. by apply matches_of_string.
    - by rewrite (Hs x), (Hs y). }
  rewrite Hj. split.
  - rewrite update_ids_is_scan, Hd. by apply loads_dumps.
  - rewrite (ids_of_matches (jmap _ _)), <- Hd, (ids_of_matches p).
    apply matches_scan. intros u H. apply Hu. by rewrite ids_of_matches.
Qed.

Lemma update_ids_rewrites_strings_witness :
  let m : gmap str str := {[ id_1 := id_2 ]} in
  let p := JObj [(chars "ref", JStr id_1); (chars "n", JInt 3)] in
  update_ids m p = Ret (jmap (scan (mapped m)) p)
  /\ ids_of (jmap (scan (mapped m)) p) = map (mapped m) (ids_of p).
Proof.
  intros m p.
  assert (E : ids_of p = [id_1]) by by vm_compute.
  apply (update_ids_rewrites_strings m p).
  - apply wf_json_obj. split; [| repeat constructor].
    simpl. apply NoDup_cons. split; [| apply NoDup_singleton].
    intros H. apply list_elem_of_singleton in H. discriminate H.
  - apply plain_json_obj. repeat constructor.
  - rewrite E. intros u [<- | []]. by vm_compute.
  - rewrite E. by intros u v [<- | []] [<- | []] _.
Defined.

(** ** References to other items *)

Lemma plain_json_filter (P : str * json -> Prop) `{forall kv, Decision (P kv)}
    (d : list (str * json)) :
  plain_json (JObj d) -> plain_json (JObj (filter P d)).
Proof.
  rewrite !plain_json_obj. intros Hd. apply Forall_forall. intros kv Hkv.
  apply list_elem_of_filter in Hkv as [_ Hkv]. rewrite Forall_forall in Hd. by apply Hd.
Qed.

Lemma ids_of_str (k : str) : plain_str k -> ids_of (JStr k) = matches k.
Proof.
  intros Hk. rewrite ids_of_matches, matches_dumps by done. simpl. by rewrite app_nil_r.
Qed.

Lemma ids_of_obj (d : list (str * json)) (u : str) :
  plain_json (JObj d) ->
  In u (ids_of (JObj d))
  <-> exists k v, In (k, v) d /\ (In u (ids_of (JStr k)) \/ In u (ids_of v)).
Proof.
  intros Hp. rewrite ids_of_matches, matches_dumps by done.
  apply plain_json_obj in Hp. rewrite Forall_forall in Hp.
  cbn [jstrings]. rewrite in_flat_map. split.
  - intros (s & Hs & Hu). apply in_flat_map in Hs as ([k v] & Hkv & Hs).
    destruct (Hp (k, v)) as [Hk Hv]; [by apply list_elem_of_In |]. cbn [fst snd] in *.
    exists k, v. split; [done |]. destruct Hs as [<- | Hs].
    + left. by rewrite ids_of_str.
    + right. rewrite ids_of_matches, matches_dumps by done. apply in_flat_map. eauto.
  - intros (k & v & Hkv & Hu).
    destruct (Hp (k, v)) as [Hk Hv]; [by apply list_elem_of_In |]. cbn [fst snd] in *.
    destruct Hu as [Hu | Hu].
    + exists k. split; [| by rewrite <- ids_of_str].
      apply in_flat_map. exists (k, v). split; [done | by left].
    + rewrite ids_of_matches, matches_dumps in Hu by done.
      apply in_flat_map in Hu as (s & Hs & Hu). exists s. split; [| done].
      apply in_flat_map. exists (k, v). split; [done | by right].
Qed.

(** X3: [id_references_set] of a plain payload holds the ids found in the
    members other than the one under [id_tag], in their keys and in their
    values; every reference is an identifier of 36 characters. *)
Theorem id_references_set_by_member (c : ConfigItem.cls) (d : list (str * json)) :
  plain_json (JObj d) ->
  exists refs,
    ConfigItem.id_references_set c (JObj d) = Ret refs
    /\ (forall u, u ∈ refs
                  <-> exists k v, In (k, v) d /\ ConfigItem.id_tag c <> Some k
                                  /\ (In u (ids_of (JStr k)) \/ In u (ids_of v)))
    /\ (forall u, u ∈ refs -> is_uuid u /\ length u = 36).
Proof.
  intros Hp. eexists. split; [reflexivity |].
  fold (ids_of (JObj (filter (fun kv => ConfigItem.id_tag c <> Some kv.1) d))).
  pose proof (plain_json_filter (fun kv => ConfigItem.id_tag c <> Some kv.1) d Hp) as Hp'.
  split.
  - intros u. rewrite elem_of_list_to_set, list_elem_of_In, ids_of_obj by done. split.
    + intros (k & v & Hkv & Hu). apply list_elem_of_In, list_elem_of_filter in Hkv as [Hk Hkv].
      exists k, v. split; [by apply list_elem_of_In | done].
    + intros (k & v & Hkv & Hk & Hu). exists k, v. split; [| done].
      apply list_elem_of_In, list_elem_of_filter. split; [done | by apply list_elem_of_In].
  - intros u Hu. apply elem_of_list_to_set, list_elem_of_In in Hu.
    rewrite ids_of_matches in Hu. apply matches_are_uuids in Hu.
    split; [done | by apply is_uuid_length].
Qed.

Lemma id_references_set_by_member_witness :
  exists refs,
    ConfigItem.id_references_set example_cls
      (JObj [(chars "templateId", JStr id_1); (chars "policy", JStr id_2)]) = Ret refs
    /\ id_2 ∈ refs /\ id_1 ∉ refs.
Proof.
  destruct (id_references_set_by_member example_cls
              [(chars "templateId", JStr id_1); (chars "policy", JStr id_2)])
    as (refs & E & Hm & _).
  { apply plain_json_obj. repeat constructor. }
  exists refs. split; [exact E |]. split.
  - apply Hm. exists (chars "policy"), (JStr id_2). split; [by right; left |].
    split; [discriminate | right; by vm_compute; left].
  - intros H. apply Hm in H as (k & v & [[= <- <-] | [[= <- <-] | []]] & Hk & Hu).
    + by apply Hk.
    + vm_compute in Hu. destruct Hu as [[] | [Hu | []]]. discriminate Hu.
Defined.

(** ** [find_key] *)




(** ** [filename_safe] *)

Lemma sanitize_char_kept (c : ascii) : kept_char (sanitize_char c) = true.
Proof. destruct c as [[] [] [] [] [] [] [] []]; reflexivity. Qed.

Lemma sanitize_char_fixes_kept (c : ascii) : kept_char c = true -> sanitize_char c = c.
Proof. unfold sanitize_char, kept_char. by intros ->. Qed.

Lemma kept_char_no_separator (c : ascii) :
  kept_char c = true -> c <> "/"%char /\ c <> "\"%char /\ c <> "."%char /\ c <> "000"%char.
Proof. intros H. split_and!; intros ->; discriminate H. Qed.

(** X5: [filename_safe] without [lower] always returns a string of the
    length of the name, made of word characters, white space and hyphens
    only, so without any path separator, dot or null character; applied
    to its own result it changes nothing. *)
Theorem filename_safe_idempotent (name : str) :
  exists safe,
    filename_safe name false = Ret safe
    /\ length safe = length name
    /\ Forall (fun c => kept_char c = true) safe
    /\ Forall (fun c => c <> "/"%char /\ c <> "\"%char /\ c <> "."%char /\ c <> "000"%char) safe
    /\ filename_safe safe false = Ret safe.
Proof.
  assert (Hk : Forall (fun c => kept_char c = true) (map sanitize_char name)).
  { rewrite Forall_map. apply Forall_forall. intros c _. apply sanitize_char_kept. }
  exists (map sanitize_char name).
  split; [apply filename_safe_is_map |]. split; [| split; [exact Hk | split]].
  - by rewrite length_map.
  - eapply Forall_impl; [exact Hk |]. intros c. apply kept_char_no_separator.
  - rewrite filename_safe_is_map. f_equal.
    induction Hk as [|c s Hc _ IH]; [done |]. simpl.
    by rewrite IH, sanitize_char_fixes_kept.
Qed.

(** ** [UpdateEval] *)

(** X6: No response asks both for templates to be attached again and for
    policies to be activated again.  The response to a policy update, a
    list, never asks for the first, asks for the second exactly when
    the list is not empty, and has no affected templates to give:
    [templates_affected_iter] raises [AttributeError]. *)
Theorem update_eval_reattach_excludes_reactivate (data : json) :
  ~ (UpdateEval.need_reattach (UpdateEval.init data) = Ret true
     /\ UpdateEval.need_reactivate (UpdateEval.init data) = Ret true)
  /\ (forall l,
        UpdateEval.need_reattach (UpdateEval.init (JArr l)) = Ret false
        /\ UpdateEval.need_reactivate (UpdateEval.init (JArr l)) = Ret (negb (bool_decide (l = [])))
        /\ UpdateEval.templates_affected_iter (UpdateEval.init (JArr l)) = Raise AttributeError).
Proof.
  split.
  - unfold UpdateEval.need_reattach, UpdateEval.need_reactivate.
    destruct (UpdateEval.is_policy (UpdateEval.init data)); simpl; intros [H1 H2]; discriminate.
  - intros l. split; [done |]. split; [| done].
    unfold UpdateEval.need_reactivate. simpl. by destruct l.
Qed.

(** X7: A response whose [data] member is [None] makes [need_reattach]
    raise [TypeError]; one with a dictionary there is asked for the key
    [processId] in that dictionary, not in the response itself. *)
Theorem update_eval_reads_data_member (d : list (str * json)) (inner : json) :
  dict_get (chars "data") d = Some inner ->
  UpdateEval.data (UpdateEval.init (JObj d)) = inner
  /\ UpdateEval.need_reattach (UpdateEval.init (JObj d)) = py_contains (chars "processId") inner
  /\ (inner = JNull -> UpdateEval.need_reattach (UpdateEval.init (JObj d)) = Raise TypeError).
Proof.
  intros H.
  assert (E : UpdateEval.init (JObj d) = UpdateEval.Make false true inner).
  { unfold UpdateEval.init. rewrite H. by rewrite bool_decide_eq_true_2 by eauto. }
  rewrite E. split; [done |]. split; [done |]. by intros ->.
Qed.

Lemma update_eval_reads_data_member_witness :
  UpdateEval.need_reattach
    (UpdateEval.init (JObj [(chars "processId", JStr (chars "p1")); (chars "data", JNull)]))
  = Raise TypeError.
Proof.
  apply (update_eval_reads_data_member
           [(chars "processId", JStr (chars "p1")); (chars "data", JNull)] JNull);
    reflexivity.
Defined.

(** ** [ApiPath] with too many paths *)

Lemma setattrs_three (self : ApiPath.t) (o1 o2 o3 : option str)
    (rest : list (option str * option str)) :
  ApiPath.setattrs self
    ((Some (chars "post"), o1) :: (Some (chars "put"), o2)
       :: (Some (chars "delete"), o3) :: rest)
  = ApiPath.setattrs (ApiPath.Make (ApiPath.get self) o1 o2 o3) rest.
Proof. reflexivity. Qed.

(** X8: With more than three paths after [get], the constructor of
    [ApiPath] uses the last path as the name of a field.  It raises
    [TypeError] if that path is [None] or the name [__class__], and
    [AttributeError] for every other name that is not the name of a
    slot. *)
Theorem api_path_too_many_paths (g o1 o2 o3 o4 : option str) (rest : list (option str)) :
  let last_op := default o4 (last rest) in
  (last_op = None -> ApiPath.init g (o1 :: o2 :: o3 :: o4 :: rest) = Raise TypeError)
  /\ (last_op = Some (chars "__class__") ->
      ApiPath.init g (o1 :: o2 :: o3 :: o4 :: rest) = Raise TypeError)
  /\ (forall f, last_op = Some f -> ~ In f ApiPath.slots -> f <> chars "__class__" ->
                ApiPath.init g (o1 :: o2 :: o3 :: o4 :: rest) = Raise AttributeError).
Proof.
  intros last_op.
  assert (E : ApiPath.init g (o1 :: o2 :: o3 :: o4 :: rest)
              = ApiPath.setattrs (ApiPath.Make g o1 o2 o3)
                  ((fun y => (last_op, y)) <$> (o4 :: rest))).
  { unfold ApiPath.init.
    assert (El : default g (last (o1 :: o2 :: o3 :: o4 :: rest)) = last_op).
    { unfold last_op. rewrite !last_cons. by destruct (last rest). }
    rewrite El. reflexivity. }
  rewrite E. split; [| split].
  - intros ->. reflexivity.
  - intros ->. reflexivity.
  - intros f -> Hf Hc. cbn [fmap list_fmap ApiPath.setattrs]. unfold ApiPath.setattr.
    rewrite !decide_False; [done | done | ..]; intros ->; apply Hf;
      unfold ApiPath.slots; simpl; auto.
Qed.

(** ** [is_equal]: what the comparison does not see *)

Lemma concat_perm (l l' : list str) : l ≡ₚ l' -> concat l ≡ₚ concat l'.
Proof.
  induction 1 as [| x l l' _ IH | x y l | l1 l2 l3 _ IH1 _ IH2]; simpl.
  - done.
  - by rewrite IH.
  - rewrite !app_assoc. by rewrite (Permutation_app_comm y x).
  - by rewrite IH1.
Qed.

Lemma join_perm_concat (sep : str) (l : list str) :
  join sep l ≡ₚ concat l ++ concat (replicate (length l - 1) sep).
Proof.
  induction l as [|p l IH]; [done |]. destruct l as [|q l].
  - simpl. by rewrite !app_nil_r.
  - change (join sep (p :: q :: l)) with (p ++ sep ++ join sep (q :: l)).
    rewrite IH.
    replace (length (p :: q :: l) - 1) with (S (length l)) by (simpl; lia).
    replace (length (q :: l) - 1) with (length l) by (simpl; lia).
    change (replicate (S (length l)) sep) with (sep :: replicate (length l) sep).
    change (concat (p :: q :: l)) with (p ++ concat (q :: l)).
    change (concat (sep :: ?x)) with (sep ++ concat x).
    generalize (concat (q :: l)) (concat (replicate (length l) sep)). intros X Y.
    rewrite <- !app_assoc. apply Permutation_app_head.
    rewrite !app_assoc. apply Permutation_app_tail. apply Permutation_app_comm.
Qed.

Lemma join_perm (sep : str) (l l' : list str) : l ≡ₚ l' -> join sep l ≡ₚ join sep l'.
Proof.
  intros H. rewrite !join_perm_concat.
  rewrite (concat_perm l l' H). by rewrite (Permutation_length H).
Qed.

Lemma dumps_obj_perm (d o : list (str * json)) : d ≡ₚ o -> dumps (JObj d) ≡ₚ dumps (JObj o).
Proof.
  intros H. rewrite !dumps_obj_eq. constructor. apply Permutation_app_tail.
  apply join_perm. by apply Permutation_map.
Qed.

Lemma is_equal_true (c : ConfigItem.cls) (d o : list (str * json)) :
  ConfigItem.is_equal c (JObj d) (JObj o) = Ret true
  <-> dumps (JObj (ConfigItem.cmp_dict c d)) ≡ₚ dumps (JObj (ConfigItem.cmp_dict c o)).
Proof.
  rewrite <- py_sorted_eq_iff_perm. unfold ConfigItem.is_equal. split.
  - intros H. injection H as H. by apply bool_decide_eq_true in H.
  - intros H. f_equal. by apply bool_decide_eq_true.
Qed.



(** X10: [is_equal] is an equivalence on dictionaries: every payload equals
    itself and any payload with the same members in another order, the
    result does not depend on the side, and equality carries over a
    chain. *)
Theorem is_equal_equivalence (c : ConfigItem.cls) (d o e : list (str * json)) :
  ConfigItem.is_equal c (JObj d) (JObj d) = Ret true
  /\ (d ≡ₚ o -> ConfigItem.is_equal c (JObj d) (JObj o) = Ret true)
  /\ ConfigItem.is_equal c (JObj d) (JObj o) = ConfigItem.is_equal c (JObj o) (JObj d)
  /\ (ConfigItem.is_equal c (JObj d) (JObj o) = Ret true ->
      ConfigItem.is_equal c (JObj o) (JObj e) = Ret true ->
      ConfigItem.is_equal c (JObj d) (JObj e) = Ret true).
Proof.
  split; [by apply is_equal_true | split; [| split]].
  - intros H. apply is_equal_true, dumps_obj_perm. unfold ConfigItem.cmp_dict.
    by rewrite H.
  - unfold ConfigItem.is_equal. f_equal. apply bool_decide_ext. split; by intros ->.
  - rewrite !is_equal_true. intros H1 H2. by rewrite H1.
Qed.

(** ** [json.loads] after [json.dumps] with an indent *)

Lemma after_item_facts (t : str) :
  after_item t = true ->
  json_decoder.starts_with_digit t = false /\ json_decoder.float_follows t = false.
Proof.
  destruct t as [|c t]; [done |]. simpl. rewrite bool_decide_eq_true.
  change (chars ",]}") with [","%char; "]"%char; "}"%char].
  rewrite !elem_of_cons. intros [-> | [-> | [-> | [-> | H]]]]; try by vm_compute.
  by apply elem_of_nil in H.
Qed.

Lemma parse_int_before (z : Z) (fuel : nat) (t : str) :
  json_decoder.starts_with_digit t = false -> json_decoder.float_follows t = false ->
  json_decoder.parse_value (S fuel) (int_repr z ++ t) = Ret (JInt z, t).
Proof.
  intros H1 H2.
  assert (Hpos : forall p neg,
    json_decoder.scan_int neg (uint_chars (Pos.to_uint p) ++ t)
    = Ret (JInt (if neg then Zneg p else Zpos p), t)).
  { intros p neg. destruct (to_uint_head p) as (c & cs & E & Hc).
    pose proof (uint_chars_digits (Pos.to_uint p)) as Hd.
    unfold json_decoder.scan_int. rewrite E in *. simpl app. simpl in Hd.
    apply andb_true_iff in Hd as [Hd1 Hd2]. rewrite Hd1. cbn [negb].
    destruct (decide (c = "0"%char)) as [? | _]; [done |].
    rewrite app_comm_cons, span_digits_app by (simpl; by rewrite ?Hd1, ?Hd2).
    rewrite H2. rewrite <- E, digits_value_uint, <- Unsigned.of_uint_alt, Unsigned.of_to.
    simpl. by destruct neg. }
  unfold int_repr. destruct z as [|p|p]; cbn [Z.to_int].
  - simpl uint_chars. cbn [app json_decoder.parse_value]. simpl.
    by rewrite H2.
  - destruct (to_uint_head p) as (c & cs & E & Hc). specialize (Hpos p false).
    pose proof (uint_chars_digits (Pos.to_uint p)) as Hd.
    rewrite E in *. simpl in Hd. apply andb_true_iff in Hd as [Hd1 Hd2].
    simpl app in *. cbn [json_decoder.parse_value].
    assert (Hq : c <> QUOTE) by (intros ->; done).
    assert (Hb1 : c <> "{"%char) by (intros ->; done).
    assert (Hb2 : c <> "["%char) by (intros ->; done).
    assert (Hm : c <> "-"%char) by (intros ->; done).
    rewrite !decide_False by done. by rewrite Hd1.
  - cbn [app json_decoder.parse_value].
    rewrite !decide_False by done. rewrite decide_True by done.
    destruct (to_uint_head p) as (c & cs & E & Hc). rewrite <- (Hpos p true).
    pose proof (uint_chars_digits (Pos.to_uint p)) as Hd.
    rewrite E in *. simpl in Hd. apply andb_true_iff in Hd as [Hd1 Hd2].
    simpl app. assert (HI : c <> "I"%char) by (intros ->; done).
    simpl json_decoder.strip_prefix. by rewrite decide_False by done.
Qed.

Lemma skip_ws_spaces (n : nat) (t : str) :
  json_decoder.skip_ws (repeat " "%char n ++ t) = json_decoder.skip_ws t.
Proof. induction n as [|n IH]; [done |]. simpl. exact IH. Qed.

Lemma skip_ws_newline_indent (level : nat) (t : str) :
  json_decoder.skip_ws (newline_indent level ++ t) = json_decoder.skip_ws t.
Proof.
  unfold newline_indent. cbn [app json_decoder.skip_ws].
  change (json_decoder.is_ws LF) with true. cbn iota. apply skip_ws_spaces.
Qed.

Lemma after_item_newline (level : nat) (t : str) : after_item (newline_indent level ++ t) = true.
Proof. reflexivity. Qed.

Lemma dumps_indent_head (level : nat) (v : json) :
  exists c cs, dumps_indent level v = c :: cs /\ value_start c = true.
Proof.
  destruct v as [| [] | z | s | [|x l] | [|kv kvs]]; try (by eexists _, _).
  apply int_repr_head.
Qed.

Lemma skip_ws_dumps_indent (level : nat) (v : json) (t : str) :
  json_decoder.skip_ws (dumps_indent level v ++ t) = dumps_indent level v ++ t.
Proof.
  destruct (dumps_indent_head level v) as (c & cs & -> & H). by apply skip_ws_start.
Qed.

Lemma dumps_indent_length_pos (level : nat) (v : json) : 1 <= length (dumps_indent level v).
Proof. destruct (dumps_indent_head level v) as (c & cs & -> & _). simpl. lia. Qed.

Lemma dumps_indent_arr_eq (level : nat) (x : json) (l : list json) :
  dumps_indent level (JArr (x :: l))
  = "["%char :: newline_indent (S level)
    ++ join (","%char :: newline_indent (S level)) (map (dumps_indent (S level)) (x :: l))
    ++ newline_indent level ++ ["]"%char].
Proof. reflexivity. Qed.

Lemma dumps_indent_obj_eq (level : nat) (kv : str * json) (kvs : list (str * json)) :
  dumps_indent level (JObj (kv :: kvs))
  = "{"%char :: newline_indent (S level)
    ++ join (","%char :: newline_indent (S level)) (map (member_indent (S level)) (kv :: kvs))
    ++ newline_indent level ++ ["}"%char].
Proof. reflexivity. Qed.

Lemma join_head (sep : str) (f : json -> str) (x : json) (l : list json) (t : str) :
  exists r, join sep (map f (x :: l)) ++ t = f x ++ r.
Proof.
  destruct l as [|y l].
  - cbn [map join]. by eexists.
  - change (join sep (map f (x :: y :: l))) with (f x ++ sep ++ join sep (map f (y :: l))).
    rewrite <- !app_assoc. by eexists.
Qed.

Lemma array_loop_indent (value : str -> result (json * str)) (level n : nat) (t : str)
    (l : list json) :
  (forall x t', List.In x l -> after_item t' = true ->
                value (dumps_indent level x ++ t') = Ret (x, t')) ->
  l <> [] ->
  forall fuel acc,
    length l <= fuel ->
    json_decoder.array_loop value fuel
      (join (","%char :: newline_indent level) (map (dumps_indent level) l)
       ++ newline_indent n ++ "]"%char :: t) acc
    = Ret (JArr (rev acc ++ l), t).
Proof.
  induction l as [|x l IH]; intros Hv Hne fuel acc Hf; [done |].
  destruct fuel as [|fuel]; [simpl in Hf; lia |].
  cbn [json_decoder.array_loop]. destruct l as [|y l].
  - cbn [map join]. rewrite Hv by (by left || done). cbn [mbind result_bind].
    rewrite skip_ws_newline_indent. simpl. by rewrite <- ?app_assoc.
  - change (join (","%char :: newline_indent level) (map (dumps_indent level) (x :: y :: l)))
      with (dumps_indent level x ++ (","%char :: newline_indent level)
            ++ join (","%char :: newline_indent level) (map (dumps_indent level) (y :: l))).
    rewrite <- !app_assoc. rewrite Hv by (by left || done). cbn [mbind result_bind].
    rewrite <- app_comm_cons.
    cbn [json_decoder.skip_ws]. change (json_decoder.is_ws ","%char) with false.
    cbn iota. rewrite decide_False by done. rewrite decide_True by done.
    rewrite skip_ws_newline_indent.
    destruct (join_head (","%char :: newline_indent level) (dumps_indent level) y l
                (newline_indent n ++ "]"%char :: t)) as (r & Er).
    rewrite Er at 1. rewrite skip_ws_dumps_indent. rewrite <- Er. rewrite IH.
    + simpl. by rewrite <- ?app_assoc.
    + intros x' t' Hx. apply Hv. by right.
    + done.
    + simpl in *. lia.
Qed.

Lemma member_indent_cons (level : nat) (k : str) (v : json) (r : str) :
  member_indent level (k, v) ++ r
  = QUOTE :: flat_map escape_char k ++ QUOTE :: ":"%char :: " "%char
      :: dumps_indent level v ++ r.
Proof.
  unfold member_indent, encode_str. simpl. rewrite <- !app_assoc. done.
Qed.

Lemma object_loop_member_indent (value : str -> result (json * str)) (level : nat)
    (k : str) (v : json) (r : str) (fuel : nat) (acc : list (str * json)) :
  value (dumps_indent level v ++ r) = Ret (v, r) ->
  json_decoder.object_loop value (S fuel) (member_indent level (k, v) ++ r) acc
  = match json_decoder.skip_ws r with
    | d :: r3 =>
        if decide (d = "}"%char)
        then Ret (JObj (dict_of_pairs (rev ((k, v) :: acc))), r3)
        else if decide (d = ","%char)
        then json_decoder.object_loop value fuel (json_decoder.skip_ws r3) ((k, v) :: acc)
        else Raise JSONDecodeError
    | [] => Raise JSONDecodeError
    end.
Proof.
  intros Hv. rewrite member_indent_cons. cbn [json_decoder.object_loop].
  rewrite decide_True by done. rewrite scan_string_encoded. cbn [mbind result_bind rev app].
  cbn [json_decoder.skip_ws]. change (json_decoder.is_ws ":"%char) with false. cbn iota.
  rewrite decide_True by done.
  change (json_decoder.skip_ws (" "%char :: ?x)) with (json_decoder.skip_ws x).
  rewrite skip_ws_dumps_indent, Hv. done.
Qed.

Lemma members_indent_head (sep : str) (level : nat) (kv : str * json)
    (kvs : list (str * json)) (t : str) :
  exists r, join sep (map (member_indent level) (kv :: kvs)) ++ t = QUOTE :: r.
Proof.
  destruct kv as [k v]. destruct kvs as [|kv kvs].
  - cbn [map join]. rewrite member_indent_cons. by eexists.
  - change (join sep (map (member_indent level) ((k, v) :: kv :: kvs)))
      with (member_indent level (k, v) ++ sep
            ++ join sep (map (member_indent level) (kv :: kvs))).
    rewrite <- !app_assoc, member_indent_cons. by eexists.
Qed.

Lemma object_loop_indent (value : str -> result (json * str)) (level n : nat) (t : str)
    (kvs : list (str * json)) :
  (forall k v t', List.In (k, v) kvs -> after_item t' = true ->
                  value (dumps_indent level v ++ t') = Ret (v, t')) ->
  kvs <> [] ->
  forall fuel acc,
    length kvs <= fuel ->
    json_decoder.object_loop value fuel
      (join (","%char :: newline_indent level) (map (member_indent level) kvs)
       ++ newline_indent n ++ "}"%char :: t) acc
    = Ret (JObj (dict_of_pairs (rev acc ++ kvs)), t).
Proof.
  induction kvs as [|[k v] kvs IH]; intros Hv Hne fuel acc Hf; [done |].
  destruct fuel as [|fuel]; [simpl in Hf; lia |].
  destruct kvs as [|kv kvs].
  - cbn [map join]. rewrite object_loop_member_indent by (eapply Hv; [by left | done]).
    rewrite skip_ws_newline_indent.
    cbn [json_decoder.skip_ws]. change (json_decoder.is_ws "}"%char) with false. cbn iota.
    by rewrite decide_True by done.
  - change (join (","%char :: newline_indent level)
              (map (member_indent level) ((k, v) :: kv :: kvs)))
      with (member_indent level (k, v) ++ (","%char :: newline_indent level)
            ++ join (","%char :: newline_indent level)
                 (map (member_indent level) (kv :: kvs))).
    rewrite <- !app_assoc. rewrite object_loop_member_indent by (eapply Hv; [by left | done]).
    rewrite <- app_comm_cons.
    cbn [json_decoder.skip_ws]. change (json_decoder.is_ws ","%char) with false. cbn iota.
    rewrite decide_False by done. rewrite decide_True by done.
    rewrite skip_ws_newline_indent.
    destruct (members_indent_head (","%char :: newline_indent level) level kv kvs
                (newline_indent n ++ "}"%char :: t)) as (r & Er).
    rewrite Er at 1. change (json_decoder.skip_ws (QUOTE :: r)) with (QUOTE :: r).
    rewrite <- Er. rewrite IH.
    + simpl. by rewrite <- ?app_assoc.
    + intros k' v' t' Hx. apply (Hv k'). by right.
    + done.
    + simpl in *. lia.
Qed.

Lemma member_indent_length (level : nat) (k : str) (v : json) :
  length (dumps_indent level v) + 1 <= length (member_indent level (k, v)).
Proof. unfold member_indent, encode_str. simpl. rewrite !length_app. simpl. lia. Qed.

(** The decoder reads back what [dumps] wrote with an indent. *)
Lemma parse_dumps_indent (v : json) :
  wf_json v ->
  forall level fuel t,
    length (dumps_indent level v) <= fuel -> after_item t = true ->
    json_decoder.parse_value fuel (dumps_indent level v ++ t) = Ret (v, t).
Proof.
  induction v as [| b | z | s | l IH | kvs IH] using json_nested_ind;
    intros Hwf level fuel t Hf Ht.
  - destruct fuel as [|fuel]; [simpl in Hf; lia |]. reflexivity.
  - destruct fuel as [|fuel]; [simpl in Hf; destruct b; simpl in Hf; lia |].
    by destruct b.
  - pose proof (dumps_indent_length_pos level (JInt z)).
    destruct fuel as [|fuel]; [lia |].
    apply after_item_facts in Ht as [H1 H2]. by apply parse_int_before.
  - destruct fuel as [|fuel]; [simpl in Hf; lia |].
    cbn [dumps_indent dumps]. unfold encode_str. simpl app. cbn [json_decoder.parse_value].
    rewrite decide_True by done. rewrite <- app_assoc. simpl app.
    by rewrite scan_string_encoded.
  - apply wf_json_arr in Hwf.
    destruct fuel as [|fuel]; [pose proof (dumps_indent_length_pos level (JArr l)); lia |].
    destruct l as [|x l]; [reflexivity |].
    rewrite dumps_indent_arr_eq in *.
    cbn [app]. rewrite <- !app_assoc. cbn [app]. cbn [json_decoder.parse_value].
    rewrite !decide_False by done. rewrite decide_True by done.
    rewrite skip_ws_newline_indent.
    destruct (join_head (","%char :: newline_indent (S level)) (dumps_indent (S level)) x l
                (newline_indent level ++ "]"%char :: t)) as (r & Er).
    destruct (dumps_indent_head (S level) x) as (c & cs & Ec & Hc).
    pose proof (value_start_facts c Hc) as (Hw & Hb1 & Hb2).
    remember (join (","%char :: newline_indent (S level))
                (map (dumps_indent (S level)) (x :: l))
              ++ newline_indent level ++ "]"%char :: t) as J eqn:EJ.
    assert (Hs : json_decoder.skip_ws J = J) by (rewrite Er; apply skip_ws_dumps_indent).
    assert (Eh : J = c :: cs ++ r) by (by rewrite Er, Ec).
    rewrite Hs, Eh. rewrite decide_False by done. rewrite <- Eh. subst J.
    apply (array_loop_indent _ (S level) level t (x :: l)); [| done |].
    + intros y t' Hy Ht'. rewrite Forall_forall in IH, Hwf.
      apply IH; [by apply list_elem_of_In | by apply Hwf, list_elem_of_In | | done].
      pose proof (join_length_ge (","%char :: newline_indent (S level))
                    (dumps_indent (S level) y) (map (dumps_indent (S level)) (x :: l))
                    (in_map (dumps_indent (S level)) _ _ Hy)) as Hj.
      cbn [length] in Hf. rewrite !length_app in Hf. lia.
    + rewrite !length_app. etransitivity; [| apply Nat.le_add_l].
      etransitivity; [| apply Nat.le_add_r].
      rewrite <- (length_map (dumps_indent (S level)) (x :: l)). apply join_length_parts.
      apply Forall_forall. intros p Hp. apply list_elem_of_In, in_map_iff in Hp as (y & <- & _).
      apply dumps_indent_length_pos.
  - apply wf_json_obj in Hwf as [Hnd Hwf].
    destruct fuel as [|fuel]; [pose proof (dumps_indent_length_pos level (JObj kvs)); lia |].
    destruct kvs as [|[k v] kvs]; [reflexivity |].
    rewrite dumps_indent_obj_eq in *.
    cbn [app]. rewrite <- !app_assoc. cbn [app]. cbn [json_decoder.parse_value].
    rewrite !decide_False by done. rewrite decide_True by done.
    rewrite skip_ws_newline_indent.
    destruct (members_indent_head (","%char :: newline_indent (S level)) (S level) (k, v) kvs
                (newline_indent level ++ "}"%char :: t)) as (r & Er).
    remember (join (","%char :: newline_indent (S level))
                (map (member_indent (S level)) ((k, v) :: kvs))
              ++ newline_indent level ++ "}"%char :: t) as J eqn:EJ.
    assert (Hs : json_decoder.skip_ws J = J) by by rewrite Er.
    rewrite Hs, Er. rewrite decide_False by done. rewrite <- Er. subst J.
    rewrite (object_loop_indent _ (S level) level t ((k, v) :: kvs)); [| | done |].
    + simpl rev. simpl app. by rewrite dict_of_pairs_nodup.
    + intros k' v' t' Hy Ht'. rewrite Forall_forall in IH, Hwf.
      apply (IH (k', v')); [by apply list_elem_of_In | by apply (Hwf (k', v')), list_elem_of_In | | done].
      pose proof (join_length_ge (","%char :: newline_indent (S level))
                    (member_indent (S level) (k', v'))
                    (map (member_indent (S level)) ((k, v) :: kvs))
                    (in_map (member_indent (S level)) _ _ Hy)) as Hj.
      pose proof (member_indent_length (S level) k' v'). cbn [snd].
      cbn [length] in Hf. rewrite !length_app in Hf. lia.
    + rewrite !length_app. etransitivity; [| apply Nat.le_add_l].
      etransitivity; [| apply Nat.le_add_r].
      rewrite <- (length_map (member_indent (S level)) ((k, v) :: kvs)). apply join_length_parts.
      apply Forall_forall. intros p Hp.
      apply list_elem_of_In, in_map_iff in Hp as ([k' v'] & <- & _).
      pose proof (member_indent_length (S level) k' v'). lia.
Qed.

Lemma loads_dumps_indent (v : json) :
  wf_json v -> json_decoder.loads (dumps_indent 0 v) = Ret v.
Proof.
  intros Hwf. unfold json_decoder.loads.
  pose proof (skip_ws_dumps_indent 0 v []) as Hs. rewrite app_nil_r in Hs. rewrite Hs.
  pose proof (parse_dumps_indent v Hwf 0 (S (length (dumps_indent 0 v))) []
                ltac:(lia) eq_refl) as Hp.
  rewrite app_nil_r in Hp. by rewrite Hp.
Qed.

(** ** [load] after [save] *)

Lemma read_file_written (p : list str) (text : str) (st : store) :
  read_file p (write_file p text st) = ReadText text.
Proof. unfold read_file, write_file. simpl. by rewrite lookup_insert_eq. Qed.

Lemma load_json_dumps_indent (data : json) :
  wf_json data -> load_json (dumps_indent 0 data) = Loaded data.
Proof. intros H. unfold load_json. by rewrite loads_dumps_indent. Qed.

(** X11: [load] gives back the data [save] wrote: after a [save] that
    returned [True], a [load] with the same directory, names and
    [ext_name] returns an instance holding the saved data, for every
    payload whose dictionaries have distinct keys. *)
Theorem load_returns_saved_data
    (c : ConfigItem.cls) (cls_name : str) (data : json) (node_dir : str) (ext_name : bool)
    (item_name item_id : option str) (raise_not_found : bool) (st st' : store) :
  wf_json data ->
  ConfigItem.save c data node_dir ext_name item_name item_id st = (Ret true, st') ->
  ConfigItem.load c cls_name node_dir ext_name item_name item_id raise_not_found true st'
  = Loaded data.
Proof.
  intros Hwf. unfold ConfigItem.save, ConfigItem.load.
  destruct (ApiItem.is_empty data) as [[] | e |]; try (intros [=]; fail).
  destruct (ConfigItem.get_filename c ext_name item_name item_id) as [file | e |];
    try (intros [=]; fail).
  intros [= <-]. rewrite read_file_written. by apply load_json_dumps_indent.
Qed.

Lemma load_returns_saved_data_witness :
  exists st',
    ConfigItem.save example_cls
      (JObj [(chars "templateName", JStr (chars "t1")); (chars "vpn", JArr [JInt 1; JInt 2])])
      (chars "node") false (Some (chars "t1")) (Some id_1) (Store ∅ ∅) = (Ret true, st')
    /\ ConfigItem.load example_cls (chars "DeviceTemplate") (chars "node") false
         (Some (chars "t1")) (Some id_1) false true st'
       = Loaded (JObj [(chars "templateName", JStr (chars "t1"));
                       (chars "vpn", JArr [JInt 1; JInt 2])]).
Proof.
  eexists. split; [reflexivity |].
  apply (load_returns_saved_data example_cls (chars "DeviceTemplate")
           (JObj [(chars "templateName", JStr (chars "t1")); (chars "vpn", JArr [JInt 1; JInt 2])])
           (chars "node") false (Some (chars "t1")) (Some id_1) false (Store ∅ ∅)).
  - apply wf_json_obj. split; [| repeat constructor].
    simpl. apply NoDup_cons. split; [| apply NoDup_singleton].
    intros H. apply list_elem_of_singleton in H. discriminate H.
  - reflexivity.
Defined.

(** ** [load] without a file *)

Lemma not_found_message_eq (cls_name : str) (item_name item_id : option str) :
  ConfigItem.not_found_message cls_name item_name item_id
  = Ret (cls_name ++ chars " file not found"
         ++ match item_name, item_id with
            | Some name, Some id => chars ": " ++ name ++ chars ", " ++ id
            | _, _ => []
            end).
Proof.
  unfold ConfigItem.not_found_message.
  destruct item_name as [name |], item_id as [id |]; unfold str_format; simpl; f_equal;
    rewrite <- ?app_assoc; reflexivity.
Qed.

(** X12: Where there is no file, [load] returns [None], or with
    [raise_not_found] raises [FileNotFoundError] with a message that
    names the class and, when both are given, the name and the id of
    the item, whatever characters they hold.  A file that is empty
    raises [ModelException]. *)
Theorem load_without_file
    (c : ConfigItem.cls) (cls_name : str) (node_dir : str) (ext_name : bool)
    (item_name item_id : option str) (use_root_dir : bool) (st : store) (file : str) :
  let dir_path :=
    if use_root_dir
    then ConfigItem.root_dir c :: node_dir :: ConfigItem.store_path c
    else node_dir :: ConfigItem.store_path c in
  ConfigItem.get_filename c ext_name item_name item_id = Ret file ->
  (read_file (dir_path ++ [file]) st = ReadNotFound ->
   ConfigItem.load c cls_name node_dir ext_name item_name item_id false use_root_dir st
   = LoadNone
   /\ ConfigItem.load c cls_name node_dir ext_name item_name item_id true use_root_dir st
      = LoadFileNotFoundError
          (cls_name ++ chars " file not found"
           ++ match item_name, item_id with
              | Some name, Some id => chars ": " ++ name ++ chars ", " ++ id
              | _, _ => []
              end))
  /\ (forall raise_not_found,
        read_file (dir_path ++ [file]) st = ReadText [] ->
        ConfigItem.load c cls_name node_dir ext_name item_name item_id raise_not_found
          use_root_dir st
        = LoadModelException).
Proof.
  intros dir_path Hf. unfold ConfigItem.load. rewrite Hf. fold dir_path. split.
  - intros ->. by rewrite not_found_message_eq.
  - by intros raise_not_found ->.
Qed.

Lemma load_without_file_witness :
  ConfigItem.load example_cls (chars "DeviceTemplate") (chars "node") false
    (Some (chars "t{1}")) (Some id_1) true true (Store ∅ ∅)
  = LoadFileNotFoundError
      (chars "DeviceTemplate file not found: t{1}, 11111111-1111-1111-1111-111111111111").
Proof.
  apply (load_without_file example_cls (chars "DeviceTemplate") (chars "node") false
           (Some (chars "t{1}")) (Some id_1) true (Store ∅ ∅) (chars "t_1_.json"));
    reflexivity.
Defined.

(** ** [ServerInfo]: [save] and [load] *)

(** X13: [ServerInfo.save] always writes and returns [True], even with no
    data at all; a [load] from the same directory then returns an
    instance with the saved data.  Where there is no file [load]
    returns [None]. *)
Theorem server_info_load_returns_saved_data
    (data : list (str * json)) (node_dir : str) (st : store) :
  wf_json (JObj data) ->
  fst (ServerInfo.save data node_dir st) = Ret true
  /\ ServerInfo.load node_dir (snd (ServerInfo.save data node_dir st)) = Loaded data
  /\ (read_file [ServerInfo.root_dir; node_dir; ServerInfo.store_file] st = ReadNotFound ->
      ServerInfo.load node_dir st = LoadNone).
Proof.
  intros Hwf. split; [done |]. split.
  - unfold ServerInfo.load, ServerInfo.save. cbn [snd].
    rewrite read_file_written. by rewrite load_json_dumps_indent.
  - unfold ServerInfo.load. simpl. by intros ->.
Qed.

Lemma server_info_load_returns_saved_data_witness :
  ServerInfo.load (chars "node") (snd (ServerInfo.save [] (chars "node") (Store ∅ ∅)))
  = Loaded [].
Proof.
  apply (server_info_load_returns_saved_data [] (chars "node") (Store ∅ ∅)).
  apply wf_json_obj. split; constructor.
Defined.

(** ** The text of an item *)

(** X14: [str] and [repr] of an item are JSON texts of its data:
    [json.loads] gives the data back from either, for every payload
    whose dictionaries have distinct keys. *)
Theorem item_text_decodes_to_data (data : json) :
  wf_json data ->
  json_decoder.loads (ApiItem.str_ data) = Ret data
  /\ json_decoder.loads (ApiItem.repr data) = Ret data.
Proof.
  intros Hwf. split; [by apply loads_dumps_indent | by apply loads_dumps].
Qed.

Lemma item_text_decodes_to_data_witness :
  json_decoder.loads (ApiItem.str_ (JObj [(chars "a", JArr [JInt 1; JNull])]))
  = Ret (JObj [(chars "a", JArr [JInt 1; JNull])]).
Proof.
  apply (item_text_decodes_to_data (JObj [(chars "a", JArr [JInt 1; JNull])])).
  apply wf_json_obj. split; [| repeat constructor].
  simpl. apply NoDup_singleton.
Defined.

(** ** File names *)

Lemma format_go_char (kwargs : list (str * json)) (c : ascii) (rest out : str) :
  not_brace c = true ->
  format_go kwargs (c :: rest) None out = format_go kwargs rest None (out ++ [c]).
Proof.
  destruct c as [[] [] [] [] [] [] [] []]; intros H; try discriminate H; reflexivity.
Qed.

Lemma format_go_literal (kwargs : list (str * json)) (pre rest : str) :
  forallb not_brace pre = true ->
  forall out, format_go kwargs (pre ++ rest) None out = format_go kwargs rest None (out ++ pre).
Proof.
  induction pre as [|c pre IH]; intros H out.
  - by rewrite app_nil_r.
  - simpl in H. apply andb_true_iff in H as [Hc H]. cbn [app].
    rewrite format_go_char by done. rewrite IH by done. by rewrite <- app_assoc.
Qed.

(** A template without braces formats to itself. *)
Lemma str_format_literal (kwargs : list (str * json)) (tpl : str) :
  forallb not_brace tpl = true -> str_format tpl kwargs = Ret tpl.
Proof.
  intros H. unfold str_format. rewrite <- (app_nil_r tpl) at 1.
  by rewrite format_go_literal.
Qed.

Lemma str_format_item_name (pre post safe_name id : str) :
  forallb not_brace pre = true -> forallb not_brace post = true ->
  str_format (pre ++ chars "{item_name}" ++ post)
    [(chars "item_name", JStr safe_name); (chars "item_id", JStr id)]
  = Ret (pre ++ safe_name ++ post).
Proof.
  intros H1 H2. unfold str_format. rewrite format_go_literal by done.
  cbn [app chars list_ascii_of_string]. simpl format_go.
  rewrite <- (app_nil_r post) at 1. rewrite format_go_literal by done. simpl.
  by rewrite <- app_assoc.
Qed.

Lemma str_format_name_uuid (safe id : str) :
  str_format (chars "{name}_{uuid}") [(chars "name", JStr safe); (chars "uuid", JStr id)]
  = Ret (safe ++ chars "_" ++ id).
Proof. unfold str_format. simpl. by rewrite <- app_assoc. Qed.

Lemma get_filename_literal (c : ConfigItem.cls) (ext_name : bool)
    (item_name item_id : option str) :
  forallb not_brace (ConfigItem.store_file c) = true ->
  ConfigItem.get_filename c ext_name item_name item_id = Ret (ConfigItem.store_file c).
Proof.
  intros H. unfold ConfigItem.get_filename.
  destruct item_name as [n |], item_id as [i |]; try done.
  rewrite filename_safe_is_map. cbn [mbind result_bind].
  destruct ext_name; cbn [negb].
  - rewrite str_format_name_uuid. cbn [mbind result_bind]. by apply str_format_literal.
  - cbn [mbind result_bind]. by apply str_format_literal.
Qed.

Lemma get_filename_item_name (c : ConfigItem.cls) (ext_name : bool) (name id pre post : str) :
  ConfigItem.store_file c = pre ++ chars "{item_name}" ++ post ->
  forallb not_brace pre = true -> forallb not_brace post = true ->
  ConfigItem.get_filename c ext_name (Some name) (Some id)
  = Ret (pre ++ (if ext_name
                 then map sanitize_char name ++ chars "_" ++ id
                 else map sanitize_char name) ++ post).
Proof.
  intros E H1 H2. unfold ConfigItem.get_filename.
  rewrite filename_safe_is_map. cbn [mbind result_bind]. rewrite E.
  destruct ext_name; cbn [negb].
  - rewrite str_format_name_uuid. cbn [mbind result_bind]. by apply str_format_item_name.
  - cbn [mbind result_bind]. by apply str_format_item_name.
Qed.

(** X15: With a [store_file] without braces, [get_filename] returns it for
    every name and id.  With a [store_file] that holds the variable
    [item_name] once, between texts without braces, it puts there the
    name made safe, followed with [ext_name] by an underscore and the
    id. *)
Theorem get_filename_of_template (c : ConfigItem.cls) (ext_name : bool) (name id : str) :
  (forallb not_brace (ConfigItem.store_file c) = true ->
   forall item_name item_id,
     ConfigItem.get_filename c ext_name item_name item_id = Ret (ConfigItem.store_file c))
  /\ (forall pre post,
        ConfigItem.store_file c = pre ++ chars "{item_name}" ++ post ->
        forallb not_brace pre = true -> forallb not_brace post = true ->
        ConfigItem.get_filename c ext_name (Some name) (Some id)
        = Ret (pre ++ (if ext_name
                       then map sanitize_char name ++ chars "_" ++ id
                       else map sanitize_char name) ++ post)).
Proof.
  split.
  - intros H item_name item_id. by apply get_filename_literal.
  - intros pre post E H1 H2. by apply get_filename_item_name.
Qed.

Lemma app_inv_tail_length {A} (a b c d : list A) :
  length b = length d -> a ++ b = c ++ d -> a = c /\ b = d.
Proof.
  intros Hl E. assert (Hl' : length a = length c).
  { apply (f_equal length) in E. rewrite !length_app in E. lia. }
  by apply app_inj_1.
Qed.

(** X16: With [ext_name], two items with different ids of the same length,
    such as two UUIDs, never share a file name, whatever their names. *)
Theorem extended_file_names_differ
    (c : ConfigItem.cls) (pre post name1 id1 name2 id2 file1 file2 : str) :
  ConfigItem.store_file c = pre ++ chars "{item_name}" ++ post ->
  forallb not_brace pre = true -> forallb not_brace post = true ->
  length id1 = length id2 -> id1 <> id2 ->
  ConfigItem.get_filename c true (Some name1) (Some id1) = Ret file1 ->
  ConfigItem.get_filename c true (Some name2) (Some id2) = Ret file2 ->
  file1 <> file2.
Proof.
  intros E H1 H2 Hl Hne.
  rewrite (get_filename_item_name c true name1 id1 pre post E H1 H2).
  rewrite (get_filename_item_name c true name2 id2 pre post E H1 H2).
  intros [= <-] [= <-] E'. apply Hne.
  apply app_inv_head, app_inv_tail in E'.
  apply app_inv_tail_length in E' as [_ E']; [by injection E' | simpl; lia].
Qed.

Lemma extended_file_names_differ_witness :
  chars "a_b_11111111-1111-1111-1111-111111111111.json"
  <> chars "a_b_22222222-2222-2222-2222-222222222222.json".
Proof.
  apply (extended_file_names_differ example_cls [] (chars ".json")
           (chars "a/b") id_1 (chars "a_b") id_2);
    [reflexivity | reflexivity | reflexivity | reflexivity |
     | vm_compute; reflexivity | vm_compute; reflexivity].
  intros H. vm_compute in H. discriminate H.
Defined.

(** ** Indexes and extended names *)

Lemma result_mapM_Ret {A B : Type} (f : A -> result B) (l : list A) (ys : list B) :
  result_mapM f l = Ret ys <-> Forall2 (fun x y => f x = Ret y) l ys.
Proof.
  revert ys. induction l as [|x l IH]; intros ys; simpl.
  - split; [intros [= <-]; constructor | by inversion 1].
  - destruct (f x) as [y | e |] eqn:E; simpl.
    + destruct (result_mapM f l) as [ys' | e |] eqn:E'; simpl.
      * split.
        -- intros [= <-]. constructor; [done | by apply IH].
        -- inversion 1 as [| ? y' ? ys'' Hy Hys]; subst.
           apply IH in Hys. congruence.
      * split; [done |]. inversion 1 as [| ? y' ? ys'' Hy Hys]; subst.
        apply IH in Hys. congruence.
      * split; [done |]. inversion 1 as [| ? y' ? ys'' Hy Hys]; subst.
        apply IH in Hys. congruence.
    + split; [done |]. inversion 1; congruence.
    + split; [done |]. inversion 1; congruence.
Qed.

Lemma size_list_to_set_le (l : list str) : size (list_to_set l : gset str) <= length l.
Proof.
  induction l as [|x l IH].
  - rewrite list_to_set_nil, size_empty. done.
  - rewrite list_to_set_cons. cbn [length].
    destruct (decide (x ∈ (list_to_set l : gset str))) as [Hx | Hx].
    + replace ({[x]} ∪ list_to_set l : gset str) with (list_to_set l : gset str)
        by set_solver. lia.
    + rewrite size_union by set_solver. rewrite size_singleton. lia.
Qed.

Lemma size_list_to_set_NoDup (l : list str) :
  size (list_to_set l : gset str) = length l <-> NoDup l.
Proof.
  split; [| apply size_list_to_set].
  induction l as [|x l IH]; [constructor |]. rewrite list_to_set_cons. cbn [length].
  intros H. pose proof (size_list_to_set_le l) as Hle.
  destruct (decide (x ∈ (list_to_set l : gset str))) as [Hx | Hx].
  - replace ({[x]} ∪ list_to_set l : gset str) with (list_to_set l : gset str) in H
      by set_solver. lia.
  - rewrite size_union in H by set_solver. rewrite size_singleton in H.
    constructor; [by rewrite elem_of_list_to_set in Hx | apply IH; lia].
Qed.

Lemma py_len_iter (v : json) (rows : list json) :
  py_iter v = Ret rows -> py_len v = Ret (length rows).
Proof.
  destruct v; simpl; intros [= <-]; by rewrite ?length_map.
Qed.

Lemma safe_lower_of_row (name : str) (elem : json) (s : str) :
  (e ← IndexApiItem.itemgetter [name] elem; IndexConfigItem.safe_lower e) = Ret s
  <-> exists n, getitem elem (Some name) = Ret (JStr n) /\ s = safe_name_lower n.
Proof.
  unfold IndexApiItem.itemgetter.
  destruct (getitem elem (Some name)) as [v | e |]; simpl.
  - destruct v as [| b | z | n | l | d]; simpl;
      try (split; [done | intros (n' & [=] & _)]).
    rewrite filename_safe_is_map. split.
    + intros [= <-]. by exists n.
    + by intros (n' & [= <-] & ->).
  - split; [done | by intros (n & ? & _)].
  - split; [done | by intros (n & ? & _)].
Qed.

Lemma init_id_name_size (id name : str) (data : json) (t : IndexConfigItem.t) :
  IndexConfigItem.init (IndexConfigItem.IdName id name) data = Ret t ->
  IndexConfigItem.data t = IndexApiItem.init data
  /\ exists rows names,
       py_iter (IndexConfigItem.data t) = Ret rows
       /\ Forall2 (fun row n => getitem row (Some name) = Ret (JStr n)) rows names
       /\ IndexConfigItem.need_extended_name t
          = negb (size (list_to_set (map safe_name_lower names) : gset str) =? length names).
Proof.
  unfold IndexConfigItem.init.
  destruct (py_iter (IndexApiItem.init data)) as [rows | e |] eqn:Ei; try done.
  cbn [mbind result_bind].
  destruct (result_mapM _ rows) as [safe | e |] eqn:Em; try done.
  cbn [mbind result_bind]. rewrite (py_len_iter _ _ Ei). cbn [mbind result_bind].
  intros [= <-]. cbn [IndexConfigItem.data IndexConfigItem.need_extended_name].
  split; [done |]. apply result_mapM_Ret in Em.
  assert (Hn : exists names,
             Forall2 (fun row n => getitem row (Some name) = Ret (JStr n)) rows names
             /\ safe = map safe_name_lower names).
  { clear Ei. induction Em as [| row s rows safe Hrow _ IH].
    - exists []. split; [constructor | done].
    - destruct IH as (names & Hf & ->).
      apply safe_lower_of_row in Hrow as (n & Hn & ->).
      exists (n :: names). split; [by constructor | done]. }
  destruct Hn as (names & Hf & ->). exists rows, names. split; [done |]. split; [done |].
  by rewrite (Forall2_length _ _ _ Hf).
Qed.

(** X17: The constructor of an index with [IdName] fields returns only
    when every entry holds a string under the name label, and then
    [need_extended_name] is false exactly when the names of the
    entries, made safe and put in lower case, are all different. *)
Theorem need_extended_name_iff_collision
    (id name : str) (data : json) (t : IndexConfigItem.t) :
  IndexConfigItem.init (IndexConfigItem.IdName id name) data = Ret t ->
  IndexConfigItem.data t = IndexApiItem.init data
  /\ exists rows names,
       py_iter (IndexConfigItem.data t) = Ret rows
       /\ Forall2 (fun row n => getitem row (Some name) = Ret (JStr n)) rows names
       /\ (IndexConfigItem.need_extended_name t = false
           <-> NoDup (map safe_name_lower names)).
Proof.
  intros H. destruct (init_id_name_size id name data t H) as (Hd & rows & names & Hr & Hf & E).
  split; [done |]. exists rows, names. split; [done |]. split; [done |].
  rewrite E, negb_false_iff, Nat.eqb_eq, <- (length_map safe_name_lower names).
  apply size_list_to_set_NoDup.
Qed.

Lemma need_extended_name_iff_collision_witness :
  let rows :=
    [JObj [(chars "id", JStr id_1); (chars "name", JStr (chars "Branch/1"))];
     JObj [(chars "id", JStr id_2); (chars "name", JStr (chars "branch_1"))]] in
  let t := IndexConfigItem.Make (JArr rows) true in
  IndexConfigItem.data t = IndexApiItem.init (JObj [(chars "data", JArr rows)])
  /\ exists rows' names,
       py_iter (IndexConfigItem.data t) = Ret rows'
       /\ Forall2 (fun row n => getitem row (Some (chars "name")) = Ret (JStr n)) rows' names
       /\ (IndexConfigItem.need_extended_name t = false
           <-> NoDup (map safe_name_lower names)).
Proof.
  intros rows t.
  apply (need_extended_name_iff_collision (chars "id") (chars "name")
           (JObj [(chars "data", JArr rows)]) t).
  vm_compute. reflexivity.
Defined.

Lemma NoDup_map_lookup {A B} (f : A -> B) (l : list A) (i j : nat) (x y : A) :
  NoDup (map f l) -> l !! i = Some x -> l !! j = Some y -> i <> j -> f x <> f y.
Proof.
  intros Hnd Hi Hj Hij E. apply Hij.
  apply (NoDup_lookup (map f l) i j (f x)); [done | |].
  - change (map f l) with (f <$> l). by rewrite list_lookup_fmap, Hi.
  - change (map f l) with (f <$> l). by rewrite list_lookup_fmap, Hj, E.
Qed.

(** X18: An index that does not need extended names gives different file
    names to entries at different places, without [ext_name], for a
    [store_file] that holds the variable [item_name] once, between
    texts without braces. *)
Theorem plain_file_names_differ_without_extended_name
    (c : ConfigItem.cls) (pre post id name : str) (data : json) (t : IndexConfigItem.t)
    (rows : list json) (i j : nat) (row_i row_j : json) (name_i name_j : str)
    (id_i id_j file_i file_j : str) :
  ConfigItem.store_file c = pre ++ chars "{item_name}" ++ post ->
  forallb not_brace pre = true -> forallb not_brace post = true ->
  IndexConfigItem.init (IndexConfigItem.IdName id name) data = Ret t ->
  IndexConfigItem.need_extended_name t = false ->
  py_iter (IndexConfigItem.data t) = Ret rows ->
  rows !! i = Some row_i -> rows !! j = Some row_j -> i <> j ->
  getitem row_i (Some name) = Ret (JStr name_i) ->
  getitem row_j (Some name) = Ret (JStr name_j) ->
  ConfigItem.get_filename c false (Some name_i) (Some id_i) = Ret file_i ->
  ConfigItem.get_filename c false (Some name_j) (Some id_j) = Ret file_j ->
  file_i <> file_j.
Proof.
  intros E H1 H2 Hinit Hneed Hrows Hi Hj Hij Hni Hnj.
  rewrite (get_filename_item_name c false name_i id_i pre post E H1 H2).
  rewrite (get_filename_item_name c false name_j id_j pre post E H1 H2).
  intros [= <-] [= <-] E'. apply app_inv_head, app_inv_tail in E'.
  destruct (init_id_name_size id name data t Hinit)
    as (_ & rows' & names & Hrows' & Hf & Esize).
  rewrite Hrows in Hrows'. injection Hrows' as <-.
  rewrite Esize, negb_false_iff, Nat.eqb_eq, <- (length_map safe_name_lower names) in Hneed.
  apply size_list_to_set_NoDup in Hneed.
  destruct (Forall2_lookup_l _ _ _ _ _ Hf Hi) as (ni & Hni' & Hgi).
  destruct (Forall2_lookup_l _ _ _ _ _ Hf Hj) as (nj & Hnj' & Hgj).
  rewrite Hni in Hgi. injection Hgi as <-. rewrite Hnj in Hgj. injection Hgj as <-.
  apply (NoDup_map_lookup safe_name_lower names i j name_i name_j Hneed Hni' Hnj' Hij).
  unfold safe_name_lower. by rewrite E'.
Qed.

Lemma plain_file_names_differ_without_extended_name_witness :
  chars "branch 1.json" <> chars "branch_1.json".
Proof.
  apply (plain_file_names_differ_without_extended_name example_cls [] (chars ".json")
           (chars "id") (chars "name")
           (JArr [JObj [(chars "id", JStr id_1); (chars "name", JStr (chars "branch 1"))];
                  JObj [(chars "id", JStr id_2); (chars "name", JStr (chars "branch_1"))]])
           (IndexConfigItem.Make
              (JArr [JObj [(chars "id", JStr id_1); (chars "name", JStr (chars "branch 1"))];
                     JObj [(chars "id", JStr id_2); (chars "name", JStr (chars "branch_1"))]])
              false)
           [JObj [(chars "id", JStr id_1); (chars "name", JStr (chars "branch 1"))];
            JObj [(chars "id", JStr id_2); (chars "name", JStr (chars "branch_1"))]]
           0 1
           (JObj [(chars "id", JStr id_1); (chars "name", JStr (chars "branch 1"))])
           (JObj [(chars "id", JStr id_2); (chars "name", JStr (chars "branch_1"))])
           (chars "branch 1") (chars "branch_1") id_1 id_2);
    [reflexivity | reflexivity | reflexivity | vm_compute; reflexivity | reflexivity
    | reflexivity | reflexivity | reflexivity | lia | reflexivity | reflexivity
    | vm_compute; reflexivity | vm_compute; reflexivity].
Defined.

(** ** Rename templates with a plain [name] variable *)

Lemma template_pattern_needs_brace (k : re.cont) (pos : nat) (rest : str)
    (caps : list (nat * (nat * nat))) :
  match rest with
  | c :: _ => c <> "{"%char
  | [] => True
  end ->
  re.rmatch (re.p_re ExtendedTemplate.template_pattern) k (re.MState pos rest caps) = None.
Proof.
  destruct rest as [|c rest]; [done |]. intros Hc.
  cbn [ExtendedTemplate.template_pattern re.p_re re.rmatch]. unfold re.step at 1.
  cbn [re.m_rest]. by rewrite bool_decide_eq_false_2.
Qed.

Lemma not_brace_open (c : ascii) : not_brace c = true -> c <> "{"%char.
Proof. intros H ->. discriminate H. Qed.

Lemma template_search_without_brace (s : str) :
  forallb not_brace s = true ->
  forall pos adv, re.search_from (re.p_re ExtendedTemplate.template_pattern) pos s adv = None.
Proof.
  induction s as [|c s IH]; intros H pos adv.
  - cbn [re.search_from]. by rewrite template_pattern_needs_brace.
  - simpl in H. apply andb_true_iff in H as [Hc H]. cbn [re.search_from].
    rewrite template_pattern_needs_brace by by apply not_brace_open.
    by rewrite IH.
Qed.

Lemma template_search_after_literal (pre rest : str) :
  forallb not_brace pre = true ->
  forall pos,
    re.search_from (re.p_re ExtendedTemplate.template_pattern) pos (pre ++ rest) false
    = match re.search_from (re.p_re ExtendedTemplate.template_pattern)
              (pos + length pre) rest false with
      | Some (sk, b, s') => Some (pre ++ sk, b, s')
      | None => None
      end.
Proof.
  induction pre as [|c pre IH]; intros H pos.
  - cbn [app length]. rewrite Nat.add_0_r.
    by destruct (re.search_from _ pos rest false) as [[[sk b] s'] |].
  - simpl in H. apply andb_true_iff in H as [Hc H]. cbn [app re.search_from].
    rewrite template_pattern_needs_brace by by apply not_brace_open.
    rewrite IH by done. cbn [length]. replace (S pos + length pre) with (pos + S (length pre)) by lia.
    by destruct (re.search_from _ (pos + S (length pre)) rest false) as [[[sk b] s'] |].
Qed.

Lemma template_match_name_variable (pos : nat) (post : str) :
  re.search_from (re.p_re ExtendedTemplate.template_pattern) pos (name_variable ++ post) false
  = Some ([], pos, re.MState (pos + 6) post []).
Proof.
  assert (E : re.rmatch (re.p_re ExtendedTemplate.template_pattern)
                (fun s' => if false && (re.m_pos s' =? pos) then None else Some s')
                (re.MState pos (name_variable ++ post) [])
              = Some (re.MState (pos + 6) post [])).
  { replace (pos + 6) with (S (S (S (S (S (S pos)))))) by lia. reflexivity. }
  change (name_variable ++ post) with ("{"%char :: (chars "name}" ++ post)) in *.
  cbn [re.search_from]. by rewrite E.
Qed.

Lemma regex_replace_plain (name : json) (subject : str) (b e : nat) :
  ExtendedTemplate.regex_replace name [] (re.Match subject b e [])
  = Ret ([(chars "name_0", name)], chars "{name_0}").
Proof. reflexivity. Qed.

Lemma subn_with_name_variable (name : json) (pre post : str) :
  forallb not_brace pre = true -> forallb not_brace post = true ->
  re.subn_with ExtendedTemplate.template_pattern (ExtendedTemplate.regex_replace name) []
    (pre ++ name_variable ++ post)
  = Ret ([(chars "name_0", name)], pre ++ chars "{name_0}" ++ post, 1).
Proof.
  intros H1 H2. unfold re.subn_with.
  replace (2 * length (pre ++ name_variable ++ post) + 2)
    with (S (S (2 * length (pre ++ name_variable ++ post)))) by lia.
  cbn [re.subn_loop].
  rewrite template_search_after_literal by done.
  rewrite template_match_name_variable. cbn [re.m_pos re.m_rest re.m_caps].
  rewrite regex_replace_plain. cbn [mbind result_bind].
  rewrite template_search_without_brace by done.
  rewrite !app_nil_r. cbn [app]. by rewrite <- app_assoc.
Qed.

Lemma str_format_name_0 (pre post : str) (name : json) :
  forallb not_brace pre = true -> forallb not_brace post = true ->
  str_format (pre ++ chars "{name_0}" ++ post) [(chars "name_0", name)]
  = (s ← py_str name; Ret (pre ++ s ++ post)).
Proof.
  intros H1 H2. unfold str_format. rewrite format_go_literal by done.
  cbn [app chars list_ascii_of_string]. simpl format_go.
  replace (format_field _ _) with (py_str name) by reflexivity.
  destruct (py_str name) as [s | e |]; cbn [mbind result_bind]; try done.
  rewrite <- (app_nil_r post) at 1. rewrite format_go_literal by done. simpl.
  by rewrite <- app_assoc.
Qed.

Lemma call_name_variable (pre post : str) (name : json) :
  forallb not_brace pre = true -> forallb not_brace post = true ->
  ExtendedTemplate.call (pre ++ name_variable ++ post) name
  = (s ← py_str name; Ret (pre ++ s ++ post)).
Proof.
  intros H1 H2. unfold ExtendedTemplate.call.
  rewrite subn_with_name_variable by done. cbn [mbind result_bind].
  change (1 =? 0) with false. cbn iota. by rewrite str_format_name_0.
Qed.

(** X19: A template that holds the [name] variable once, without an
    expression, between texts without braces, gives the name between
    those texts, whatever characters the name holds; a name that is a
    number is written in decimal. *)
Theorem template_with_plain_name_variable (pre post name : str) (z : Z) :
  forallb not_brace pre = true -> forallb not_brace post = true ->
  ExtendedTemplate.call (pre ++ name_variable ++ post) (JStr name) = Ret (pre ++ name ++ post)
  /\ ExtendedTemplate.call (pre ++ name_variable ++ post) (JInt z)
     = Ret (pre ++ int_repr z ++ post).
Proof.
  intros H1 H2. split; by rewrite call_name_variable.
Qed.

Lemma template_with_plain_name_variable_witness :
  ExtendedTemplate.call (chars "migrated_{name}_v2") (JStr (chars "Branch {1}"))
  = Ret (chars "migrated_Branch {1}_v2").
Proof.
  apply (template_with_plain_name_variable (chars "migrated_") (chars "_v2")
           (chars "Branch {1}") 0%Z); reflexivity.
Defined.

(** X20: With such a template, [get_new_name] returns the name between the
    two texts, for every name that is a string; where that new name
    holds no line feed, the flag says whether it has 1 to 128
    characters, none of them excluded.  A payload without the name
    raises nothing: the result is [(None, False)]. *)
Theorem get_new_name_with_plain_name_variable
    (c : ConfigItem.cls) (d : list (str * json)) (tag pre post : str) :
  ConfigItem.name_tag c = Some tag ->
  forallb not_brace pre = true -> forallb not_brace post = true ->
  (forall name,
     dict_get tag d = Some (JStr name) ->
     exists valid,
       ConfigItem.get_new_name c (JObj d) (pre ++ name_variable ++ post)
       = Ret (Some (pre ++ name ++ post), valid)
       /\ (LF ∉ pre ++ name ++ post ->
           (valid = true <-> name_ok (pre ++ name ++ post))))
  /\ (dict_get tag d = None ->
      ConfigItem.get_new_name c (JObj d) (pre ++ name_variable ++ post) = Ret (None, false)).
Proof.
  intros Ht H1 H2. split.
  - intros name Hn. unfold ConfigItem.get_new_name, getitem. rewrite Ht, Hn.
    cbn [mbind result_bind]. rewrite call_name_variable by done. cbn [py_str mbind result_bind].
    eexists. split; [reflexivity |]. intros Hlf.
    rewrite bool_decide_eq_true, name_check_search. by apply name_check_no_lf.
  - intros Hn. unfold ConfigItem.get_new_name, getitem. by rewrite Ht, Hn.
Qed.

Lemma get_new_name_with_plain_name_variable_witness :
  exists valid,
    ConfigItem.get_new_name example_cls
      (JObj [(chars "templateName", JStr (chars "branch"))]) (chars "new_{name}")
    = Ret (Some (chars "new_branch"), valid)
    /\ (LF ∉ chars "new_branch" -> (valid = true <-> name_ok (chars "new_branch"))).
Proof.
  destruct (get_new_name_with_plain_name_variable example_cls
              [(chars "templateName", JStr (chars "branch"))]
              (chars "templateName") (chars "new_") [] eq_refl eq_refl eq_refl) as [H _].
  apply (H (chars "branch") eq_refl).
Defined.

(** ** Iterating over an index *)

Lemma getitem_Ret (elem : json) (field : str) (v : json) :
  getitem elem (Some field) = Ret v <-> exists d, elem = JObj d /\ dict_get field d = Some v.
Proof.
  unfold getitem. destruct elem as [| b | z | s | l | d];
    try (split; [done | by intros (d' & ? & _)]).
  destruct (dict_get field d) as [w |] eqn:E.
  - split; [intros [= <-]; eauto | intros (d' & [= <-] & H); congruence].
  - split; [done | intros (d' & [= <-] & H); congruence].
Qed.

Lemma itemgetter_values (fields : list str) (elem : json) (e : IndexApiItem.entry) :
  IndexApiItem.itemgetter fields elem = Ret e ->
  fields <> []
  /\ exists d, elem = JObj d
               /\ Forall2 (fun field v => dict_get field d = Some v) fields (entry_values e).
Proof.
  unfold IndexApiItem.itemgetter. destruct fields as [|f [|g fields]]; [done | |].
  - destruct (getitem elem (Some f)) as [v | |] eqn:E; try done. intros [= <-].
    split; [done |]. apply getitem_Ret in E as (d & -> & E).
    exists d. split; [done |]. by repeat constructor.
  - destruct (result_mapM _ (f :: g :: fields)) as [vs | |] eqn:E; try done. intros [= <-].
    split; [done |]. apply result_mapM_Ret in E.
    assert (Hd : exists d, elem = JObj d).
    { inversion E as [| ? v ? ? Hf _]; subst. apply getitem_Ret in Hf as (d & -> & _). eauto. }
    destruct Hd as (d & ->). exists d. split; [done |]. cbn [entry_values].
    eapply Forall2_impl; [exact E |]. intros field v Hv. cbn beta in Hv.
    by apply getitem_Ret in Hv as (d' & [= <-] & Hv).
Qed.

(** X21: Where [iter] runs to its end, the data is a list of
    dictionaries that hold every field of [iter], and [extended_iter]
    with the same fields and any further fields runs to its end too,
    without [KeyError]: the entry of each dictionary is the tuple of the
    values [iter] gives for it, followed by the value of each further
    field in that dictionary, [None] where the dictionary has no such
    field. *)
Theorem extended_iter_extends_iter
    (data : json) (iter_fields extended_iter_fields : list str)
    (entries : list IndexApiItem.entry) :
  IndexApiItem.iter data iter_fields = Ret entries ->
  exists rows,
    py_iter data = Ret (JObj <$> rows)
    /\ Forall2 (fun d e =>
                  Forall2 (fun field v => dict_get field d = Some v)
                    iter_fields (entry_values e))
         rows entries
    /\ IndexApiItem.extended_iter data iter_fields extended_iter_fields
       = Ret (zip_with
                (fun d e =>
                   IndexApiItem.Tuple
                     (entry_values e
                      ++ map (fun field => default JNull (dict_get field d))
                           extended_iter_fields))
                rows entries).
Proof.
  unfold IndexApiItem.iter, IndexApiItem.extended_iter.
  destruct (py_iter data) as [elems | |]; try done. cbn [mbind result_bind].
  intros H. apply result_mapM_Ret in H.
  induction H as [| row e elems entries Hrow _ IH].
  - exists []. split; [done |]. split; [constructor | done].
  - destruct IH as (rows & [= ->] & Hf & E).
    apply itemgetter_values in Hrow as (Hne & d & -> & Hv).
    exists (d :: rows). split; [done |]. split; [by constructor |].
    cbn [fmap list_fmap result_mapM zip_with]. cbn [fmap] in E. rewrite E.
    cbn [mbind result_bind].
    unfold IndexApiItem.default_getter.
    destruct (iter_fields ++ extended_iter_fields) eqn:Ea.
    { apply app_eq_nil in Ea as [-> _]. done. }
    rewrite <- Ea. cbn [mbind result_bind]. do 3 f_equal. rewrite map_app. f_equal.
    clear -Hv. induction Hv as [| field v fields vs Hf _ IH]; [done |].
    simpl. by rewrite Hf, IH.
Qed.

Lemma extended_iter_extends_iter_witness :
  exists rows,
    py_iter (JArr [JObj [(chars "id", JStr id_1); (chars "name", JStr (chars "a"))]])
    = Ret (JObj <$> rows)
    /\ Forall2 (fun d e =>
                  Forall2 (fun field v => dict_get field d = Some v)
                    [chars "id"; chars "name"] (entry_values e))
         rows [IndexApiItem.Tuple [JStr id_1; JStr (chars "a")]]
    /\ IndexApiItem.extended_iter
         (JArr [JObj [(chars "id", JStr id_1); (chars "name", JStr (chars "a"))]])
         [chars "id"; chars "name"] [chars "owner"]
       = Ret (zip_with
                (fun d e =>
                   IndexApiItem.Tuple
                     (entry_values e
                      ++ map (fun field => default JNull (dict_get field d))
                           [chars "owner"]))
                rows [IndexApiItem.Tuple [JStr id_1; JStr (chars "a")]]).
Proof.
  apply (extended_iter_extends_iter
           (JArr [JObj [(chars "id", JStr id_1); (chars "name", JStr (chars "a"))]])
           [chars "id"; chars "name"] [chars "owner"]).
  reflexivity.
Defined.

(** ** Building an index *)

Lemma item_dict_id_name (id name : str) (id_hint_dict : gmap str str)
    (item_obj : IndexConfigItem.item) (row : list (str * json)) :
  id <> name ->
  IndexConfigItem.item_dict [id; name] id_hint_dict item_obj = Ret row ->
  exists d item_name hint,
    IndexConfigItem.item_data item_obj = JObj d
    /\ ApiItem.name (ConfigItem.name_tag (IndexConfigItem.item_cls item_obj)) (JObj d)
       = Ret item_name
    /\ IndexConfigItem.hint_get id_hint_dict item_name = Ret hint
    /\ row = [(id, default hint (dict_get id d)); (name, default hint (dict_get name d))].
Proof.
  intros Hne. unfold IndexConfigItem.item_dict. cbn [result_mapM].
  destruct (IndexConfigItem.item_data item_obj) as [| b | z | s | l | d]; try done.
  destruct (ApiItem.name _ (JObj d)) as [item_name | |] eqn:En; try done.
  cbn [mbind result_bind].
  destruct (IndexConfigItem.hint_get id_hint_dict item_name) as [hint | |] eqn:Eh; try done.
  cbn [mbind result_bind]. intros [= <-]. exists d, item_name, hint.
  split; [done |]. split; [done |]. split; [done |].
  unfold dict_of_pairs. simpl. by rewrite decide_False.
Qed.

Lemma itemgetter_pair (id name : str) (a b : json) :
  id <> name ->
  IndexApiItem.itemgetter [id; name] (JObj [(id, a); (name, b)])
  = Ret (IndexApiItem.Tuple [a; b]).
Proof.
  intros Hne. unfold IndexApiItem.itemgetter. cbn [result_mapM getitem dict_get].
  destruct (decide (id = id)) as [_ | ?]; [| done].
  destruct (decide (id = name)) as [? | _]; [done |].
  destruct (decide (name = name)) as [_ | ?]; [| done]. reflexivity.
Qed.

(** X22: An index built by [create] with [IdName] fields can be iterated
    without a [KeyError]: there is one entry for each item, in order,
    holding the id and the name of the item, with the hint found under
    the name of the item where the item has none. *)
Theorem create_entries_hold_id_and_name
    (id name : str) (item_list : list IndexConfigItem.item) (id_hint_dict : gmap str str)
    (t : IndexConfigItem.t) :
  id <> name ->
  IndexConfigItem.create (IndexConfigItem.IdName id name) item_list id_hint_dict = Ret t ->
  exists entries,
    IndexConfigItem.iter t [id; name] = Ret entries
    /\ Forall2
         (fun item_obj e =>
            exists d item_name hint,
              IndexConfigItem.item_data item_obj = JObj d
              /\ ApiItem.name (ConfigItem.name_tag (IndexConfigItem.item_cls item_obj)) (JObj d)
                 = Ret item_name
              /\ IndexConfigItem.hint_get id_hint_dict item_name = Ret hint
              /\ e = IndexApiItem.Tuple [default hint (dict_get id d);
                                         default hint (dict_get name d)])
         item_list entries.
Proof.
  intros Hne. unfold IndexConfigItem.create. cbn [IndexConfigItem.labels_of].
  destruct (result_mapM _ item_list) as [rows | |] eqn:Er; try done. cbn [mbind result_bind].
  intros Hi. apply init_id_name_size in Hi as (Hd & _).
  assert (Hd' : IndexConfigItem.data t = JArr (map JObj rows)) by (rewrite Hd; reflexivity).
  unfold IndexConfigItem.iter, IndexApiItem.iter. rewrite Hd'. cbn [py_iter].
  cbn [mbind result_bind]. apply result_mapM_Ret in Er. clear Hd Hd'.
  induction Er as [| item_obj row item_list rows Hrow _ IH].
  - exists []. split; [done | constructor].
  - destruct IH as (entries & E & Hf).
    apply item_dict_id_name in Hrow as (d & item_name & hint & Hd & Hn & Hh & ->); [| done].
    eexists (_ :: entries). split.
    + cbn [map result_mapM]. rewrite E. by rewrite itemgetter_pair.
    + constructor; [| done]. exists d, item_name, hint. done.
Qed.

Lemma create_entries_hold_id_and_name_witness :
  exists entries,
    IndexConfigItem.iter
      (IndexConfigItem.Make
         (JArr [JObj [(chars "templateId", JStr id_1); (chars "templateName", JStr (chars "t1"))]])
         false)
      [chars "templateId"; chars "templateName"] = Ret entries
    /\ Forall2
         (fun item_obj e =>
            exists d item_name hint,
              IndexConfigItem.item_data item_obj = JObj d
              /\ ApiItem.name (ConfigItem.name_tag (IndexConfigItem.item_cls item_obj)) (JObj d)
                 = Ret item_name
              /\ IndexConfigItem.hint_get {[ chars "t1" := id_1 ]} item_name = Ret hint
              /\ e = IndexApiItem.Tuple [default hint (dict_get (chars "templateId") d);
                                         default hint (dict_get (chars "templateName") d)])
         [IndexConfigItem.Item example_cls (JObj [(chars "templateName", JStr (chars "t1"))])]
         entries.
Proof.
  apply (create_entries_hold_id_and_name (chars "templateId") (chars "templateName")
           [IndexConfigItem.Item example_cls (JObj [(chars "templateName", JStr (chars "t1"))])]
           {[ chars "t1" := id_1 ]}).
  - discriminate.
  - vm_compute. reflexivity.
Defined.

(** ** Payloads for POST and PUT requests *)

Lemma dict_get_filter_keys (keys : gset str) (k : str) (d : list (str * json)) :
  dict_get k (filter (fun kv => fst kv ∉ keys) d)
  = if decide (k ∈ keys) then None else dict_get k d.
Proof.
  induction d as [|[k' v] d IH]; [by destruct (decide (k ∈ keys)) |].
  rewrite filter_cons. cbn [fst]. destruct (decide (k' ∉ keys)) as [Hk' | Hk'].
  - cbn [dict_get]. destruct (decide (k' = k)) as [-> | Hne].
    + by rewrite decide_False.
    + exact IH.
  - rewrite IH. cbn [dict_get]. destruct (decide (k ∈ keys)) as [Hk | Hk]; [done |].
    destruct (decide (k' = k)) as [-> | Hne]; [| done]. exfalso. by apply Hk'.
Qed.



Lemma NoDup_keys_filter (P : str * json -> Prop) `{forall kv, Decision (P kv)}
    (d : list (str * json)) :
  NoDup (map fst d) -> NoDup (map fst (filter P d)).
Proof.
  induction d as [|kv d IH]; [done |]. cbn [map]. rewrite NoDup_cons. intros [Hk Hnd].
  rewrite filter_cons. destruct (decide (P kv)); [| by apply IH].
  cbn [map]. apply NoDup_cons. split; [| by apply IH].
  intros Hin. apply Hk. apply list_elem_of_In, in_map_iff in Hin as (kv' & E & Hin).
  apply list_elem_of_In, list_elem_of_filter in Hin as [_ Hin].
  apply list_elem_of_In, in_map_iff. exists kv'. split; [done | by apply list_elem_of_In].
Qed.

Lemma wf_json_filter (P : str * json -> Prop) `{forall kv, Decision (P kv)}
    (d : list (str * json)) :
  wf_json (JObj d) -> wf_json (JObj (filter P d)).
Proof.
  rewrite !wf_json_obj. intros [Hnd Hwf]. split.
  - by apply NoDup_keys_filter.
  - apply Forall_forall. intros kv Hkv. apply list_elem_of_filter in Hkv as [_ Hkv].
    rewrite Forall_forall in Hwf. by apply Hwf.
Qed.




(** X24: With a mapping that holds none of the ids of the payload built,
    [put_data] returns the data without the keys [@rid], [createdOn]
    and [lastUpdatedOn] only: the id key stays, and so does every
    other member. *)
Theorem put_data_keeps_id
    (d : list (str * json)) (m : gmap str str) :
  let filtered_keys : gset str :=
    {[ chars "@rid"; chars "createdOn"; chars "lastUpdatedOn" ]} in
  let put_dict := filter (fun kv => fst kv ∉ filtered_keys) d in
  wf_json (JObj d) ->
  (forall u, In u (ids_of (JObj put_dict)) -> m !! u = None) ->
  ConfigItem.put_data (JObj d) m = Ret (JObj put_dict)
  /\ forall k, dict_get k put_dict = if decide (k ∈ filtered_keys) then None else dict_get k d.
Proof.
  intros filtered_keys put_dict Hwf Hm. split.
  - unfold ConfigItem.put_data. apply update_ids_fixed; [| done]. by apply wf_json_filter.
  - intros k. apply dict_get_filter_keys.
Qed.

Lemma put_data_keeps_id_witness :
  ConfigItem.put_data
    (JObj [(chars "templateId", JStr id_1); (chars "createdOn", JInt 7)]) {[ id_2 := id_1 ]}
  = Ret (JObj [(chars "templateId", JStr id_1)]).
Proof.
  apply (put_data_keeps_id
           [(chars "templateId", JStr id_1); (chars "createdOn", JInt 7)] {[ id_2 := id_1 ]}).
  - apply wf_json_obj. split; [| repeat constructor].
    apply (bool_decide_unpack (NoDup _)). by vm_compute.
  - assert (E : ids_of (JObj (filter (fun kv => fst kv ∉ ({[ chars "@rid"; chars "createdOn";
                                                             chars "lastUpdatedOn" ]} : gset str))
                   [(chars "templateId", JStr id_1); (chars "createdOn", JInt 7)]))
                = [id_1]) by by vm_compute.
    rewrite E. intros u [<- | []]. by vm_compute.
Defined.

(** ** [save] and the directories *)

Lemma mkdir_parents_dirs (p : list str) (st : store) (q : list str) :
  q ∈ dirs (mkdir_parents p st)
  <-> q ∈ dirs st \/ exists n, 1 <= n <= length p /\ q = take n p.
Proof.
  unfold mkdir_parents. cbn [dirs]. rewrite elem_of_union, elem_of_list_to_set.
  apply or_iff_compat_l. rewrite list_elem_of_fmap. split.
  - intros (n & -> & Hn). apply elem_of_seq in Hn. exists (S n). split; [lia | done].
  - intros (n & Hn & ->). exists (n - 1). split.
    + f_equal. lia.
    + apply elem_of_seq. lia.
Qed.

(** X25: [save] of data that is not empty makes the directory of the item
    and all its parents before it builds the file name: they exist
    afterwards even when the file name cannot be built, in which case
    the exception is raised and no file is written.  The directories
    that were there stay. *)
Theorem save_makes_directories_first
    (c : ConfigItem.cls) (data : json) (node_dir : str) (ext_name : bool)
    (item_name item_id : option str) (st : store) :
  ApiItem.is_empty data = Ret false ->
  let dir_path := ConfigItem.root_dir c :: node_dir :: ConfigItem.store_path c in
  let st' := snd (ConfigItem.save c data node_dir ext_name item_name item_id st) in
  (forall n, 1 <= n <= length dir_path -> take n dir_path ∈ dirs st')
  /\ dirs st ⊆ dirs st'
  /\ (forall e,
        ConfigItem.get_filename c ext_name item_name item_id = Raise e ->
        ConfigItem.save c data node_dir ext_name item_name item_id st
        = (Raise e, mkdir_parents dir_path st)
        /\ files st' = files st).
Proof.
  intros He dir_path st'.
  assert (Hd : dirs st' = dirs (mkdir_parents dir_path st)).
  { unfold st', ConfigItem.save. rewrite He.
    by destruct (ConfigItem.get_filename c ext_name item_name item_id). }
  split; [| split].
  - intros n Hn. rewrite Hd. apply mkdir_parents_dirs. right. by exists n.
  - intros q Hq. rewrite Hd. apply mkdir_parents_dirs. by left.
  - intros e Hf. unfold st', ConfigItem.save. rewrite He, Hf. done.
Qed.

Lemma save_makes_directories_first_witness :
  ConfigItem.save
    (ConfigItem.Cls None None [chars "templates"] (chars "{item}.json") (chars "data") ∅)
    (JObj [(chars "a", JInt 1)]) (chars "node") false (Some (chars "n")) (Some id_1)
    (Store ∅ ∅)
  = (Raise KeyError,
     mkdir_parents [chars "data"; chars "node"; chars "templates"] (Store ∅ ∅)).
Proof.
  destruct (save_makes_directories_first
              (ConfigItem.Cls None None [chars "templates"] (chars "{item}.json")
                 (chars "data") ∅)
              (JObj [(chars "a", JInt 1)]) (chars "node") false (Some (chars "n")) (Some id_1)
              (Store ∅ ∅) eq_refl) as (_ & _ & H).
  apply (H KeyError). vm_compute. reflexivity.
Defined.

(** ** The flags of a configuration item *)

(** X26: On a dictionary, [is_readonly] returns a true value exactly when
    the factory default flag or the read-only flag holds one, and
    [is_system] is true exactly when the owner is [system] or the info
    tag is [aci]; an item without these keys is neither.  [type] is the
    value under [type_tag], [None] for a class without it.  On data
    that is not a dictionary all three raise [AttributeError]. *)
Theorem config_item_flags (tg : ConfigItem.tags) (d : list (str * json)) :
  (exists v,
     ConfigItem.is_readonly tg (JObj d) = Ret v
     /\ (truthy v = true
         <-> (exists a, dict_get (ConfigItem.factory_default_tag tg) d = Some a
                        /\ truthy a = true)
             \/ (exists b, dict_get (ConfigItem.readonly_tag tg) d = Some b
                           /\ truthy b = true)))
  /\ (exists s,
        ConfigItem.is_system tg (JObj d) = Ret s
        /\ (s = true
            <-> dict_get (ConfigItem.owner_tag tg) d = Some (JStr (chars "system"))
                \/ dict_get (ConfigItem.info_tag tg) d = Some (JStr (chars "aci"))))
  /\ ConfigItem.type tg (JObj d)
     = Ret (match ConfigItem.type_tag tg with
            | Some t => default JNull (dict_get t d)
            | None => JNull
            end)
  /\ (forall l,
        ConfigItem.is_readonly tg (JArr l) = Raise AttributeError
        /\ ConfigItem.is_system tg (JArr l) = Raise AttributeError
        /\ ConfigItem.type tg (JArr l) = Raise AttributeError).
Proof.
  split; [| split; [| split]].
  - unfold ConfigItem.is_readonly. cbn [ConfigItem.data_get mbind result_bind].
    destruct (dict_get (ConfigItem.factory_default_tag tg) d) as [a |] eqn:Ea; cbv [default from_option id].
    + destruct (truthy a) eqn:Ta.
      * exists a. split; [done |]. split; [intros _; left; eauto | done].
      * eexists. split; [reflexivity |].
        destruct (dict_get (ConfigItem.readonly_tag tg) d) as [b |] eqn:Eb; cbv [default from_option id].
        -- split; [intros H; right; eauto |].
           intros [(a' & [= <-] & H) | (b' & [= <-] & H)]; congruence.
        -- split; [done |]. intros [(a' & [= <-] & H) | (b' & [=] & _)]. congruence.
    + cbn [truthy]. eexists. split; [reflexivity |].
      destruct (dict_get (ConfigItem.readonly_tag tg) d) as [b |] eqn:Eb; cbv [default from_option id].
      * split; [intros H; right; eauto |].
        intros [(a' & [=] & _) | (b' & [= <-] & H)]. done.
      * split; [done |]. intros [(a' & [=] & _) | (b' & [=] & _)].
  - unfold ConfigItem.is_system. cbn [ConfigItem.data_get mbind result_bind].
    assert (Hs : forall o tag,
               ConfigItem.eq_str (default (JStr []) o) tag = true
               <-> tag <> [] /\ o = Some (JStr tag) \/ tag = [] /\ (o = None \/ o = Some (JStr []))).
    { intros o tag. destruct o as [[| | | s | |] |]; cbv [default from_option id ConfigItem.eq_str];
        rewrite ?bool_decide_eq_true; try (split; [done | intros [[_ [=]] | [_ [[=] | [=]]]]]).
      - destruct tag as [|c tag].
        + split; [intros ->; right; auto | intros [[H _] | [_ [[=] | [= ->]]]]; done].
        + split; [intros ->; left; done | intros [[_ [= ->]] | [[=] _]]; done].
      - destruct tag as [|c tag].
        + split; [intros _; right; auto | done].
        + split; [done | intros [[_ [=]] | [[=] _]]]. }
    destruct (ConfigItem.eq_str (default (JStr []) (dict_get (ConfigItem.owner_tag tg) d))
                (chars "system")) eqn:E1.
    + exists true. split; [done |]. split; [intros _; left | done].
      apply Hs in E1 as [[_ E1] | [[=] _]]. done.
    + eexists. split; [reflexivity |]. rewrite Hs. split.
      * intros [[_ H] | [[=] _]]. by right.
      * intros [H | H]; [| by left].
        exfalso. rewrite H in E1. vm_compute in E1. discriminate E1.
  - unfold ConfigItem.type, ConfigItem.data_get. by destruct (ConfigItem.type_tag tg).
  - intros l. done.
Qed.

(** ** Entries without a field *)

Lemma result_mapM_raises {A B : Type} (f : A -> result B) (e : exn) (l : list A) :
  (forall x, In x l -> (exists y, f x = Ret y) \/ f x = Raise e) ->
  (exists x, In x l /\ f x = Raise e) ->
  result_mapM f l = Raise e.
Proof.
  induction l as [|x l IH]; intros Hall (x0 & Hin & Hx0); [done |].
  cbn [result_mapM]. destruct (Hall x (or_introl eq_refl)) as [(y & E) | E]; rewrite E; [| done].
  cbn [mbind result_bind]. rewrite IH; [done | |].
  - intros x' Hx'. apply Hall. by right.
  - destruct Hin as [-> | Hin]; [congruence |]. eauto.
Qed.

Lemma result_mapM_returns_or_raises {A B : Type} (f : A -> result B) (e : exn) (l : list A) :
  (forall x, In x l -> (exists y, f x = Ret y) \/ f x = Raise e) ->
  (exists ys, result_mapM f l = Ret ys) \/ result_mapM f l = Raise e.
Proof.
  induction l as [|x l IH]; intros Hall; [left; by eexists |].
  cbn [result_mapM]. destruct (Hall x (or_introl eq_refl)) as [(y & E) | E]; rewrite E; [| by right].
  cbn [mbind result_bind].
  destruct IH as [(ys & E') | E']; [intros x' Hx'; apply Hall; by right | |]; rewrite E'.
  - left. by eexists.
  - by right.
Qed.

Lemma getitem_dict (d : list (str * json)) (f : str) :
  (exists v, getitem (JObj d) (Some f) = Ret v) \/ getitem (JObj d) (Some f) = Raise KeyError.
Proof. unfold getitem. destruct (dict_get f d); [left; by eexists | by right]. Qed.

Lemma itemgetter_dict (fields : list str) (d : list (str * json)) :
  fields <> [] ->
  ((exists e, IndexApiItem.itemgetter fields (JObj d) = Ret e)
   \/ IndexApiItem.itemgetter fields (JObj d) = Raise KeyError)
  /\ ((exists f, In f fields /\ dict_get f d = None) ->
      IndexApiItem.itemgetter fields (JObj d) = Raise KeyError).
Proof.
  intros Hne. unfold IndexApiItem.itemgetter. destruct fields as [|f [|g fields]]; [done | |].
  - split.
    + destruct (getitem_dict d f) as [(v & E) | E]; rewrite E; [left; by eexists | by right].
    + intros (f' & [<- | []] & Hf). unfold getitem. by rewrite Hf.
  - split.
    + destruct (result_mapM_returns_or_raises (fun f0 => getitem (JObj d) (Some f0)) KeyError
                  (f :: g :: fields)) as [(vs & E) | E].
      * intros x _. apply getitem_dict.
      * rewrite E. left. by eexists.
      * rewrite E. by right.
    + intros (f' & Hin & Hf).
      rewrite (result_mapM_raises (fun f0 => getitem (JObj d) (Some f0)) KeyError).
      * done.
      * intros x _. apply getitem_dict.
      * exists f'. split; [done |]. unfold getitem. by rewrite Hf.
Qed.

(** X27: On a list of dictionaries, [iter] raises [KeyError] as soon as
    one entry lacks one of the fields, where [extended_iter] returns
    one entry for each dictionary. *)
Theorem iter_raises_key_error_on_missing_field
    (rows : list (list (str * json))) (iter_fields extended_iter_fields : list str)
    (d : list (str * json)) (field : str) :
  In d rows -> In field iter_fields -> dict_get field d = None ->
  IndexApiItem.iter (JArr (map JObj rows)) iter_fields = Raise KeyError
  /\ exists entries,
       IndexApiItem.extended_iter (JArr (map JObj rows)) iter_fields extended_iter_fields
       = Ret entries
       /\ length entries = length rows.
Proof.
  intros Hd Hf Hm. assert (Hne : iter_fields <> []) by (intros ->; done). split.
  - unfold IndexApiItem.iter. cbn [py_iter mbind result_bind].
    apply result_mapM_raises.
    + intros x Hx. apply in_map_iff in Hx as (d' & <- & _). by apply itemgetter_dict.
    + exists (JObj d). split; [by apply in_map |].
      apply itemgetter_dict; [done |]. eauto.
  - unfold IndexApiItem.extended_iter. cbn [py_iter mbind result_bind].
    exists (map (fun d' => IndexApiItem.Tuple
                             (map (fun f => default JNull (dict_get f d'))
                                (iter_fields ++ extended_iter_fields))) rows).
    split; [| by rewrite length_map].
    apply result_mapM_Ret. clear Hd. induction rows as [|d' rows IH]; [constructor |].
    cbn [map]. constructor; [| exact IH]. unfold IndexApiItem.default_getter.
    destruct (iter_fields ++ extended_iter_fields) eqn:E; [| done].
    apply app_eq_nil in E as [-> _]. done.
Qed.

Lemma iter_raises_key_error_on_missing_field_witness :
  IndexApiItem.iter
    (JArr [JObj [(chars "id", JStr id_1); (chars "name", JStr (chars "a"))];
           JObj [(chars "id", JStr id_2)]])
    [chars "id"; chars "name"]
  = Raise KeyError.
Proof.
  apply (iter_raises_key_error_on_missing_field
           [[(chars "id", JStr id_1); (chars "name", JStr (chars "a"))];
            [(chars "id", JStr id_2)]]
           [chars "id"; chars "name"] [] [(chars "id", JStr id_2)] (chars "name")).
  - right. by left.
  - right. by left.
  - reflexivity.
Defined.

(** ** Templates without a variable *)

Lemma template_search_without_open_brace (s : str) :
  forallb not_open_brace s = true ->
  forall pos adv, re.search_from (re.p_re ExtendedTemplate.template_pattern) pos s adv = None.
Proof.
  induction s as [|c s IH]; intros H pos adv.
  - cbn [re.search_from]. by rewrite template_pattern_needs_brace.
  - simpl in H. apply andb_true_iff in H as [Hc H]. cbn [re.search_from].
    rewrite template_pattern_needs_brace.
    + by rewrite IH.
    + intros ->. discriminate Hc.
Qed.

(** X28: A template without an opening brace holds no variable: the call
    raises [KeyError] for every name, and [get_new_name] returns
    [(None, False)] for every dictionary. *)
Theorem template_without_brace_raises_key_error
    (c : ConfigItem.cls) (src_template : str) (name : json) (d : list (str * json)) :
  forallb not_open_brace src_template = true ->
  ExtendedTemplate.call src_template name = Raise KeyError
  /\ ConfigItem.get_new_name c (JObj d) src_template = Ret (None, false).
Proof.
  intros H.
  assert (Hs : re.search ExtendedTemplate.template_pattern src_template = None).
  { unfold re.search. by rewrite template_search_without_open_brace. }
  assert (Hc : forall v, ExtendedTemplate.call src_template v = Raise KeyError).
  { intros v. unfold ExtendedTemplate.call. by rewrite (subn_with_no_match _ _ _ _ Hs). }
  split; [apply Hc |]. unfold ConfigItem.get_new_name.
  destruct (getitem (JObj d) (ConfigItem.name_tag c)) as [v | e |] eqn:Eg;
    cbn [mbind result_bind].
  - by rewrite Hc.
  - unfold getitem in Eg. destruct (ConfigItem.name_tag c) as [k |].
    + destruct (dict_get k d); [discriminate Eg | by injection Eg as <-].
    + by injection Eg as <-.
  - unfold getitem in Eg. destruct (ConfigItem.name_tag c) as [k |]; [| done].
    by destruct (dict_get k d).
Qed.

Lemma template_without_brace_raises_key_error_witness :
  ExtendedTemplate.call (chars "copy_of_name}") (JStr (chars "branch")) = Raise KeyError.
Proof.
  apply (template_without_brace_raises_key_error example_cls (chars "copy_of_name}")
           (JStr (chars "branch")) []).
  reflexivity.
Defined.
